(** * Filecoin workshop application: a shallow embedding and its properties

    The development embeds the pieces of the workshop application that carry
    logic of their own: the file pickers of the upload components, the
    dataset enrichment query, the [NFTContract] Solidity contract, the
    encrypted-NFT minting handler, the challenge progress hook with its
    [localStorage] persistence, the simulated upload workflow with its
    cancellation, the flag validators and the currency formatter.

    Conventions.
    - A JavaScript string is the list of its UTF-16 code units ([jsstring]);
      [length], [startsWith], [includes] and [trim] work on code units as they
      do in the engine.  [lit] turns an ASCII literal into code units.
    - A JavaScript [number] holding an integer and a [bigint] are [Z].
    - A Solidity [uint256] is a [Z] in [0, 2^256); checked arithmetic reverts,
      a revert is [None].
    - Calls into SDKs, the clock and the storage quota are inputs of the
      functions that use them. *)

From Stdlib Require Import ZArith List Lia Bool Ascii String.
From stdpp Require Import gmap strings list.

Local Open Scope Z_scope.

(* ===================================================================== *)
(** * JavaScript strings                                                  *)
(* ===================================================================== *)

Module JS.

Definition jsstring := list Z.

Definition unit_of_ascii (a : ascii) : Z := Z.of_nat (nat_of_ascii a).

Fixpoint lit (s : string) : jsstring :=
  match s with
  | EmptyString => []
  | String a r => unit_of_ascii a :: lit r
  end.

(** [WhiteSpace] and [LineTerminator] code points of ECMAScript, the ones
    [String.prototype.trim] strips. *)
Definition isWhiteSpace (c : Z) : bool :=
  (c =? 9) || (c =? 10) || (c =? 11) || (c =? 12) || (c =? 13) || (c =? 32)
  || (c =? 160) || (c =? 5760) || ((8192 <=? c) && (c <=? 8202))
  || (c =? 8232) || (c =? 8233) || (c =? 8239) || (c =? 8287)
  || (c =? 12288) || (c =? 65279).

Fixpoint trimStart (s : jsstring) : jsstring :=
  match s with
  | [] => []
  | c :: r => if isWhiteSpace c then trimStart r else s
  end.

Definition trimEnd (s : jsstring) : jsstring := rev (trimStart (rev s)).

Definition trim (s : jsstring) : jsstring := trimEnd (trimStart s).

Fixpoint startsWith (s p : jsstring) {struct p} : bool :=
  match p, s with
  | [], _ => true
  | _ :: _, [] => false
  | a :: p', b :: s' => (a =? b) && startsWith s' p'
  end.

Fixpoint includes (s sub : jsstring) : bool :=
  startsWith s sub ||
  match s with
  | [] => false
  | _ :: r => includes r sub
  end.

Definition str_eqb (a b : jsstring) : bool := bool_decide (a = b).

(** Truthiness of a string: the empty string is falsy. *)
Definition truthy (s : jsstring) : bool :=
  match s with [] => false | _ => true end.

(** [\d] of a regular expression: the ASCII digits. *)
Definition isDigit (c : Z) : bool := (48 <=? c) && (c <=? 57).

(** The tail of [/^\d+$/] after its first digit: digits up to the end of
    the input. *)
Fixpoint digits_to_end (s : jsstring) : bool :=
  match s with
  | [] => true
  | c :: r => isDigit c && digits_to_end r
  end.

(** [s.match(/^\d+$/) !== null]: one digit, then digits to the end. *)
Definition match_digits (s : jsstring) : bool :=
  match s with
  | [] => false
  | c :: r => isDigit c && digits_to_end r
  end.

Definition repeat_unit (c : Z) (n : nat) : jsstring := repeat c n.

(** [s.padStart(n, c)] and [s.padEnd(n, c)] with a one-unit filler. *)
Definition padStart (n : nat) (c : Z) (s : jsstring) : jsstring :=
  repeat_unit c (n - length s) ++ s.

Definition padEnd (n : nat) (c : Z) (s : jsstring) : jsstring :=
  s ++ repeat_unit c (n - length s).

Fixpoint drop_leading (c : Z) (s : jsstring) : jsstring :=
  match s with
  | [] => []
  | d :: r => if d =? c then drop_leading c r else s
  end.

(** [s.replace(/0+$/, '')]. *)
Definition strip_trailing_zeros (s : jsstring) : jsstring :=
  rev (drop_leading 48 (rev s)).

(** Decimal digits of a non-negative integer, most significant first.  The
    fuel [S (log2 n)] bounds the number of digits. *)
Fixpoint digits_fuel (fuel : nat) (n : Z) (acc : jsstring) : jsstring :=
  match fuel with
  | O => acc
  | S f =>
      let acc' := (48 + n mod 10) :: acc in
      if n / 10 =? 0 then acc' else digits_fuel f (n / 10) acc'
  end.

Definition digits (n : Z) : jsstring :=
  digits_fuel (S (Z.to_nat (Z.log2 n))) n [].

(** [BigInt.prototype.toString()]. *)
Definition BigInt_toString (n : Z) : jsstring :=
  if n <? 0 then 45 :: digits (- n) else digits n.

End JS.

Import JS.

(* ===================================================================== *)
(** * Workshop types ([workshop.types.ts])                                *)
(* ===================================================================== *)

Inductive ChallengeType :=
| TREASURY_MASTER
| STORAGE_SENTINEL
| DATA_GUARDIAN
| NFT_ARCHITECT
| DECRYPTION_EXPERT.

#[global] Instance ChallengeType_eq_dec : EqDecision ChallengeType.
Proof. solve_decision. Defined.

(** The string value of the enum member. *)
Definition ChallengeType_value (c : ChallengeType) : jsstring :=
  match c with
  | TREASURY_MASTER => lit "TREASURY_MASTER"
  | STORAGE_SENTINEL => lit "STORAGE_SENTINEL"
  | DATA_GUARDIAN => lit "DATA_GUARDIAN"
  | NFT_ARCHITECT => lit "NFT_ARCHITECT"
  | DECRYPTION_EXPERT => lit "DECRYPTION_EXPERT"
  end.

(** [Object.values(ChallengeType)]. *)
Definition ChallengeType_values : list ChallengeType :=
  [TREASURY_MASTER; STORAGE_SENTINEL; DATA_GUARDIAN; NFT_ARCHITECT;
   DECRYPTION_EXPERT].

Inductive ChallengeDifficulty := BEGINNER | INTERMEDIATE | ADVANCED | EXPERT.

Definition ChallengeDifficulty_value (d : ChallengeDifficulty) : Z :=
  match d with
  | BEGINNER => 1
  | INTERMEDIATE => 2
  | ADVANCED => 3
  | EXPERT => 4
  end.

Record Challenge := {
  id : ChallengeType;
  number : Z;
  title : jsstring;
  difficulty : ChallengeDifficulty;
  prerequisites : list ChallengeType;
  nextChallenge : option ChallengeType;
  path : jsstring
}.

Definition WORKSHOP_CHALLENGES : list Challenge :=
  [ {| id := TREASURY_MASTER; number := 1; title := lit "Treasury Master";
       difficulty := BEGINNER; prerequisites := [];
       nextChallenge := Some STORAGE_SENTINEL; path := lit "/synapse" |};
    {| id := STORAGE_SENTINEL; number := 2; title := lit "Storage Sentinel";
       difficulty := INTERMEDIATE; prerequisites := [TREASURY_MASTER];
       nextChallenge := Some DATA_GUARDIAN; path := lit "/synapse" |};
    {| id := DATA_GUARDIAN; number := 3; title := lit "Data Guardian";
       difficulty := INTERMEDIATE; prerequisites := [STORAGE_SENTINEL];
       nextChallenge := Some NFT_ARCHITECT; path := lit "/synapse" |};
    {| id := NFT_ARCHITECT; number := 4; title := lit "NFT Architect";
       difficulty := ADVANCED; prerequisites := [DATA_GUARDIAN];
       nextChallenge := Some DECRYPTION_EXPERT; path := lit "/synapse-nft" |};
    {| id := DECRYPTION_EXPERT; number := 5; title := lit "Decryption Expert";
       difficulty := EXPERT; prerequisites := [NFT_ARCHITECT];
       nextChallenge := None; path := lit "/lit-synapse-nft" |} ].

Module WORKSHOP_CONFIG.
Definition TOTAL_CHALLENGES : Z := 5.
Definition PROGRESS_STORAGE_KEY : jsstring := lit "fil-workshop-progress".
Definition PROGRESS_VERSION : Z := 1.
Definition MAX_ATTEMPTS : Z := 10.
Definition SESSION_TIMEOUT : Z := 3600000.
End WORKSHOP_CONFIG.

Record WorkshopProgress := {
  completedChallenges : list ChallengeType;
  lastUpdated : Z;
  version : Z;
  participantId : option jsstring;
  sessionStarted : Z;
  timeSpent : Z
}.

Record ChallengeAttempt := {
  attempt_challengeId : ChallengeType;
  attempt_timestamp : Z;
  attempt_success : bool;
  attempt_error : option jsstring;
  attempt_duration : Z
}.

Inductive FlagValidationResult :=
| Valid (challengeId : ChallengeType) (points : Z)
| Invalid (error : jsstring) (hint : option jsstring).

Definition valid (r : FlagValidationResult) : bool :=
  match r with Valid _ _ => true | Invalid _ _ => false end.

(** The [ChallengeStatus] union.  [Locked] carries what the hook found as
    the missing prerequisite, [undefined] being [None]. *)
Inductive ChallengeStatus :=
| NotStarted
| InProgress (startedAt : Z)
| Completed (completedAt : Z) (transactionHash : jsstring)
| Failed (reason : jsstring) (lastAttemptAt : Z)
| Locked (prerequisiteChallenge : option ChallengeType).

(** [xs.find(p)]: the first element that satisfies [p]. *)
Fixpoint Array_find {A} (p : A -> bool) (xs : list A) : option A :=
  match xs with
  | [] => None
  | x :: r => if p x then Some x else Array_find p r
  end.

(** [xs.includes(x)]. *)
Definition Array_includes {A} `{EqDecision A} (xs : list A) (x : A) : bool :=
  bool_decide (x ∈ xs).

(* ===================================================================== *)
(** * Flag validation ([useChallengeVerification.ts])                     *)
(* ===================================================================== *)

Module Flags.

(** The [challengeFlags] map, in insertion order. *)
Definition challengeFlags : list (ChallengeType * (jsstring -> bool)) :=
  [ (TREASURY_MASTER,
      fun flag => startsWith flag (lit "0x") && bool_decide (length flag = 66%nat));
    (STORAGE_SENTINEL,
      fun flag => startsWith flag (lit "Qm") && bool_decide (length flag = 46%nat));
    (DATA_GUARDIAN,
      fun flag => startsWith flag (lit "encrypted_")
                  && bool_decide (20 < length flag)%nat);
    (NFT_ARCHITECT, fun flag => match_digits flag);
    (DECRYPTION_EXPERT, fun flag => includes flag (lit "decrypted_content")) ].

(** [Map.prototype.get]. *)
Fixpoint Map_get {V} (m : list (ChallengeType * V)) (k : ChallengeType)
  : option V :=
  match m with
  | [] => None
  | (k', v) :: r => if bool_decide (k' = k) then Some v else Map_get r k
  end.

Definition hints (c : ChallengeType) : jsstring :=
  match c with
  | TREASURY_MASTER => lit "Expected a transaction hash (0x...)"
  | STORAGE_SENTINEL => lit "Expected an IPFS CID (Qm...)"
  | DATA_GUARDIAN => lit "Expected an encrypted data identifier"
  | NFT_ARCHITECT => lit "Expected an NFT token ID (number)"
  | DECRYPTION_EXPERT => lit "Expected decrypted content proof"
  end.

Definition empty_flag_result : FlagValidationResult :=
  Invalid (lit "Flag cannot be empty")
          (Some (lit "Enter the flag you received after completing the challenge")).

Definition validateChallengeFlag (challengeId : ChallengeType) (flag : jsstring)
  : FlagValidationResult :=
  if negb (truthy flag) then empty_flag_result
  else
    let trimmedFlag := trim flag in
    if bool_decide (length trimmedFlag = 0%nat) then empty_flag_result
    else
      match Map_get challengeFlags challengeId with
      | None =>
          Invalid (lit "No validation logic found for challenge: "
                   ++ ChallengeType_value challengeId)
                  (Some (lit "This challenge may not be implemented yet"))
      | Some validator =>
          if negb (validator trimmedFlag) then
            Invalid (lit "Invalid flag format")
                    (Some (if truthy (hints challengeId) then hints challengeId
                           else lit "Check the challenge instructions for the expected flag format"))
          else
            let challenge :=
              Array_find (fun c => bool_decide (id c = challengeId))
                         WORKSHOP_CHALLENGES in
            let points :=
              match challenge with
              | Some c => ChallengeDifficulty_value (difficulty c) * 100
              | None => 100
              end in
            Valid challengeId points
      end.

(** The format each challenge asks for, in the words of the specification. *)
Definition spec_format (c : ChallengeType) (t : jsstring) : Prop :=
  match c with
  | TREASURY_MASTER => (exists r, t = lit "0x" ++ r) /\ length t = 66%nat
  | STORAGE_SENTINEL => (exists r, t = lit "Qm" ++ r) /\ length t = 46%nat
  | DATA_GUARDIAN => (exists r, t = lit "encrypted_" ++ r) /\ (20 < length t)%nat
  | NFT_ARCHITECT => forall u, u ∈ t -> 48 <= u <= 57
  | DECRYPTION_EXPERT => exists a b, t = a ++ lit "decrypted_content" ++ b
  end.

(** The points of a challenge, in the words of the specification: the
    difficulty of its entry in the challenge table times 100. *)
Definition spec_points (c : ChallengeType) (points : Z) : Prop :=
  exists ch, ch ∈ WORKSHOP_CHALLENGES /\ id ch = c /\
             points = ChallengeDifficulty_value (difficulty ch) * 100.

End Flags.

(* ===================================================================== *)
(** * Currency formatting ([WorkshopContext])                             *)
(* ===================================================================== *)

Module Currency.

(** [formatCurrency(amount, decimals)].  [BigInt(10 ** decimals)] is the exact
    power of ten for [0 <= decimals <= 22], where the double [10 ** decimals]
    is exact; the default is 18.  From 23 on the source divides by the
    rounded double, which this definition does not describe.  BigInt [/] and
    [%] truncate towards zero. *)
Definition formatCurrency (amount : Z) (decimals : Z) : jsstring :=
  let divisor := 10 ^ decimals in
  let wholePart := Z.quot amount divisor in
  let fractionalPart := Z.rem amount divisor in
  if fractionalPart =? 0 then BigInt_toString wholePart
  else
    let fractionalStr :=
      padStart (Z.to_nat decimals) 48 (BigInt_toString fractionalPart) in
    let trimmedFractional := strip_trailing_zeros fractionalStr in
    if truthy trimmedFractional
    then BigInt_toString wholePart ++ lit "." ++ trimmedFractional
    else BigInt_toString wholePart.

Definition default_decimals : Z := 18.

(** Reading a decimal string back, in the words of the specification: the
    whole part times [10^18] plus the fractional digits right-padded with
    zeros to 18 places. *)
Definition digit_value (c : Z) : Z := c - 48.

Definition parse_digits (s : jsstring) : Z :=
  fold_left (fun acc c => 10 * acc + digit_value c) s 0.

Fixpoint split_at_dot (s : jsstring) : jsstring * jsstring :=
  match s with
  | [] => ([], [])
  | c :: r =>
      if c =? 46 then ([], r)
      else let '(w, f) := split_at_dot r in (c :: w, f)
  end.

Definition parse_amount (s : jsstring) : Z :=
  let '(w, f) := split_at_dot s in
  parse_digits w * 10 ^ 18 + parse_digits (padEnd 18 48 f).

End Currency.

(* ===================================================================== *)
(** * Results of fallible calls                                           *)
(* ===================================================================== *)

(** An awaited promise either resolves or rejects; a rejection is the
    message of the thrown [Error]. *)
Inductive result (A : Type) :=
| Ok (a : A)
| Err (message : jsstring).

Arguments Ok {A} a.
Arguments Err {A} message.

Definition bind {A B} (r : result A) (k : A -> result B) : result B :=
  match r with
  | Ok a => k a
  | Err e => Err e
  end.

Notation "'await' x ':=' c 'in' k" := (bind c (fun x => k))
  (at level 10, x pattern, c at level 100, k at level 200).

Definition is_ok {A} (r : result A) : bool :=
  match r with Ok _ => true | Err _ => false end.

(* ===================================================================== *)
(** * File pickers ([FileUpload.tsx], [EncryptedNFTMinter], [NFTMinter])  *)
(* ===================================================================== *)

Record File := {
  file_name : jsstring;
  file_size : Z;
  file_type : jsstring
}.

(** An argument of a contract write. *)
Inductive AbiArg :=
| AString (s : jsstring)
| AAddressArray (l : list jsstring).

Record WriteCall := {
  functionName : jsstring;
  args : list AbiArg
}.

Module FileUpload.

Record State := {
  selectedFile : option File;
  dragActive : bool
}.

(** [handleFileSelect(files)]: the new component state and the messages
    shown with [alert]. *)
Definition handleFileSelect (files : option (list File)) (s : State)
  : State * list jsstring :=
  match files with
  | Some (file :: _) =>
      if file_size file >? 100 * 1024 * 1024
      then (s, [lit "File size must be less than 100MB"])
      else ({| selectedFile := Some file; dragActive := dragActive s |}, [])
  | _ => (s, [])
  end.

End FileUpload.

Module EncryptedNFTMinter.

Inductive MintType := public | private.

Record State := {
  selectedFile : option File;
  dragActive : bool;
  accessAddresses : list jsstring;
  mintType : MintType;
  mintedTokenId : option jsstring;
  pieceCid : option jsstring
}.

Definition initial : State :=
  {| selectedFile := None; dragActive := false; accessAddresses := [[]];
     mintType := public; mintedTokenId := None; pieceCid := None |}.

Definition handleFileSelect (files : option (list File)) (s : State)
  : State * list jsstring :=
  match files with
  | Some (file :: _) =>
      if file_size file >? 100 * 1024 * 1024
      then (s, [lit "File size must be less than 100MB"])
      else ({| selectedFile := Some file; dragActive := dragActive s;
               accessAddresses := accessAddresses s; mintType := mintType s;
               mintedTokenId := None; pieceCid := None |}, [])
  | _ => (s, [])
  end.

Definition setMintType (m : MintType) (s : State) : State :=
  {| selectedFile := selectedFile s; dragActive := dragActive s;
     accessAddresses := accessAddresses s; mintType := m;
     mintedTokenId := mintedTokenId s; pieceCid := pieceCid s |}.

Definition setPieceCid (c : option jsstring) (s : State) : State :=
  {| selectedFile := selectedFile s; dragActive := dragActive s;
     accessAddresses := accessAddresses s; mintType := mintType s;
     mintedTokenId := mintedTokenId s; pieceCid := c |}.

Definition setMintedTokenId (t : option jsstring) (s : State) : State :=
  {| selectedFile := selectedFile s; dragActive := dragActive s;
     accessAddresses := accessAddresses s; mintType := mintType s;
     mintedTokenId := t; pieceCid := pieceCid s |}.

(** What one run of the handler did: the final component state, the contract
    writes it sent, the [onSuccess] calls and the number of calls of
    [resetEncryptAndUploadFile]. *)
Record Outcome := {
  final : State;
  writes : list WriteCall;
  successes : list (jsstring * jsstring);
  resets : nat
}.

Section Handler.
(** The connected wallet, the encrypt-and-upload mutation and the contract
    write of [useScaffoldWriteContract("LitEncryptedNFT")]. *)
Variable address : option jsstring.
Variable encryptAndUploadFile : File -> Z -> result jsstring.
Variable mintNFT : WriteCall -> result unit.

Definition handleEncryptUploadAndMint (s : State) : Outcome :=
  match selectedFile s, address with
  | Some file, Some (_ :: _) =>
      match encryptAndUploadFile file 1 with
      | Err _ => {| final := s; writes := []; successes := []; resets := 1 |}
      | Ok cid =>
          let s1 := setPieceCid (Some cid) s in
          let call := {| functionName := lit "mintPrivate";
                         args := [AString cid; AAddressArray (accessAddresses s)] |} in
          match mintNFT call with
          | Err _ => {| final := s1; writes := [call]; successes := []; resets := 1 |}
          | Ok _ =>
              {| final := setMintedTokenId (Some (lit "1")) s1;
                 writes := [call];
                 successes := [(lit "1", cid)];
                 resets := 1 |}
          end
      end
  | _, _ => {| final := s; writes := []; successes := []; resets := 0 |}
  end.

End Handler.

(** [xs.filter((_, i) => keep(i))], from index [i]. *)
Fixpoint filter_by_index {A} (keep : nat -> bool) (i : nat) (xs : list A)
  : list A :=
  match xs with
  | [] => []
  | x :: r =>
      if keep i then x :: filter_by_index keep (S i) r
      else filter_by_index keep (S i) r
  end.

Definition setAccessAddresses (l : list jsstring) (s : State) : State :=
  {| selectedFile := selectedFile s; dragActive := dragActive s;
     accessAddresses := l; mintType := mintType s;
     mintedTokenId := mintedTokenId s; pieceCid := pieceCid s |}.

Definition addAccessAddress (s : State) : State :=
  setAccessAddresses (accessAddresses s ++ [[]]) s.

Definition removeAccessAddress (index : nat) (s : State) : State :=
  setAccessAddresses
    (filter_by_index (fun i => negb (Nat.eqb i index)) 0 (accessAddresses s)) s.

(** The addresses that count as entered: [addr.trim() !== ""]. *)
Definition enteredAddresses (s : State) : list jsstring :=
  List.filter (fun addr => negb (str_eqb (trim addr) [])) (accessAddresses s).

(** The [disabled] attribute of the "Encrypt & Mint NFT" button. *)
Definition mintDisabled (address : option jsstring) (s : State) : bool :=
  negb (truthy (match address with Some a => a | None => [] end))
  || (match mintType s with
      | private => bool_decide (length (enteredAddresses s) = 0%nat)
      | public => false
      end).

End EncryptedNFTMinter.

Module NFTMinter.

Record State := {
  selectedFile : option File;
  dragActive : bool;
  mintedTokenId : bool;
  pieceCid : option jsstring
}.

Definition handleFileSelect (files : option (list File)) (s : State)
  : State * list jsstring :=
  match files with
  | Some (file :: _) =>
      if file_size file >? 100 * 1024 * 1024
      then (s, [lit "File size must be less than 100MB"])
      else ({| selectedFile := Some file; dragActive := dragActive s;
               mintedTokenId := false; pieceCid := None |}, [])
  | _ => (s, [])
  end.

Section Handler.
Variable address : option jsstring.
Variable uploadPieceCid : File -> result jsstring.
Variable mintNFT : WriteCall -> result unit.

(** [handleUploadAndMint]: the final state and the contract writes sent. *)
Definition handleUploadAndMint (s : State) : State * list WriteCall :=
  match selectedFile s, address with
  | Some file, Some (_ :: _) =>
      match uploadPieceCid file with
      | Err _ => (s, [])
      | Ok [] => (s, [])
      | Ok uploadResult =>
          let s1 := {| selectedFile := selectedFile s; dragActive := dragActive s;
                       mintedTokenId := mintedTokenId s;
                       pieceCid := Some uploadResult |} in
          let call := {| functionName := lit "mint";
                         args := [AString uploadResult] |} in
          match mintNFT call with
          | Err _ => (s1, [call])
          | Ok _ =>
              ({| selectedFile := selectedFile s1; dragActive := dragActive s1;
                  mintedTokenId := true; pieceCid := pieceCid s1 |}, [call])
          end
      end
  | _, _ => (s, [])
  end.

End Handler.

End NFTMinter.

(* ===================================================================== *)
(** * Dataset enrichment ([useDatasets])                                  *)
(* ===================================================================== *)

Module Datasets.

Section Types.
(** The fields of the SDK's records that the hook does not read. *)
Variables (DataSetRest ProviderRest PDPData : Type).

Record EnhancedDataSetInfo := {
  providerId : Z;
  payee : jsstring;
  pdpVerifierDataSetId : Z;
  dataset_rest : DataSetRest
}.

(** [provider_serviceURL] is [products.PDP?.data.serviceURL]. *)
Record ProviderInfo := {
  provider_id : Z;
  provider_serviceURL : option jsstring;
  provider_rest : ProviderRest
}.

(** The merged object [{...dataset, provider, serviceURL, data}]: the spread
    copies the dataset, [provider] and [serviceURL] may hold [undefined], and
    [data] is absent on the fallback path. *)
Record DataSet := {
  base : EnhancedDataSetInfo;
  provider : option ProviderInfo;
  serviceURL : option jsstring;
  data : option PDPData
}.

(** The calls the query function makes.  [providers_settle_first] says
    which of the two requests of step 3 settles first. *)
Record SDK := {
  signer : bool;
  address : option jsstring;
  Synapse_create : result unit;
  WarmStorageService_create : result unit;
  getApprovedProviderIds : result (list Z);
  getClientDataSetsWithDetails : result (list EnhancedDataSetInfo);
  providers_settle_first : bool;
  getProviderInfo : Z -> result ProviderInfo;
  getDataSet : jsstring -> Z -> result PDPData
}.

Variable sdk : SDK.

(** [Promise.all([a, b])]: fulfils with both values, and rejects with the
    rejection that comes first in time; [a_first] says that [a] settles
    before [b]. *)
Definition Promise_all2 {A B} (a_first : bool) (a : result A) (b : result B)
  : result (A * B) :=
  match a, b with
  | Ok x, Ok y => Ok (x, y)
  | Err e, Ok _ => Err e
  | Ok _, Err e => Err e
  | Err ea, Err eb => Err (if a_first then ea else eb)
  end.

(** Step 4. *)
Definition providerIdToAddressMap (datasets : list EnhancedDataSetInfo)
  : gmap Z jsstring :=
  fold_left (fun acc dataset => <[providerId dataset := payee dataset]> acc)
            datasets ∅.

(** Step 5, one provider: [null] is [None]. *)
Definition fetchProvider (addresses : gmap Z jsstring) (pid : Z)
  : option ProviderInfo :=
  match addresses !! pid with
  | Some (_ :: _) =>
      match getProviderInfo sdk pid with
      | Ok p => Some p
      | Err _ => None
      end
  | _ => None
  end.

Definition filteredProviders (addresses : gmap Z jsstring) (providerIds : list Z)
  : list ProviderInfo :=
  omap (fetchProvider addresses) providerIds.

(** [x || ""] on a possibly undefined string. *)
Definition or_empty (x : option jsstring) : jsstring :=
  match x with
  | Some (c :: r) => c :: r
  | _ => []
  end.

(** Step 6. *)
Definition providerIdToServiceUrlMap (providers : list ProviderInfo)
  : gmap Z jsstring :=
  fold_left (fun acc p => <[provider_id p := or_empty (provider_serviceURL p)]> acc)
            providers ∅.

(** Step 7, one dataset. *)
Definition datasetDetails (providers : list ProviderInfo)
  (urls : gmap Z jsstring) (dataset : EnhancedDataSetInfo) : DataSet :=
  let serviceURL := urls !! providerId dataset in
  let provider :=
    Array_find (fun p => provider_id p =? providerId dataset) providers in
  match getDataSet sdk (or_empty serviceURL) (pdpVerifierDataSetId dataset) with
  | Ok d =>
      {| base := dataset; provider := provider; serviceURL := serviceURL;
         data := Some d |}
  | Err _ =>
      {| base := dataset; provider := provider; serviceURL := serviceURL;
         data := None |}
  end.

(** Step 9. *)
Definition datasetsWithDetails (datasets : list EnhancedDataSetInfo)
  (results : list DataSet) : list (option DataSet) :=
  map (fun dataset =>
         Array_find (fun r => pdpVerifierDataSetId (base r)
                              =? pdpVerifierDataSetId dataset) results)
      datasets.

Definition queryFn : result (list (option DataSet)) :=
  if negb (signer sdk) then Err (lit "Signer not found")
  else if negb (truthy (or_empty (address sdk))) then Err (lit "Address not found")
  else
    await _ := Synapse_create sdk in
    await _ := WarmStorageService_create sdk in
    await (providerIds, datasets) :=
        Promise_all2 (providers_settle_first sdk)
                     (getApprovedProviderIds sdk)
                     (getClientDataSetsWithDetails sdk) in
    let addresses := providerIdToAddressMap datasets in
    let providers := filteredProviders addresses providerIds in
    let urls := providerIdToServiceUrlMap providers in
    let datasetDataResults := map (datasetDetails providers urls) datasets in
    Ok (datasetsWithDetails datasets datasetDataResults).

(** The claim of the specification's error-handling section, read on this
    function: a failing provider or dataset-detail fetch makes the whole
    query fail with that error. *)
Definition fails_as_a_whole : Prop :=
  forall providerIds datasets,
    getApprovedProviderIds sdk = Ok providerIds ->
    getClientDataSetsWithDetails sdk = Ok datasets ->
    forall e,
      (exists pid, pid ∈ providerIds /\ getProviderInfo sdk pid = Err e) \/
      (exists d url, d ∈ datasets /\
                     getDataSet sdk url (pdpVerifierDataSetId d) = Err e) ->
      queryFn = Err e.

End Types.

Arguments providerId {_} _.
Arguments payee {_} _.
Arguments pdpVerifierDataSetId {_} _.
Arguments dataset_rest {_} _.
Arguments provider_id {_} _.
Arguments provider_serviceURL {_} _.
Arguments base {_ _ _} _.
Arguments provider {_ _ _} _.
Arguments serviceURL {_ _ _} _.
Arguments data {_ _ _} _.
Arguments signer {_ _ _} _.
Arguments address {_ _ _} _.
Arguments Synapse_create {_ _ _} _.
Arguments WarmStorageService_create {_ _ _} _.
Arguments getApprovedProviderIds {_ _ _} _.
Arguments getClientDataSetsWithDetails {_ _ _} _.
Arguments getProviderInfo {_ _ _} _.
Arguments getDataSet {_ _ _} _.
Arguments queryFn {_ _ _} _.
Arguments fails_as_a_whole {_ _ _} _.
Arguments datasetDetails {_ _ _} _ _ _ _.
Arguments filteredProviders {_ _ _} _ _ _.
Arguments providerIdToServiceUrlMap {_} _.
Arguments providerIdToAddressMap {_} _.
Arguments datasetsWithDetails {_ _ _} _ _.

End Datasets.

(* ===================================================================== *)
(** * The NFT contract ([NFTContract.sol])                                *)
(* ===================================================================== *)

Module NFTContract.

Definition MAX_UINT256 : Z := 2 ^ 256 - 1.

(** Storage of the contract: its own two variables and the two mappings of
    the ERC721 base contract.  An address is a [Z], [0] the zero address; a
    mapping reads its default at a key never written. *)
Record State := {
  _tokenIdCounter : Z;
  _tokenURIs : gmap Z string;
  _owners : gmap Z Z;
  _balances : gmap Z Z
}.

Definition constructor : State :=
  {| _tokenIdCounter := 0; _tokenURIs := ∅; _owners := ∅; _balances := ∅ |}.

Definition _ownerOf (s : State) (tokenId : Z) : Z :=
  default 0 (_owners s !! tokenId).

(** The mapping read [_balances[owner]]. *)
Definition _balance (s : State) (owner : Z) : Z :=
  default 0 (_balances s !! owner).

(** [ERC721.balanceOf] of the same base contract: reverts for the zero
    address. *)
Definition balanceOf (s : State) (owner : Z) : option Z :=
  if owner =? 0 then None else Some (_balance s owner).

(** [ERC721._mint] of the imported OpenZeppelin base contract, which is not
    part of this repository: it reverts for the zero address and for a token
    that already has an owner, otherwise it records the owner and counts the
    token in the owner's balance. *)
Definition _mint (to tokenId : Z) (s : State) : option State :=
  if to =? 0 then None
  else if negb (_ownerOf s tokenId =? 0) then None
  else Some {| _tokenIdCounter := _tokenIdCounter s;
               _tokenURIs := _tokenURIs s;
               _owners := <[tokenId := to]> (_owners s);
               _balances := <[to := _balance s to + 1]> (_balances s) |}.

(** [ERC721.ownerOf]: reverts for a token without owner. *)
Definition ownerOf (s : State) (tokenId : Z) : option Z :=
  if _ownerOf s tokenId =? 0 then None else Some (_ownerOf s tokenId).

(** [mint(storacha_cid)] sent by [msg_sender]; [None] is a revert, which
    leaves the storage as it was. *)
Definition mint (msg_sender : Z) (storacha_cid : string) (s : State)
  : option State :=
  if _tokenIdCounter s =? MAX_UINT256 then None
  else
    let s1 := {| _tokenIdCounter := _tokenIdCounter s + 1;
                 _tokenURIs := _tokenURIs s;
                 _owners := _owners s;
                 _balances := _balances s |} in
    let tokenId := _tokenIdCounter s1 in
    match _mint msg_sender tokenId s1 with
    | None => None
    | Some s2 =>
        Some {| _tokenIdCounter := _tokenIdCounter s2;
                _tokenURIs := <[tokenId := storacha_cid]> (_tokenURIs s2);
                _owners := _owners s2;
                _balances := _balances s2 |}
    end.

Definition tokenURI (s : State) (tokenId : Z) : string :=
  default EmptyString (_tokenURIs s !! tokenId).

Definition getTotalSupply (s : State) : Z := _tokenIdCounter s.

(** The [for] loop of [getAllTokensDetails], from index [i]. *)
Fixpoint fill_tokenURIs (fuel : nat) (i totalSupply : Z) (s : State)
  (tokenURIs : list string) : list string :=
  match fuel with
  | O => tokenURIs
  | S f =>
      if i <? totalSupply
      then fill_tokenURIs f (i + 1) totalSupply s
             (<[Z.to_nat i := tokenURI s (i + 1)]> tokenURIs)
      else tokenURIs
  end.

Definition getAllTokensDetails (s : State) : list string :=
  let totalSupply := getTotalSupply s in
  let tokenURIs := replicate (Z.to_nat totalSupply) EmptyString in
  fill_tokenURIs (Z.to_nat totalSupply) 0 totalSupply s tokenURIs.

(** A sequence of [mint] transactions, each a sender and a CID, in order. *)
Fixpoint mints (calls : list (Z * string)) (s : State) : option State :=
  match calls with
  | [] => Some s
  | (sender, cid) :: rest =>
      match mint sender cid s with
      | None => None
      | Some s' => mints rest s'
      end
  end.

(** What the storage holds after the transactions [calls], in order. *)
Record minted (calls : list (Z * string)) (s : State) : Prop := {
  minted_counter : _tokenIdCounter s = Z.of_nat (length calls);
  minted_token : forall (i : nat) sender cid,
    calls !! i = Some (sender, cid) ->
    _owners s !! (Z.of_nat i + 1) = Some sender /\
    _tokenURIs s !! (Z.of_nat i + 1) = Some cid;
  minted_fresh : forall k, Z.of_nat (length calls) < k -> _owners s !! k = None
}.

End NFTContract.

(* ===================================================================== *)
(** * Challenge progress ([useChallengeVerification.ts])                  *)
(* ===================================================================== *)

Module Progress.

(** A [localStorage] item holds the JSON text of a value; the model keeps
    the value the text denotes. *)
Inductive Stored :=
| SProgress (p : WorkshopProgress)
| SAttempts (l : list ChallengeAttempt)
| SString (s : jsstring)
| SNull.

(** The browser: whether [window] is defined, and whether
    [localStorage.setItem] throws (the message of the error) for a store, a
    key and a value. *)
Record Env := {
  hasWindow : bool;
  setItem_error : gmap jsstring Stored -> jsstring -> Stored -> option jsstring
}.

(** [JSON.stringify] and the cast of [JSON.parse] at a type [T]. *)
Record Codec (T : Type) := {
  stringify : T -> Stored;
  parse : Stored -> option T
}.
Arguments stringify {T} _ _.
Arguments parse {T} _ _.

Definition progressCodec : Codec WorkshopProgress :=
  {| stringify := SProgress;
     parse := fun v => match v with SProgress p => Some p | _ => None end |}.

Definition attemptsCodec : Codec (list ChallengeAttempt) :=
  {| stringify := SAttempts;
     parse := fun v => match v with SAttempts l => Some l | _ => None end |}.

Definition transactionCodec : Codec (option jsstring) :=
  {| stringify := fun t => match t with Some s => SString s | None => SNull end;
     parse := fun v => match v with
                       | SString s => Some (Some s)
                       | SNull => Some None
                       | _ => None
                       end |}.

Record StorageUtil (T : Type) := {
  get : gmap jsstring Stored -> T;
  set : T -> gmap jsstring Stored -> result (gmap jsstring Stored);
  remove : gmap jsstring Stored -> gmap jsstring Stored
}.
Arguments get {T} _ _.
Arguments set {T} _ _ _.
Arguments remove {T} _ _.

(** [createStorageUtil(key, defaultValue)].  [get] never throws; [set]
    rethrows a failure of [setItem] as a [WorkshopError]; [remove] never
    throws.  The store holds the items that this hook writes, each read back
    at the type it was written at.  The older [ChallengeSuccess] component
    pushes number ids into the record under the same progress key, which
    [get] would hand on unchecked; that writer is not part of [Stored]. *)
Definition createStorageUtil {T} (codec : Codec T) (env : Env)
  (key : jsstring) (defaultValue : T) : StorageUtil T :=
  {| get := fun ls =>
       if negb (hasWindow env) then defaultValue
       else match ls !! key with
            | Some item => default defaultValue (parse codec item)
            | None => defaultValue
            end;
     set := fun value ls =>
       if negb (hasWindow env) then Ok ls
       else match setItem_error env ls key (stringify codec value) with
            | None => Ok (<[key := stringify codec value]> ls)
            | Some message => Err (lit "Failed to save progress: " ++ message)
            end;
     remove := fun ls =>
       if negb (hasWindow env) then ls else delete key ls |}.

(** The default progress; [loaded] is the reading of [Date.now()] when the
    module was loaded. *)
Definition defaultProgress (loaded : Z) : WorkshopProgress :=
  {| completedChallenges := []; lastUpdated := 0;
     version := WORKSHOP_CONFIG.PROGRESS_VERSION; participantId := None;
     sessionStarted := loaded; timeSpent := 0 |}.

Definition progressStorage (env : Env) (loaded : Z) : StorageUtil WorkshopProgress :=
  createStorageUtil progressCodec env WORKSHOP_CONFIG.PROGRESS_STORAGE_KEY
                    (defaultProgress loaded).

Definition attemptsStorage (env : Env) : StorageUtil (list ChallengeAttempt) :=
  createStorageUtil attemptsCodec env
                    (WORKSHOP_CONFIG.PROGRESS_STORAGE_KEY ++ lit "-attempts") [].

Definition transactionKey (challengeId : ChallengeType) : jsstring :=
  lit "challenge-" ++ ChallengeType_value challengeId ++ lit "-tx".

Definition getTransactionStorage (env : Env) (challengeId : ChallengeType)
  : StorageUtil (option jsstring) :=
  createStorageUtil transactionCodec env (transactionKey challengeId) None.

Record ChallengeVerificationState := {
  progress : WorkshopProgress;
  attempts : list ChallengeAttempt;
  isLoading : bool;
  isSaving : bool;
  error : option jsstring
}.

(** [RESET_PROGRESS] carries the two readings of [Date.now()] that the
    reducer takes while handling it. *)
Inductive ChallengeVerificationAction :=
| LOAD_COMPLETE (p : WorkshopProgress) (a : list ChallengeAttempt)
| START_SAVE
| SAVE_COMPLETE (p : WorkshopProgress)
| RECORD_ATTEMPT (a : ChallengeAttempt)
| SET_ERROR (e : jsstring)
| CLEAR_ERROR
| RESET_PROGRESS (now1 now2 : Z).

Definition challengeVerificationReducer (state : ChallengeVerificationState)
  (action : ChallengeVerificationAction) : ChallengeVerificationState :=
  match action with
  | LOAD_COMPLETE p a =>
      {| progress := p; attempts := a; isLoading := false;
         isSaving := isSaving state; error := None |}
  | START_SAVE =>
      {| progress := progress state; attempts := attempts state;
         isLoading := isLoading state; isSaving := true; error := None |}
  | SAVE_COMPLETE p =>
      {| progress := p; attempts := attempts state;
         isLoading := isLoading state; isSaving := false; error := None |}
  | RECORD_ATTEMPT a =>
      {| progress := progress state; attempts := attempts state ++ [a];
         isLoading := isLoading state; isSaving := isSaving state;
         error := error state |}
  | SET_ERROR e =>
      {| progress := progress state; attempts := attempts state;
         isLoading := false; isSaving := false; error := Some e |}
  | CLEAR_ERROR =>
      {| progress := progress state; attempts := attempts state;
         isLoading := isLoading state; isSaving := isSaving state;
         error := None |}
  | RESET_PROGRESS now1 now2 =>
      {| progress := {| completedChallenges := []; lastUpdated := now1;
                        version := WORKSHOP_CONFIG.PROGRESS_VERSION;
                        participantId := None;
                        sessionStarted := now2; timeSpent := 0 |};
         attempts := []; isLoading := isLoading state; isSaving := false;
         error := None |}
  end.

(** The hook instance and the browser store it persists to. *)
Record System := {
  hook : ChallengeVerificationState;
  localStorage : gmap jsstring Stored
}.

Definition dispatch (a : ChallengeVerificationAction) (sys : System) : System :=
  {| hook := challengeVerificationReducer (hook sys) a;
     localStorage := localStorage sys |}.

Definition with_storage (ls : gmap jsstring Stored) (sys : System) : System :=
  {| hook := hook sys; localStorage := ls |}.

(** The initial reducer state of [useReducer]; [now] is [Date.now()]. *)
Definition initialState (now : Z) : ChallengeVerificationState :=
  {| progress := defaultProgress now; attempts := []; isLoading := true;
     isSaving := false; error := None |}.

(** The mount effect: load progress and attempts, then [LOAD_COMPLETE]. *)
Definition loadEffect (env : Env) (loaded : Z) (sys : System) : System :=
  let p := get (progressStorage env loaded) (localStorage sys) in
  let a := get (attemptsStorage env) (localStorage sys) in
  dispatch (LOAD_COMPLETE p a) sys.

(** [completeChallenge(challengeId, transactionHash)].  [captured] is the
    [state.progress] the callback closed over, [now1] and [now2] are its two
    readings of [Date.now()].  The result is the system afterwards and
    whether the returned promise resolved or rejected. *)
Definition completeChallenge (env : Env) (loaded : Z)
  (captured : WorkshopProgress) (challengeId : ChallengeType)
  (transactionHash : option jsstring) (now1 now2 : Z) (sys : System)
  : System * result unit :=
  let sys1 := dispatch START_SAVE sys in
  let updatedProgress :=
    {| completedChallenges :=
         if Array_includes (completedChallenges captured) challengeId
         then completedChallenges captured
         else completedChallenges captured ++ [challengeId];
       lastUpdated := now1;
       version := version captured;
       participantId := participantId captured;
       sessionStarted := sessionStarted captured;
       timeSpent := timeSpent captured + (now2 - sessionStarted captured) |} in
  match set (progressStorage env loaded) updatedProgress (localStorage sys1) with
  | Err message => (dispatch (SET_ERROR message) sys1, Err message)
  | Ok ls1 =>
      let sys2 := with_storage ls1 sys1 in
      let saved :=
        match transactionHash with
        | Some (c :: r) =>
            set (getTransactionStorage env challengeId) (Some (c :: r)) ls1
        | _ => Ok ls1
        end in
      match saved with
      | Err message => (dispatch (SET_ERROR message) sys2, Err message)
      | Ok ls2 =>
          (dispatch (SAVE_COMPLETE updatedProgress) (with_storage ls2 sys2),
           Ok tt)
      end
  end.

(** [resetProgress()]; [now1] and [now2] are the reducer's clock readings. *)
Definition resetProgress (env : Env) (loaded : Z) (now1 now2 : Z) (sys : System)
  : System :=
  let sys1 := dispatch START_SAVE sys in
  let ls1 := remove (progressStorage env loaded) (localStorage sys1) in
  let ls2 := remove (attemptsStorage env) ls1 in
  let ls3 := fold_left (fun ls challengeId =>
                          remove (getTransactionStorage env challengeId) ls)
                       ChallengeType_values ls2 in
  dispatch (RESET_PROGRESS now1 now2) (with_storage ls3 sys1).

(** [getChallengeStatus(challengeId)] of the current render; the
    transaction hash is read from the store when it is called. *)
Definition getChallengeStatus (env : Env) (sys : System)
  (challengeId : ChallengeType) : ChallengeStatus :=
  let done := completedChallenges (progress (hook sys)) in
  if Array_includes done challengeId then
    Completed (lastUpdated (progress (hook sys)))
              (match get (getTransactionStorage env challengeId)
                         (localStorage sys) with
               | Some (c :: r) => c :: r
               | _ => []
               end)
  else
    match Array_find (fun c => bool_decide (id c = challengeId))
                     WORKSHOP_CHALLENGES with
    | Some challenge =>
        if bool_decide (0 < length (prerequisites challenge))%nat
           && existsb (fun prereq => negb (Array_includes done prereq))
                      (prerequisites challenge)
        then Locked (Array_find (fun prereq => negb (Array_includes done prereq))
                                (prerequisites challenge))
        else NotStarted
    | None => NotStarted
    end.

Definition isChallengeUnlocked (env : Env) (sys : System)
  (challengeId : ChallengeType) : bool :=
  match getChallengeStatus env sys challengeId with
  | Locked _ => false
  | _ => true
  end.

(** [validateFlag(challengeId, flag)].  [captured] is the [state.attempts]
    the callback closed over; [startTime], [now1] and [now2] are its
    readings of [Date.now()].  The [metadata] of an attempt (the first ten
    units of the flag) is not a field of [ChallengeAttempt] here. *)
Definition validateFlag (env : Env) (captured : list ChallengeAttempt)
  (challengeId : ChallengeType) (flag : jsstring) (startTime now1 now2 : Z)
  (sys : System) : System * FlagValidationResult :=
  let sys1 := dispatch CLEAR_ERROR sys in
  let result := Flags.validateChallengeFlag challengeId flag in
  let attempt :=
    {| attempt_challengeId := challengeId;
       attempt_timestamp := startTime;
       attempt_success := valid result;
       attempt_error := match result with
                        | Valid _ _ => None
                        | Invalid e _ => Some e
                        end;
       attempt_duration := now1 - startTime |} in
  let sys2 := dispatch (RECORD_ATTEMPT attempt) sys1 in
  match set (attemptsStorage env) (captured ++ [attempt]) (localStorage sys2) with
  | Ok ls => (with_storage ls sys2, result)
  | Err message =>
      let failedAttempt :=
        {| attempt_challengeId := challengeId;
           attempt_timestamp := startTime;
           attempt_success := false;
           attempt_error := Some message;
           attempt_duration := now2 - startTime |} in
      (dispatch (RECORD_ATTEMPT failedAttempt) sys2,
       Invalid message
               (Some (lit "Please try again or check the challenge instructions")))
  end.

(** A new hook instance over the store of [sys]. *)
Definition mount (now : Z) (sys : System) : System :=
  {| hook := initialState now; localStorage := localStorage sys |}.

(** The challenge that has to be completed first, as the challenge table has
    it. *)
Definition predecessor (c : ChallengeType) : option ChallengeType :=
  match c with
  | TREASURY_MASTER => None
  | STORAGE_SENTINEL => Some TREASURY_MASTER
  | DATA_GUARDIAN => Some STORAGE_SENTINEL
  | NFT_ARCHITECT => Some DATA_GUARDIAN
  | DECRYPTION_EXPERT => Some NFT_ARCHITECT
  end.

(** The invariant of the hook: the list in memory has no duplicates, and
    neither has a progress record in the store. *)
Definition stored_distinct (ls : gmap jsstring Stored) : Prop :=
  forall p, ls !! WORKSHOP_CONFIG.PROGRESS_STORAGE_KEY = Some (SProgress p) ->
            NoDup (completedChallenges p).

Definition distinct (sys : System) : Prop :=
  NoDup (completedChallenges (progress (hook sys))) /\
  stored_distinct (localStorage sys).

End Progress.

(* ===================================================================== *)
(** * The enhanced upload hook ([useFileUploadEnhanced])                  *)
(* ===================================================================== *)

Module Upload.

(** A [File] comes with what [input.arrayBuffer()] settles to: the bytes,
    which nothing here reads, or the message of the error it rejects
    with. *)
Inductive FileInput :=
| InFile (f : File) (arrayBuffer : result unit)
| InUint8Array (byteLength : Z)
| InArrayBuffer (byteLength : Z).

Record FileData := {
  fileName : jsstring;
  size : Z;
  type : jsstring
}.

(** An optional property of an object: the key is missing, or it is there
    and holds [undefined] or a value. *)
Inductive Property (A : Type) :=
| Missing
| Undefined
| Value (v : A).
Arguments Missing {A}.
Arguments Undefined {A}.
Arguments Value {A} v.

(** Reading the property: [undefined] unless it holds a value. *)
Definition read {A} (p : Property A) : option A :=
  match p with
  | Value v => Some v
  | _ => None
  end.

(** One property of the object spread [{ ...a, ...b }]: the one of [b]
    whenever [b] has the key, also when it holds [undefined]. *)
Definition spread {A} (a b : Property A) : Property A :=
  match b with
  | Missing => a
  | _ => b
  end.

Record UploadConfig := {
  maxFileSize : Property Z;
  allowedTypes : Property (list jsstring)
}.

(** The default [{}] of a missing argument. *)
Definition noConfig : UploadConfig :=
  {| maxFileSize := Missing; allowedTypes := Missing |}.

(** [{ ...defaultConfig, ...config }]. *)
Definition mergeConfig (defaultConfig config : UploadConfig) : UploadConfig :=
  {| maxFileSize := spread (maxFileSize defaultConfig) (maxFileSize config);
     allowedTypes := spread (allowedTypes defaultConfig) (allowedTypes config) |}.

(** [convertFileInput]: for a [File] it awaits [input.arrayBuffer()] and
    rejects when that rejects. *)
Definition convertFileInput (input : FileInput) : result FileData :=
  match input with
  | InFile f arrayBuffer =>
      await _ := arrayBuffer in
      Ok {| fileName := file_name f; size := file_size f;
            type := file_type f |}
  | InArrayBuffer n => Ok {| fileName := lit "upload.bin"; size := n;
                             type := lit "application/octet-stream" |}
  | InUint8Array n => Ok {| fileName := lit "upload.bin"; size := n;
                            type := lit "application/octet-stream" |}
  end.

Inductive ValidationError := TooLarge | TypeNotAllowed | EmptyFile.

(** [validateFileInternal]; an error stands for its message.  [type_matches]
    is the test of one allowed type against the file's type (a literal
    comparison, or the regular expression built from a pattern with a star). *)
Definition validateFileInternal (type_matches : jsstring -> jsstring -> bool)
  (file : FileData) (config : UploadConfig) : list ValidationError :=
  let maxSize := default (100 * 1024 * 1024) (read (maxFileSize config)) in
  (if size file >? maxSize then [TooLarge] else [])
  ++ (match read (allowedTypes config) with
      | Some (t :: ts) =>
          if existsb (fun allowedType => type_matches allowedType (type file))
                     (t :: ts)
          then [] else [TypeNotAllowed]
      | _ => []
      end)
  ++ (if size file =? 0 then [EmptyFile] else []).

Inductive FileStorageStatus :=
| IDLE | UPLOADING | PROCESSING | ENCRYPTING | STORING | COMPLETED | FAILED.

Record FileStorageResult := {
  success : bool;
  cid : jsstring;
  transactionHash : jsstring;
  status : FileStorageStatus;
  fileSize : Z
}.

(** [ReadFailed] is the error that [input.arrayBuffer()] rejected with. *)
Inductive ErrorMessage :=
| FileValidationFailed (errors : list ValidationError)
| UploadCancelled
| UploadCancelledByUser
| ReadFailed (message : jsstring).

Inductive UploadProgressState :=
| idle
| converting (progress : Z)
| initializing (progress : Z)
| uploading (progress : Z) (fileName : jsstring) (size : Z)
| processing (progress : Z) (pieceCid : jsstring)
| confirming (progress : Z) (pieceCid : jsstring)
| completed (result : FileStorageResult)
| failed (progress : Z) (error : ErrorMessage) (fileName : option jsstring).

Definition progress_of (p : UploadProgressState) : Z :=
  match p with
  | idle => 0
  | converting n | initializing n | uploading n _ _ | processing n _
  | confirming n _ | failed n _ _ => n
  | completed _ => 100
  end.

Definition is_completed (p : UploadProgressState) : bool :=
  match p with completed _ => true | _ => false end.

(** The hook instance.  [controllers] is the heap of [AbortController]
    objects, each with its [signal.aborted] flag; [cancelTokenRef] holds the
    address of one of them or [null].  [recorded] lists the [success] flags
    passed to [recordAttempt]. *)
Record Hook := {
  progressState : UploadProgressState;
  cancelTokenRef : option nat;
  controllers : list bool;
  recorded : list bool
}.

Definition initial : Hook :=
  {| progressState := idle; cancelTokenRef := None; controllers := [];
     recorded := [] |}.

Definition setProgressState (p : UploadProgressState) (h : Hook) : Hook :=
  {| progressState := p; cancelTokenRef := cancelTokenRef h;
     controllers := controllers h; recorded := recorded h |}.

Definition setCancelTokenRef (r : option nat) (h : Hook) : Hook :=
  {| progressState := progressState h; cancelTokenRef := r;
     controllers := controllers h; recorded := recorded h |}.

(** [new AbortController()]. *)
Definition newAbortController (h : Hook) : nat * Hook :=
  (length (controllers h),
   {| progressState := progressState h; cancelTokenRef := cancelTokenRef h;
      controllers := controllers h ++ [false]; recorded := recorded h |}).

(** [controller.abort()]. *)
Definition abort (a : nat) (h : Hook) : Hook :=
  {| progressState := progressState h; cancelTokenRef := cancelTokenRef h;
     controllers := <[a := true]> (controllers h); recorded := recorded h |}.

Definition recordAttempt (ok : bool) (h : Hook) : Hook :=
  {| progressState := progressState h; cancelTokenRef := cancelTokenRef h;
     controllers := controllers h; recorded := recorded h ++ [ok] |}.

(** [cancelTokenRef.current?.signal.aborted]: [undefined], so falsy, when
    the reference is [null]. *)
Definition signal_aborted (h : Hook) : bool :=
  match cancelTokenRef h with
  | Some a => default false (controllers h !! a)
  | None => false
  end.

(** [cancelUpload()], with the [progressState] of the current render. *)
Definition cancelUpload (h : Hook) : Hook :=
  let h1 :=
    match cancelTokenRef h with
    | Some a => setCancelTokenRef None (abort a h)
    | None => h
    end in
  setProgressState
    (failed (progress_of (progressState h)) UploadCancelledByUser
            (match progressState h with
             | uploading _ fileName _ => Some fileName
             | _ => None
             end))
    h1.

(** [resetUpload()]. *)
Definition resetUpload (h : Hook) : Hook :=
  let h1 :=
    match cancelTokenRef h with
    | Some a => setCancelTokenRef None (abort a h)
    | None => h
    end in
  setProgressState idle h1.

Definition canCancel (h : Hook) : bool :=
  match progressState h with
  | converting _ | initializing _ | uploading _ _ _ | processing _ _ => true
  | _ => false
  end.

(** Where a run of [mutationFn] is suspended: before its first statement, at
    the [await] of the conversion, at the 500 ms timer of the loop with the
    loop variable, at the 1000 ms timer, or finished. *)
Inductive Task :=
| Called
| AwaitConvert
| AwaitTick (progress : Z) (fileData : FileData)
| AwaitProcessing (fileData : FileData)
| Resolved (result : FileStorageResult)
| Rejected (error : ErrorMessage).

Section Mutation.
Variable type_matches : jsstring -> jsstring -> bool.
Variable defaultConfig : UploadConfig.
(** The arguments of the call and the [progressState] of the render the
    mutation function closed over. *)
Variable file : FileInput.
Variable config : UploadConfig.
Variable rendered : UploadProgressState.

(** The [catch] and [finally] blocks. *)
Definition catch_finally (error : ErrorMessage) (h : Hook) : Task * Hook :=
  let h1 := setProgressState
              (failed (progress_of rendered) error
                      (match file with
                       | InFile f _ => Some (file_name f)
                       | _ => None
                       end)) h in
  let h2 := recordAttempt false h1 in
  (Rejected error, setCancelTokenRef None h2).

(** The head of the [for] loop: test the condition, then the abort check,
    then suspend at the timer; past the loop, suspend at the second timer. *)
Definition loop_head (progress : Z) (fileData : FileData) (h : Hook)
  : Task * Hook :=
  if progress <? 80 then
    if signal_aborted h then catch_finally UploadCancelled h
    else (AwaitTick progress fileData, h)
  else
    (AwaitProcessing fileData,
     setProgressState (processing 80 (lit "QmExamplePieceCID123456789")) h).

(** One turn of the event loop for the mutation: run it from where it is
    suspended to its next [await] or to its end. *)
Definition resume (t : Task) (h : Hook) : Task * Hook :=
  match t with
  | Called => (AwaitConvert, setProgressState (converting 10) h)
  | AwaitConvert =>
      match convertFileInput file with
      | Err message => catch_finally (ReadFailed message) h
      | Ok fileData =>
          match validateFileInternal type_matches fileData
                                     (mergeConfig defaultConfig config) with
          | e :: es => catch_finally (FileValidationFailed (e :: es)) h
          | [] =>
              let '(a, h1) := newAbortController h in
              let h2 := setCancelTokenRef (Some a) h1 in
              let h3 := setProgressState (initializing 20) h2 in
              let h4 := setProgressState
                          (uploading 30 (fileName fileData) (size fileData))
                          h3 in
              loop_head 30 fileData h4
          end
      end
  | AwaitTick progress fileData =>
      let h1 := setProgressState
                  (uploading progress (fileName fileData) (size fileData)) h in
      loop_head (progress + 10) fileData h1
  | AwaitProcessing fileData =>
      let result := {| success := true;
                       cid := lit "QmExamplePieceCID123456789";
                       transactionHash := lit "0x" ++ repeat_unit 48 64;
                       status := COMPLETED;
                       fileSize := size fileData |} in
      let h1 := setProgressState (completed result) h in
      let h2 := recordAttempt true h1 in
      (Resolved result, setCancelTokenRef None h2)
  | Resolved r => (Resolved r, h)
  | Rejected e => (Rejected e, h)
  end.

(** What happens between two turns: the mutation is resumed, or the user
    presses cancel. *)
Inductive Event := Resume | Cancel.

Definition step (e : Event) (st : Task * Hook) : Task * Hook :=
  match e with
  | Resume => resume (fst st) (snd st)
  | Cancel => (fst st, cancelUpload (snd st))
  end.

Definition run (events : list Event) (st : Task * Hook) : Task * Hook :=
  fold_left (fun st e => step e st) events st.

End Mutation.

End Upload.

(* ===================================================================== *)
(** * The workshop context ([WorkshopContext])                            *)
(* ===================================================================== *)

Module WorkshopContext.

Inductive Theme := light | dark | system.

Record UI := {
  isLoading : bool;
  isSaving : bool;
  error : option jsstring;
  theme : Theme
}.

(** A challenge of the state: the table entry with its [status] field. *)
Record ChallengeEntry := {
  challenge : Challenge;
  status : ChallengeStatus
}.

Record WorkshopState := {
  progress : WorkshopProgress;
  challenges : list ChallengeEntry;
  currentChallenge : option ChallengeType;
  ui : UI;
  attempts : list ChallengeAttempt
}.

Inductive WorkshopAction :=
| LOAD_PROGRESS (p : WorkshopProgress)
| UPDATE_CHALLENGE_STATUS (challengeId : ChallengeType) (st : ChallengeStatus)
| NAVIGATE_TO_CHALLENGE (challengeId : ChallengeType)
| RECORD_ATTEMPT (a : ChallengeAttempt)
| SET_LOADING (b : bool)
| SET_ERROR (e : option jsstring)
| RESET_PROGRESS
| SET_THEME (t : Theme).

(** The [status] fields of [WORKSHOP_CHALLENGES]. *)
Definition tableStatus (c : ChallengeType) : ChallengeStatus :=
  match c with
  | TREASURY_MASTER => NotStarted
  | STORAGE_SENTINEL => Locked (Some TREASURY_MASTER)
  | DATA_GUARDIAN => Locked (Some STORAGE_SENTINEL)
  | NFT_ARCHITECT => Locked (Some DATA_GUARDIAN)
  | DECRYPTION_EXPERT => Locked (Some NFT_ARCHITECT)
  end.

(** [initialWorkshopState]; [loaded] is [Date.now()] at module load. *)
Definition initialProgress (loaded : Z) : WorkshopProgress :=
  {| completedChallenges := []; lastUpdated := 0;
     version := WORKSHOP_CONFIG.PROGRESS_VERSION; participantId := None;
     sessionStarted := loaded; timeSpent := 0 |}.

Definition initialWorkshopState (loaded : Z) : WorkshopState :=
  {| progress := initialProgress loaded;
     challenges := map (fun c => {| challenge := c; status := tableStatus (id c) |})
                       WORKSHOP_CHALLENGES;
     currentChallenge := None;
     ui := {| isLoading := false; isSaving := false; error := None;
              theme := system |};
     attempts := [] |}.

Definition workshopReducer (loaded : Z) (state : WorkshopState)
  (action : WorkshopAction) : WorkshopState :=
  match action with
  | LOAD_PROGRESS p =>
      {| progress := p; challenges := challenges state;
         currentChallenge := currentChallenge state;
         ui := {| isLoading := false; isSaving := isSaving (ui state);
                  error := None; theme := theme (ui state) |};
         attempts := attempts state |}
  | UPDATE_CHALLENGE_STATUS challengeId st =>
      {| progress := progress state;
         challenges :=
           map (fun entry =>
                  if bool_decide (id (challenge entry) = challengeId)
                  then {| challenge := challenge entry; status := st |}
                  else entry)
               (challenges state);
         currentChallenge := currentChallenge state;
         ui := {| isLoading := isLoading (ui state); isSaving := false;
                  error := error (ui state); theme := theme (ui state) |};
         attempts := attempts state |}
  | NAVIGATE_TO_CHALLENGE challengeId =>
      {| progress := progress state; challenges := challenges state;
         currentChallenge := Some challengeId;
         ui := {| isLoading := isLoading (ui state);
                  isSaving := isSaving (ui state);
                  error := None; theme := theme (ui state) |};
         attempts := attempts state |}
  | RECORD_ATTEMPT a =>
      {| progress := progress state; challenges := challenges state;
         currentChallenge := currentChallenge state; ui := ui state;
         attempts := attempts state ++ [a] |}
  | SET_LOADING b =>
      {| progress := progress state; challenges := challenges state;
         currentChallenge := currentChallenge state;
         ui := {| isLoading := b; isSaving := isSaving (ui state);
                  error := error (ui state); theme := theme (ui state) |};
         attempts := attempts state |}
  | SET_ERROR e =>
      {| progress := progress state; challenges := challenges state;
         currentChallenge := currentChallenge state;
         ui := {| isLoading := false; isSaving := false; error := e;
                  theme := theme (ui state) |};
         attempts := attempts state |}
  | RESET_PROGRESS =>
      {| progress := initialProgress loaded; challenges := challenges state;
         currentChallenge := currentChallenge state;
         ui := {| isLoading := isLoading (ui state); isSaving := false;
                  error := None; theme := theme (ui state) |};
         attempts := [] |}
  | SET_THEME t =>
      {| progress := progress state; challenges := challenges state;
         currentChallenge := currentChallenge state;
         ui := {| isLoading := isLoading (ui state);
                  isSaving := isSaving (ui state);
                  error := error (ui state); theme := t |};
         attempts := attempts state |}
  end.

(** [navigateToChallenge(challengeId)] with the [isChallengeUnlocked] of the
    verification hook. *)
Definition navigateToChallenge (loaded : Z)
  (isChallengeUnlocked : ChallengeType -> bool) (challengeId : ChallengeType)
  (state : WorkshopState) : WorkshopState :=
  match Array_find (fun c => bool_decide (id c = challengeId))
                   WORKSHOP_CHALLENGES with
  | None =>
      workshopReducer loaded state
        (SET_ERROR (Some (lit "Challenge not found: "
                          ++ ChallengeType_value challengeId)))
  | Some _ =>
      if negb (isChallengeUnlocked challengeId) then
        workshopReducer loaded state
          (SET_ERROR (Some (lit "Challenge " ++ ChallengeType_value challengeId
                            ++ lit " is locked. Complete prerequisites first.")))
      else workshopReducer loaded state (NAVIGATE_TO_CHALLENGE challengeId)
  end.

(** Two of the values [useWorkshopProgress] computes (its percentage is a
    floating-point quotient). *)
Definition remainingChallenges (p : WorkshopProgress) : Z :=
  WORKSHOP_CONFIG.TOTAL_CHALLENGES - Z.of_nat (length (completedChallenges p)).

Definition isComplete (p : WorkshopProgress) : bool :=
  Z.of_nat (length (completedChallenges p)) =? WORKSHOP_CONFIG.TOTAL_CHALLENGES.

End WorkshopContext.

(* ===================================================================== *)
(** * Listing the NFTs ([useAllNFTs.ts])                                  *)
(* ===================================================================== *)

Module AllNFTs.

Record NFTTokenDetails := {
  tokenId : Z;
  tokenPieceCid : jsstring;
  hasAccess : bool;
  isEncrypted : bool;
  contractAddress : jsstring;
  owner : option jsstring
}.

(** What the hook reads from one deployed contract: its address when address
    and ABI are there, and the three [readContract] calls. *)
Record ContractReads (Detail : Type) := {
  deployed : option jsstring;
  getAllTokensDetails : result (list Detail);
  getTotalSupply : result Z;
  ownerOf : Z -> result jsstring
}.
Arguments deployed {Detail} _.
Arguments getAllTokensDetails {Detail} _.
Arguments getTotalSupply {Detail} _.
Arguments ownerOf {Detail} _ _.

(** The [for] loop over the details from index [i]: it runs while
    [i < details.length && i < Number(totalSupply)]; a failing [ownerOf]
    leaves the owner undefined.  An array index is below [2^32], where the
    comparison with [Number(totalSupply)] is exact. *)
Fixpoint collect {Detail} (make : Z -> Detail -> option jsstring -> NFTTokenDetails)
  (ownerOf : Z -> result jsstring) (i : Z) (details : list Detail)
  (totalSupply : Z) : list NFTTokenDetails :=
  match details with
  | [] => []
  | d :: rest =>
      if i <? totalSupply then
        make (i + 1) d (match ownerOf (i + 1) with
                        | Ok o => Some o
                        | Err _ => None
                        end)
        :: collect make ownerOf (i + 1) rest totalSupply
      else []
  end.

(** One [try] block: nothing is pushed when one of the first two reads
    fails. *)
Definition fetchContract {Detail}
  (make : jsstring -> Z -> Detail -> option jsstring -> NFTTokenDetails)
  (reads : ContractReads Detail) : list NFTTokenDetails :=
  match deployed reads with
  | Some (c :: r) =>
      match getAllTokensDetails reads, getTotalSupply reads with
      | Ok details, Ok totalSupply =>
          collect (make (c :: r)) (ownerOf reads) 0 details totalSupply
      | _, _ => []
      end
  | _ => []
  end.

Definition regularNFT (address : jsstring) (tokenId : Z) (uri : jsstring)
  (owner : option jsstring) : NFTTokenDetails :=
  {| tokenId := tokenId; tokenPieceCid := uri; hasAccess := true;
     isEncrypted := false; contractAddress := address; owner := owner |}.

Definition encryptedNFT (address : jsstring) (tokenId : Z)
  (detail : jsstring * bool) (owner : option jsstring) : NFTTokenDetails :=
  {| tokenId := tokenId; tokenPieceCid := fst detail; hasAccess := snd detail;
     isEncrypted := true; contractAddress := address; owner := owner |}.

Definition queryFn (publicClient : bool) (address : option jsstring)
  (nftContract : ContractReads jsstring)
  (litEncryptedNFT : ContractReads (jsstring * bool)) : list NFTTokenDetails :=
  if negb publicClient then []
  else match address with
       | Some (_ :: _) =>
           fetchContract regularNFT nftContract
           ++ fetchContract encryptedNFT litEncryptedNFT
       | _ => []
       end.

Definition useAllRegularNFTs (nfts : list NFTTokenDetails) : list NFTTokenDetails :=
  List.filter (fun nft => negb (isEncrypted nft)) nfts.

Definition useAllEncryptedNFTs (nfts : list NFTTokenDetails) : list NFTTokenDetails :=
  List.filter (fun nft => isEncrypted nft) nfts.

(** The reads served by an [NFTContract] with storage [s]; [decode] and
    [format] are the ABI decoding of a string and of an address. *)
Definition readsOf (decode : string -> jsstring) (format : Z -> jsstring)
  (address : jsstring) (s : NFTContract.State) : ContractReads jsstring :=
  {| deployed := Some address;
     getAllTokensDetails := Ok (map decode (NFTContract.getAllTokensDetails s));
     getTotalSupply := Ok (NFTContract.getTotalSupply s);
     ownerOf := fun k => match NFTContract.ownerOf s k with
                         | Some o => Ok (format o)
                         | None => Err (lit "execution reverted")
                         end |}.

(** The entries expected for the transactions [calls], from token [i + 1]. *)
Fixpoint listed (decode : string -> jsstring) (format : Z -> jsstring)
  (address : jsstring) (i : Z) (calls : list (Z * string))
  : list NFTTokenDetails :=
  match calls with
  | [] => []
  | (sender, cid) :: rest =>
      regularNFT address (i + 1) (decode cid) (Some (format sender))
      :: listed decode format address (i + 1) rest
  end.

End AllNFTs.

(* ===================================================================== *)
(** * Enhanced datasets ([useDatasetsEnhanced.ts])                        *)
(* ===================================================================== *)

Module DatasetsEnhanced.

Inductive ProviderHealthStatus := HEALTHY | DEGRADED | UNAVAILABLE | UNKNOWN.

#[global] Instance ProviderHealthStatus_eq_dec : EqDecision ProviderHealthStatus.
Proof. solve_decision. Defined.

Section Enhance.
Variables (DataSetRest ProviderRest PDPData Piece : Type).
(** [data.pieces], when the property is there, and the [isLive] field. *)
Variable pieces : PDPData -> option (list Piece).
Variable isLive : DataSetRest -> bool.

Record EnhancedDataSet := {
  dataset : Datasets.DataSet DataSetRest ProviderRest PDPData;
  totalPieces : Z;
  estimatedStorage : jsstring;
  providerHealth : ProviderHealthStatus;
  relatedChallenge : option ChallengeType;
  tags : list jsstring;
  complexityLevel : Z
}.

(** What the computed fields of an enhanced dataset satisfy. *)
Definition well_formed (d : EnhancedDataSet) : Prop :=
  1 <= complexityLevel d <= 5 /\
  0 <= totalPieces d /\
  (providerHealth d = HEALTHY \/ providerHealth d = UNKNOWN) /\
  (providerHealth d = HEALTHY <-> is_Some (Datasets.provider (dataset d))) /\
  (relatedChallenge d = Some STORAGE_SENTINEL <-> 0 < totalPieces d) /\
  (complexityLevel d = 1 -> totalPieces d = 0 /\ providerHealth d = UNKNOWN).

Definition enhanceDataset
  (d : Datasets.DataSet DataSetRest ProviderRest PDPData) : EnhancedDataSet :=
  let totalPieces :=
    match Datasets.data d with
    | Some x => match pieces x with
                | Some l => Z.of_nat (length l)
                | None => 0
                end
    | None => 0
    end in
  let estimatedSizeGB := Z.max 1 totalPieces * 1 in
  let hasProvider :=
    match Datasets.provider d with Some _ => true | None => false end in
  {| dataset := d;
     totalPieces := totalPieces;
     estimatedStorage := BigInt_toString estimatedSizeGB ++ lit " GB";
     providerHealth := if hasProvider then HEALTHY else UNKNOWN;
     relatedChallenge := if 0 <? totalPieces then Some STORAGE_SENTINEL else None;
     tags := (if hasProvider then [lit "has-provider"] else [])
             ++ (if 0 <? totalPieces then [lit "has-data"] else [])
             ++ (if isLive (Datasets.dataset_rest (Datasets.base d))
                 then [lit "active"] else []);
     complexityLevel :=
       Z.min 5 (Z.max 1 (1 + totalPieces + (if hasProvider then 1 else 0))) |}.

(** [datasets.map(enhanceDataset)]: an [undefined] entry makes
    [enhanceDataset] throw a [TypeError], which is [None]. *)
Fixpoint enhancedData
  (datasets : list (option (Datasets.DataSet DataSetRest ProviderRest PDPData)))
  : option (list EnhancedDataSet) :=
  match datasets with
  | [] => Some []
  | None :: _ => None
  | Some d :: rest =>
      match enhancedData rest with
      | Some l => Some (enhanceDataset d :: l)
      | None => None
      end
  end.

Definition byHealth (status : ProviderHealthStatus) (l : list EnhancedDataSet)
  : list EnhancedDataSet :=
  List.filter (fun d => bool_decide (providerHealth d = status)) l.

Definition byComplexity (level : Z) (l : list EnhancedDataSet)
  : list EnhancedDataSet :=
  List.filter (fun d => complexityLevel d =? level) l.

Definition byChallenge (challengeId : ChallengeType) (l : list EnhancedDataSet)
  : list EnhancedDataSet :=
  List.filter (fun d => bool_decide (relatedChallenge d = Some challengeId)) l.

Definition totalDatasets (l : list EnhancedDataSet) : Z := Z.of_nat (length l).

Definition statistics_totalPieces (l : list EnhancedDataSet) : Z :=
  fold_left (fun sum d => sum + totalPieces d) l 0.

Definition healthyProviders (l : list EnhancedDataSet) : Z :=
  Z.of_nat (length (byHealth HEALTHY l)).

End Enhance.

Arguments dataset {_ _ _} _.
Arguments totalPieces {_ _ _} _.
Arguments estimatedStorage {_ _ _} _.
Arguments providerHealth {_ _ _} _.
Arguments relatedChallenge {_ _ _} _.
Arguments tags {_ _ _} _.
Arguments complexityLevel {_ _ _} _.
Arguments well_formed {_ _ _} _.
Arguments enhanceDataset {_ _ _ _} _ _ _.
Arguments enhancedData {_ _ _ _} _ _ _.
Arguments byHealth {_ _ _} _ _.
Arguments byComplexity {_ _ _} _ _.
Arguments byChallenge {_ _ _} _ _.
Arguments totalDatasets {_ _ _} _.
Arguments statistics_totalPieces {_ _ _} _.
Arguments healthyProviders {_ _ _} _.

End DatasetsEnhanced.

(* ===================================================================== *)
(** * Constants and sample inputs                                         *)
(* ===================================================================== *)

Definition size_limit : Z := 100 * 1024 * 1024.

Definition rejection_message : jsstring := lit "File size must be less than 100MB".

Definition big_file : File :=
  {| file_name := lit "video.mp4"; file_size := 104857601;
     file_type := lit "video/mp4" |}.

Definition small_file : File :=
  {| file_name := lit "notes.txt"; file_size := 104857600;
     file_type := lit "text/plain" |}.

Definition wallet : option jsstring := Some (lit "0x1234").

Definition picked_public : EncryptedNFTMinter.State :=
  {| EncryptedNFTMinter.selectedFile := Some small_file;
     EncryptedNFTMinter.dragActive := false;
     EncryptedNFTMinter.accessAddresses := [[]];
     EncryptedNFTMinter.mintType := EncryptedNFTMinter.public;
     EncryptedNFTMinter.mintedTokenId := None;
     EncryptedNFTMinter.pieceCid := None |}.

Definition text_file : Upload.FileInput :=
  Upload.InFile {| file_name := lit "a.txt"; file_size := 1;
                   file_type := lit "text/plain" |} (Ok tt).

Definition run_upload (events : list Upload.Event) : Upload.Task * Upload.Hook :=
  Upload.run (fun a b => str_eqb a b) Upload.noConfig text_file Upload.noConfig
             Upload.idle events (Upload.Called, Upload.initial).

Definition dataset_a : Datasets.EnhancedDataSetInfo unit :=
  {| Datasets.providerId := 1; Datasets.payee := lit "0xpayee";
     Datasets.pdpVerifierDataSetId := 10; Datasets.dataset_rest := tt |}.

Definition dataset_b : Datasets.EnhancedDataSetInfo unit :=
  {| Datasets.providerId := 2; Datasets.payee := lit "0xother";
     Datasets.pdpVerifierDataSetId := 11; Datasets.dataset_rest := tt |}.

Definition provider_2 : Datasets.ProviderInfo unit :=
  {| Datasets.provider_id := 2;
     Datasets.provider_serviceURL := Some (lit "https://pdp.example");
     Datasets.provider_rest := tt |}.

(** An SDK whose provider 1 cannot be fetched and whose PDP server fails for
    data set 10, while provider 2 and data set 11 answer. *)
Definition flaky_sdk : Datasets.SDK unit unit (list jsstring) :=
  {| Datasets.signer := true;
     Datasets.address := Some (lit "0xclient");
     Datasets.Synapse_create := Ok tt;
     Datasets.WarmStorageService_create := Ok tt;
     Datasets.getApprovedProviderIds := Ok [1; 2];
     Datasets.getClientDataSetsWithDetails := Ok [dataset_a; dataset_b];
     Datasets.providers_settle_first := true;
     Datasets.getProviderInfo := fun pid =>
       if pid =? 1 then Err (lit "provider down") else Ok provider_2;
     Datasets.getDataSet := fun url dataSetId =>
       if dataSetId =? 10 then Err (lit "pdp down")
       else Ok [lit "bafkpiece"] |}.

Definition flaky_results : list (option (Datasets.DataSet unit unit (list jsstring))) :=
  [ Some {| Datasets.base := dataset_a; Datasets.provider := None;
            Datasets.serviceURL := None; Datasets.data := None |};
    Some {| Datasets.base := dataset_b;
            Datasets.provider := Some provider_2;
            Datasets.serviceURL := Some (lit "https://pdp.example");
            Datasets.data := Some [lit "bafkpiece"] |} ].

(** A browser whose storage never fails. *)
Definition browser : Progress.Env :=
  {| Progress.hasWindow := true;
     Progress.setItem_error := fun _ _ _ => None |}.

(** A browser whose storage is full for every write. *)
Definition full_browser : Progress.Env :=
  {| Progress.hasWindow := true;
     Progress.setItem_error := fun _ _ _ => Some (lit "QuotaExceededError") |}.

Definition fresh_system : Progress.System :=
  {| Progress.hook := Progress.initialState 1000; Progress.localStorage := ∅ |}.

Definition after_first_challenge : Progress.System :=
  fst (Progress.completeChallenge browser 1000
         (Progress.progress (Progress.hook fresh_system))
         TREASURY_MASTER (Some (lit "0xabc")) 2000 2001 fresh_system).

(** The progress [completeChallenge] builds from the progress it closed
    over. *)
Definition updatedProgress (captured : WorkshopProgress) (c : ChallengeType)
  (now1 now2 : Z) : WorkshopProgress :=
  {| completedChallenges :=
       if Array_includes (completedChallenges captured) c
       then completedChallenges captured
       else completedChallenges captured ++ [c];
     lastUpdated := now1;
     version := version captured;
     participantId := participantId captured;
     sessionStarted := sessionStarted captured;
     timeSpent := timeSpent captured + (now2 - sessionStarted captured) |}.

(** The attempt [validateFlag] records first. *)
Definition firstAttempt (c : ChallengeType) (flag : jsstring)
  (startTime now1 : Z) : ChallengeAttempt :=
  {| attempt_challengeId := c;
     attempt_timestamp := startTime;
     attempt_success := valid (Flags.validateChallengeFlag c flag);
     attempt_error := match Flags.validateChallengeFlag c flag with
                      | Valid _ _ => None
                      | Invalid e _ => Some e
                      end;
     attempt_duration := now1 - startTime |}.

Definition after_two_challenges : Progress.System :=
  fst (Progress.completeChallenge browser 1000
         (Progress.progress (Progress.hook after_first_challenge))
         STORAGE_SENTINEL (Some (lit "Qmdef")) 5000 5001 after_first_challenge).

Definition eight_resumes : list Upload.Event :=
  [Upload.Resume; Upload.Resume; Upload.Resume; Upload.Resume;
   Upload.Resume; Upload.Resume; Upload.Resume; Upload.Resume].

(** The result object of a completed upload of [size] bytes. *)
Definition uploadResult (size : Z) : Upload.FileStorageResult :=
  {| Upload.success := true;
     Upload.cid := lit "QmExamplePieceCID123456789";
     Upload.transactionHash := lit "0x" ++ repeat_unit 48 64;
     Upload.status := Upload.COMPLETED;
     Upload.fileSize := size |}.

Definition empty_file : Upload.FileInput :=
  Upload.InFile {| file_name := lit "empty.txt"; file_size := 0;
                   file_type := lit "text/plain" |} (Ok tt).

(** A mutation that has finished, one way or the other. *)
Definition finished (t : Upload.Task) : bool :=
  match t with
  | Upload.Resolved _ | Upload.Rejected _ => true
  | _ => false
  end.

(** How often [a] occurs as the sender of a call. *)
Definition mintsBy (a : Z) (calls : list (Z * string)) : Z :=
  Z.of_nat (length (List.filter (fun call => fst call =? a) calls)).

Definition one_mint : NFTContract.State :=
  default NFTContract.constructor
    (NFTContract.mints [(5, "a"%string)] NFTContract.constructor).

Definition three_mints : NFTContract.State :=
  default NFTContract.constructor
    (NFTContract.mints [(7, "b"%string); (5, "c"%string)] one_mint).

(** A contract that is not deployed. *)
Definition notDeployed {Detail} : AllNFTs.ContractReads Detail :=
  {| AllNFTs.deployed := None;
     AllNFTs.getAllTokensDetails := Ok [];
     AllNFTs.getTotalSupply := Ok 0;
     AllNFTs.ownerOf := fun _ => Err [] |}.

(** Reads whose first call fails, and reads whose [ownerOf] always fails. *)
Definition failingReads : AllNFTs.ContractReads jsstring :=
  {| AllNFTs.deployed := Some (lit "0xnft");
     AllNFTs.getAllTokensDetails := Err (lit "rpc down");
     AllNFTs.getTotalSupply := Ok 2;
     AllNFTs.ownerOf := fun _ => Err (lit "rpc down") |}.

Definition ownerlessReads : AllNFTs.ContractReads jsstring :=
  {| AllNFTs.deployed := Some (lit "0xnft");
     AllNFTs.getAllTokensDetails := Ok [lit "bafk1"; lit "bafk2"; lit "bafk3"];
     AllNFTs.getTotalSupply := Ok 2;
     AllNFTs.ownerOf := fun _ => Err (lit "rpc down") |}.

Definition encryptedReads : AllNFTs.ContractReads (jsstring * bool) :=
  {| AllNFTs.deployed := Some (lit "0xlit");
     AllNFTs.getAllTokensDetails := Ok [(lit "bafkenc", false)];
     AllNFTs.getTotalSupply := Ok 1;
     AllNFTs.ownerOf := fun _ => Ok (lit "0xowner") |}.

(** ASCII decoding of a contract string and a stand-in for the formatting of
    an address. *)
Definition decodeAscii (s : string) : jsstring := lit s.

Definition formatAddress (a : Z) : jsstring := lit "0x" ++ digits a.

Definition ready_to_mint : EncryptedNFTMinter.State :=
  EncryptedNFTMinter.setMintType EncryptedNFTMinter.private
    (EncryptedNFTMinter.setAccessAddresses [lit "0xfriend"; []] picked_public).

(** Upload configurations: a default of ten bytes, one of 200 MB, and an
    argument whose [maxFileSize] key is there and holds [undefined]. *)
Definition ten_byte_limit : Upload.UploadConfig :=
  {| Upload.maxFileSize := Upload.Value 10;
     Upload.allowedTypes := Upload.Missing |}.

Definition large_limit : Upload.UploadConfig :=
  {| Upload.maxFileSize := Upload.Value (200 * 1024 * 1024);
     Upload.allowedTypes := Upload.Missing |}.

Definition limit_undefined : Upload.UploadConfig :=
  {| Upload.maxFileSize := Upload.Undefined;
     Upload.allowedTypes := Upload.Missing |}.

Definition eleven_bytes : Upload.FileInput :=
  Upload.InFile {| file_name := lit "b.txt"; file_size := 11;
                   file_type := lit "text/plain" |} (Ok tt).

Definition video_file : Upload.FileInput :=
  Upload.InFile {| file_name := lit "c.mp4"; file_size := 150 * 1024 * 1024;
                   file_type := lit "video/mp4" |} (Ok tt).

Definition unreadable_file : Upload.FileInput :=
  Upload.InFile {| file_name := lit "d.txt"; file_size := 1;
                   file_type := lit "text/plain" |}
                (Err (lit "The file could not be read")).

(** A progress record with every challenge completed. *)
Definition all_done : WorkshopProgress :=
  {| completedChallenges := ChallengeType_values; lastUpdated := 9000;
     version := WORKSHOP_CONFIG.PROGRESS_VERSION; participantId := None;
     sessionStarted := 1000; timeSpent := 8000 |}.

(** A string that does not start with white space. *)
Definition starts_clean (s : jsstring) : Prop :=
  match s with
  | [] => True
  | c :: _ => isWhiteSpace c = false
  end.

(** The validator of each challenge, as [challengeFlags] lists them. *)
Definition validator (c : ChallengeType) : jsstring -> bool :=
  match c with
  | TREASURY_MASTER =>
      fun flag => startsWith flag (lit "0x") && bool_decide (length flag = 66%nat)
  | STORAGE_SENTINEL =>
      fun flag => startsWith flag (lit "Qm") && bool_decide (length flag = 46%nat)
  | DATA_GUARDIAN =>
      fun flag => startsWith flag (lit "encrypted_")
                  && bool_decide (20 < length flag)%nat
  | NFT_ARCHITECT => fun flag => match_digits flag
  | DECRYPTION_EXPERT => fun flag => includes flag (lit "decrypted_content")
  end.

(** The code units of the decimal digits. *)
Definition is_digit_unit (c : Z) : Prop := 48 <= c <= 57.

(* ===================================================================== *)
(** * Properties                                                          *)
(* ===================================================================== *)

(** ** File pickers *)

(** C1. Selecting a file over the size limit shows a rejection message: for
    a file of more than 100 * 1024 * 1024 bytes at the head of the list,
    [handleFileSelect] of [FileUpload] and of [EncryptedNFTMinter] shows the
    message and leaves the component state as it was; for a file of at most
    that size both set the selected file and show nothing. *)
Theorem handleFileSelect_size_limit :
  forall (file : File) (others : list File),
    (file_size file > size_limit ->
     (forall s, FileUpload.handleFileSelect (Some (file :: others)) s
                = (s, [rejection_message])) /\
     (forall s, EncryptedNFTMinter.handleFileSelect (Some (file :: others)) s
                = (s, [rejection_message]))) /\
    (file_size file <= size_limit ->
     (forall s,
        FileUpload.selectedFile
          (fst (FileUpload.handleFileSelect (Some (file :: others)) s))
        = Some file /\
        snd (FileUpload.handleFileSelect (Some (file :: others)) s) = []) /\
     (forall s,
        EncryptedNFTMinter.selectedFile
          (fst (EncryptedNFTMinter.handleFileSelect (Some (file :: others)) s))
        = Some file /\
        snd (EncryptedNFTMinter.handleFileSelect (Some (file :: others)) s) = [])).
Proof.
  intros file others. unfold size_limit, rejection_message.
  split; intros Hsize.
  - assert (Hgt : (file_size file >? 100 * 1024 * 1024) = true)
      by (apply Z.gtb_lt; lia).
    split; intros s; cbn [FileUpload.handleFileSelect
                          EncryptedNFTMinter.handleFileSelect];
      now rewrite Hgt.
  - assert (Hle : (file_size file >? 100 * 1024 * 1024) = false).
    { destruct (file_size file >? 100 * 1024 * 1024) eqn:E; [|reflexivity].
      apply Z.gtb_lt in E. lia. }
    split; intros s; cbn [FileUpload.handleFileSelect
                          EncryptedNFTMinter.handleFileSelect];
      now rewrite Hle.
Qed.

Lemma handleFileSelect_size_limit_witness :
  (forall s, FileUpload.handleFileSelect (Some [big_file]) s
             = (s, [rejection_message])) /\
  (forall s, FileUpload.selectedFile
               (fst (FileUpload.handleFileSelect (Some [small_file]) s))
             = Some small_file).
Proof.
  split.
  - apply (proj1 (handleFileSelect_size_limit big_file [])).
    unfold size_limit. simpl. lia.
  - intros s.
    apply (proj2 (handleFileSelect_size_limit small_file [])).
    unfold size_limit. simpl. lia.
Defined.

(** ** Minting handlers *)

(** C4. The handler of the encrypted minter does not look at the chosen
    access type: with "public" selected (the initial choice, whose address
    list is the single empty input) it sends [mintPrivate] with the piece CID
    and the address list, and for every state the writes are the same for
    both access types.  The plain minter sends [mint] with the CID alone. *)
Theorem mintPrivate_sent_for_public_access :
  EncryptedNFTMinter.writes
    (EncryptedNFTMinter.handleEncryptUploadAndMint wallet
       (fun _ _ => Ok (lit "bafkpiece")) (fun _ => Ok tt) picked_public)
  = [ {| functionName := lit "mintPrivate";
         args := [AString (lit "bafkpiece"); AAddressArray [[]]] |} ]
  /\ (forall address encrypt mintNFT s,
        EncryptedNFTMinter.writes
          (EncryptedNFTMinter.handleEncryptUploadAndMint address encrypt mintNFT
             (EncryptedNFTMinter.setMintType EncryptedNFTMinter.public s))
        = EncryptedNFTMinter.writes
            (EncryptedNFTMinter.handleEncryptUploadAndMint address encrypt mintNFT
               (EncryptedNFTMinter.setMintType EncryptedNFTMinter.private s)))
  /\ snd (NFTMinter.handleUploadAndMint wallet
            (fun _ => Ok (lit "bafkpiece")) (fun _ => Ok tt)
            {| NFTMinter.selectedFile := Some small_file;
               NFTMinter.dragActive := false;
               NFTMinter.mintedTokenId := false;
               NFTMinter.pieceCid := None |})
     = [ {| functionName := lit "mint"; args := [AString (lit "bafkpiece")] |} ].
Proof.
  split; [reflexivity|]. split; [|reflexivity].
  intros address encrypt mintNFT s.
  unfold EncryptedNFTMinter.handleEncryptUploadAndMint,
    EncryptedNFTMinter.setMintType; simpl.
  destruct (EncryptedNFTMinter.selectedFile s) as [f|]; [|reflexivity].
  destruct address as [[|c r]|]; try reflexivity.
  destruct (encrypt f 1) as [cid|e]; [|reflexivity].
  simpl.
  match goal with |- context [mintNFT ?c] => destruct (mintNFT c) end;
    reflexivity.
Qed.

(** ** Upload cancellation *)

Lemma signal_aborted_setProgressState p h :
  Upload.signal_aborted (Upload.setProgressState p h) = Upload.signal_aborted h.
Proof. reflexivity. Qed.

Lemma signal_aborted_cancelUpload h :
  Upload.signal_aborted (Upload.cancelUpload h) = false.
Proof.
  unfold Upload.cancelUpload.
  rewrite signal_aborted_setProgressState.
  destruct (Upload.cancelTokenRef h) eqn:E; unfold Upload.signal_aborted.
  - reflexivity.
  - now rewrite E.
Qed.

Lemma signal_aborted_catch_finally file rendered e h :
  Upload.signal_aborted (snd (Upload.catch_finally file rendered e h)) = false.
Proof. reflexivity. Qed.

Lemma signal_aborted_loop_head file rendered p fd h :
  Upload.signal_aborted h = false ->
  Upload.signal_aborted (snd (Upload.loop_head file rendered p fd h)) = false.
Proof.
  intros H. unfold Upload.loop_head.
  destruct (p <? 80); [rewrite H|]; simpl; assumption.
Qed.

Lemma signal_aborted_resume tm dc file config rendered t h :
  Upload.signal_aborted h = false ->
  Upload.signal_aborted (snd (Upload.resume tm dc file config rendered t h)) = false.
Proof.
  intros H. destruct t; simpl; try assumption.
  - destruct (Upload.convertFileInput file) as [fileData|message];
      [|reflexivity].
    destruct (Upload.validateFileInternal tm fileData _); [|reflexivity].
    apply signal_aborted_loop_head.
    unfold Upload.signal_aborted; simpl.
    rewrite lookup_app_r by reflexivity.
    now rewrite Nat.sub_diag.
  - now apply signal_aborted_loop_head.
  - reflexivity.
Qed.

(** With resume and cancel as the only events, the abort check of the loop
    never sees an aborted signal. *)
Lemma signal_never_seen_aborted tm dc file config rendered events st :
  Upload.signal_aborted (snd st) = false ->
  Upload.signal_aborted
    (snd (Upload.run tm dc file config rendered events st)) = false.
Proof.
  revert st. induction events as [|e events IH]; intros st H; [exact H|].
  simpl. apply IH. destruct e; simpl.
  - now apply signal_aborted_resume.
  - apply signal_aborted_cancelUpload.
Qed.

(** C7. Cancelling during the upload loop aborts the controller and shows
    "Upload cancelled by user", and nevertheless the workflow goes on to
    'completed': [cancelUpload] clears the reference that the loop's check
    reads, so the check finds no aborted signal, here and in every run. *)
Theorem cancelled_upload_still_completes :
  let cancelled := run_upload [Upload.Resume; Upload.Resume; Upload.Cancel] in
  let finished :=
    run_upload [Upload.Resume; Upload.Resume; Upload.Cancel;
                Upload.Resume; Upload.Resume; Upload.Resume;
                Upload.Resume; Upload.Resume; Upload.Resume] in
  Upload.canCancel (snd (run_upload [Upload.Resume; Upload.Resume])) = true /\
  Upload.controllers (snd cancelled) = [true] /\
  Upload.progressState (snd cancelled)
  = Upload.failed 30 Upload.UploadCancelledByUser (Some (lit "a.txt")) /\
  Upload.is_completed (Upload.progressState (snd finished)) = true /\
  (exists r, fst finished = Upload.Resolved r) /\
  (forall events,
     Upload.signal_aborted (snd (run_upload events)) = false).
Proof.
  cbv zeta. repeat split; try reflexivity.
  - eexists. reflexivity.
  - intros events. now apply signal_never_seen_aborted.
Qed.

(** ** JavaScript strings *)

Lemma trimStart_clean s : starts_clean (trimStart s).
Proof.
  induction s as [|c r IH]; simpl; [exact I|].
  destruct (isWhiteSpace c) eqn:E; [exact IH|exact E].
Qed.

Lemma trimStart_id s : starts_clean s -> trimStart s = s.
Proof. destruct s as [|c r]; simpl; [reflexivity|]. now intros ->. Qed.

Lemma trimStart_snoc l c :
  isWhiteSpace c = false -> trimStart (l ++ [c]) = trimStart l ++ [c].
Proof.
  intros Hc. induction l as [|a l IH]; simpl.
  - now rewrite Hc.
  - destruct (isWhiteSpace a); [exact IH|reflexivity].
Qed.

Lemma trimEnd_clean s : starts_clean s -> starts_clean (trimEnd s).
Proof.
  destruct s as [|c r]; [intros _; exact I|].
  simpl. intros Hc. unfold trimEnd. simpl.
  rewrite trimStart_snoc by exact Hc.
  rewrite rev_unit. exact Hc.
Qed.

Lemma trimEnd_idem s : trimEnd (trimEnd s) = trimEnd s.
Proof.
  unfold trimEnd. rewrite rev_involutive.
  f_equal. apply trimStart_id, trimStart_clean.
Qed.

Lemma trim_idem s : trim (trim s) = trim s.
Proof.
  unfold trim.
  rewrite (trimStart_id (trimEnd (trimStart s)))
    by apply trimEnd_clean, trimStart_clean.
  apply trimEnd_idem.
Qed.

Lemma startsWith_spec s p : startsWith s p = true <-> exists r, s = p ++ r.
Proof.
  revert s. induction p as [|a p IH]; intros s; simpl.
  - split; [intros _; now exists s|reflexivity].
  - destruct s as [|b s]; simpl.
    + split; [discriminate|intros [r Hr]; discriminate].
    + rewrite andb_true_iff, Z.eqb_eq, IH. split.
      * intros [-> [r ->]]. now exists r.
      * intros [r Hr]. injection Hr as -> ->. split; [reflexivity|now exists r].
Qed.

Lemma includes_spec s sub :
  includes s sub = true <-> exists a b, s = a ++ sub ++ b.
Proof.
  induction s as [|c s IH]; simpl.
  - rewrite orb_false_r, startsWith_spec. split.
    + intros [r Hr]. now exists [], r.
    + intros [a [b H]]. destruct a as [|x a]; [now exists b|discriminate].
  - rewrite orb_true_iff, startsWith_spec, IH. split.
    + intros [[r Hr]|[a [b Hab]]].
      * now exists [], r.
      * exists (c :: a), b. now rewrite Hab.
    + intros [a [b H]]. destruct a as [|x a].
      * left. now exists b.
      * right. injection H as _ H. now exists a, b.
Qed.

Lemma isDigit_spec c : isDigit c = true <-> 48 <= c <= 57.
Proof. unfold isDigit. rewrite andb_true_iff, !Z.leb_le. reflexivity. Qed.

Lemma digits_to_end_spec s :
  digits_to_end s = true <-> forall u, u ∈ s -> 48 <= u <= 57.
Proof.
  induction s as [|c r IH]; simpl.
  - split; [intros _ u Hu; inversion Hu|reflexivity].
  - rewrite andb_true_iff, isDigit_spec, IH. split.
    + intros [Hc Hr] u Hu. apply elem_of_cons in Hu as [->|Hu]; auto.
    + intros H. split; [apply H; left|intros u Hu; apply H; now right].
Qed.

Lemma match_digits_spec s :
  match_digits s = true <-> s <> [] /\ forall u, u ∈ s -> 48 <= u <= 57.
Proof.
  destruct s as [|c r].
  - simpl. split; [discriminate|intros [H _]; now elim H].
  - change (match_digits (c :: r)) with (digits_to_end (c :: r)).
    rewrite digits_to_end_spec. split; [intros H; split; [discriminate|exact H]|].
    now intros [_ H].
Qed.

(** ** Flag validation *)

Lemma challengeFlags_get c :
  Flags.Map_get Flags.challengeFlags c = Some (validator c).
Proof. destruct c; reflexivity. Qed.

Lemma validator_spec c t :
  t <> [] -> (validator c t = true <-> Flags.spec_format c t).
Proof.
  intros Ht. destruct c; cbn [validator Flags.spec_format].
  - now rewrite andb_true_iff, bool_decide_eq_true, startsWith_spec.
  - now rewrite andb_true_iff, bool_decide_eq_true, startsWith_spec.
  - now rewrite andb_true_iff, bool_decide_eq_true, startsWith_spec.
  - rewrite match_digits_spec. split; [now intros [_ H]|now split].
  - apply includes_spec.
Qed.

Lemma validate_trimmed c flag :
  trim flag <> [] ->
  Flags.validateChallengeFlag c flag
  = if validator c (trim flag)
    then Valid c (ChallengeDifficulty_value
                    (match c with
                     | TREASURY_MASTER => BEGINNER
                     | STORAGE_SENTINEL | DATA_GUARDIAN => INTERMEDIATE
                     | NFT_ARCHITECT => ADVANCED
                     | DECRYPTION_EXPERT => EXPERT
                     end) * 100)
    else Invalid (lit "Invalid flag format") (Some (Flags.hints c)).
Proof.
  intros Ht. unfold Flags.validateChallengeFlag.
  destruct flag as [|u flag]; [now elim Ht|].
  cbn [truthy negb].
  destruct (trim (u :: flag)) as [|v t] eqn:Et; [now elim Ht|].
  rewrite bool_decide_eq_false_2 by discriminate.
  rewrite challengeFlags_get.
  destruct (validator c (v :: t)); cbn [negb].
  - destruct c; reflexivity.
  - destruct c; reflexivity.
Qed.

Lemma validate_blank c flag :
  trim flag = [] -> Flags.validateChallengeFlag c flag = Flags.empty_flag_result.
Proof.
  intros Ht. unfold Flags.validateChallengeFlag.
  destruct flag as [|u flag]; [reflexivity|].
  cbn [truthy negb]. rewrite Ht. reflexivity.
Qed.

(** C9. Flag validation is a function of the trimmed flag: the result for a
    flag is the result for its trimmed form; a flag is accepted exactly when
    its trimmed form is not empty and has the format of the challenge ("0x"
    and 66 units, "Qm" and 46 units, "encrypted_" and more than 20 units,
    digits only, or containing "decrypted_content"); an empty or
    whitespace-only flag is rejected; an accepted flag yields the challenge
    with its difficulty times 100 as points. *)
Theorem validateChallengeFlag_spec :
  forall (c : ChallengeType) (flag : jsstring),
    Flags.validateChallengeFlag c flag
    = Flags.validateChallengeFlag c (trim flag) /\
    (valid (Flags.validateChallengeFlag c flag) = true
     <-> trim flag <> [] /\ Flags.spec_format c (trim flag)) /\
    (trim flag = [] ->
     Flags.validateChallengeFlag c flag = Flags.empty_flag_result) /\
    (valid (Flags.validateChallengeFlag c flag) = true ->
     exists points,
       Flags.validateChallengeFlag c flag = Valid c points /\
       Flags.spec_points c points).
Proof.
  intros c flag.
  destruct (decide (trim flag = [])) as [Hb|Hn].
  - rewrite (validate_blank c flag Hb).
    rewrite (validate_blank c (trim flag)) by (now rewrite trim_idem).
    split; [reflexivity|]. split; [|split].
    + split; [discriminate|now intros [H _]].
    + reflexivity.
    + discriminate.
  - rewrite (validate_trimmed c flag Hn).
    rewrite (validate_trimmed c (trim flag)) by (now rewrite trim_idem).
    rewrite trim_idem.
    split; [reflexivity|]. split; [|split].
    + rewrite <- (validator_spec c (trim flag) Hn).
      destruct (validator c (trim flag)); simpl;
        split; try discriminate; try (now intros [_ H]); now split.
    + intros Hb. now elim Hn.
    + destruct (validator c (trim flag)); simpl; [|discriminate].
      intros _. eexists. split; [reflexivity|].
      unfold Flags.spec_points.
      destruct c;
        [ set (i := 0%nat) | set (i := 1%nat) | set (i := 2%nat)
        | set (i := 3%nat) | set (i := 4%nat) ];
        (eexists; split;
         [apply (list_elem_of_lookup_2 _ i); reflexivity|split; reflexivity]).
Qed.

Lemma validateChallengeFlag_spec_witness :
  Flags.validateChallengeFlag NFT_ARCHITECT (lit " 12345 ")
  = Flags.validateChallengeFlag NFT_ARCHITECT (lit "12345") /\
  (exists points,
     Flags.validateChallengeFlag NFT_ARCHITECT (lit " 12345 ")
     = Valid NFT_ARCHITECT points /\ Flags.spec_points NFT_ARCHITECT points) /\
  Flags.validateChallengeFlag TREASURY_MASTER (lit "   ")
  = Flags.empty_flag_result.
Proof.
  split; [|split].
  - exact (proj1 (validateChallengeFlag_spec NFT_ARCHITECT (lit " 12345 "))).
  - apply (proj2 (proj2 (proj2
             (validateChallengeFlag_spec NFT_ARCHITECT (lit " 12345 "))))).
    reflexivity.
  - apply (proj1 (proj2 (proj2
             (validateChallengeFlag_spec TREASURY_MASTER (lit "   "))))).
    reflexivity.
Defined.

(** ** Decimal digits *)

Lemma parse_digits_snoc s c :
  Currency.parse_digits (s ++ [c])
  = 10 * Currency.parse_digits s + Currency.digit_value c.
Proof. unfold Currency.parse_digits. now rewrite fold_left_app. Qed.

Lemma parse_digits_zeros k s :
  Currency.parse_digits (repeat_unit 48 k ++ s) = Currency.parse_digits s.
Proof.
  unfold Currency.parse_digits. rewrite fold_left_app. f_equal.
  induction k as [|k IH]; [reflexivity|exact IH].
Qed.

Lemma digits_fuel_acc fuel : forall n acc,
  digits_fuel fuel n acc = digits_fuel fuel n [] ++ acc.
Proof.
  induction fuel as [|f IH]; intros n acc; simpl; [reflexivity|].
  destruct (n / 10 =? 0); [reflexivity|].
  rewrite (IH _ (_ :: acc)), (IH _ [_]).
  now rewrite <- app_assoc.
Qed.

Lemma digits_fuel_unfold f n :
  digits_fuel (S f) n []
  = if n / 10 =? 0 then [48 + n mod 10]
    else digits_fuel f (n / 10) [] ++ [48 + n mod 10].
Proof. simpl. destruct (n / 10 =? 0); [reflexivity|apply digits_fuel_acc]. Qed.

Lemma digits_fuel_value fuel : forall n,
  0 <= n < 2 ^ Z.of_nat fuel ->
  Currency.parse_digits (digits_fuel fuel n []) = n.
Proof.
  induction fuel as [|f IH]; intros n Hn.
  - simpl in *. change (Currency.parse_digits []) with 0. lia.
  - rewrite digits_fuel_unfold.
    destruct (n / 10 =? 0) eqn:E.
    + apply Z.eqb_eq in E.
      unfold Currency.parse_digits, Currency.digit_value; simpl.
      pose proof (Z.div_mod n 10). lia.
    + apply Z.eqb_neq in E.
      rewrite parse_digits_snoc, IH.
      * unfold Currency.digit_value. pose proof (Z.div_mod n 10). lia.
      * rewrite Nat2Z.inj_succ, Z.pow_succ_r in Hn by lia.
        split; [apply Z.div_pos; lia|].
        apply Z.div_lt_upper_bound; lia.
Qed.

Lemma digits_fuel_length fuel : forall n (k : nat),
  0 <= n < 10 ^ Z.of_nat k -> (1 <= k)%nat ->
  (length (digits_fuel fuel n []) <= k)%nat.
Proof.
  induction fuel as [|f IH]; intros n k Hn Hk; [simpl; lia|].
  rewrite digits_fuel_unfold.
  destruct (n / 10 =? 0) eqn:E; [simpl; lia|].
  apply Z.eqb_neq in E.
  rewrite length_app; simpl.
  destruct k as [|k]; [lia|].
  rewrite Nat2Z.inj_succ, Z.pow_succ_r in Hn by lia.
  assert (Hq : 0 <= n / 10 < 10 ^ Z.of_nat k).
  { split; [apply Z.div_pos; lia|apply Z.div_lt_upper_bound; lia]. }
  destruct k as [|k].
  - simpl in Hq. lia.
  - specialize (IH (n / 10) (S k) Hq). lia.
Qed.

Lemma digits_fuel_digits fuel : forall n,
  0 <= n -> Forall is_digit_unit (digits_fuel fuel n []).
Proof.
  induction fuel as [|f IH]; intros n Hn; [constructor|].
  rewrite digits_fuel_unfold.
  assert (Hd : is_digit_unit (48 + n mod 10)).
  { unfold is_digit_unit. pose proof (Z.mod_pos_bound n 10). lia. }
  destruct (n / 10 =? 0).
  - now constructor.
  - apply Forall_app. split; [apply IH, Z.div_pos; lia|now constructor].
Qed.

Lemma digits_value n : 0 <= n -> Currency.parse_digits (digits n) = n.
Proof.
  intros Hn. apply digits_fuel_value. split; [exact Hn|].
  destruct (Z.eq_dec n 0) as [->|Hz]; [reflexivity|].
  rewrite Nat2Z.inj_succ, Z2Nat.id by apply Z.log2_nonneg.
  apply Z.log2_spec. lia.
Qed.

Lemma digits_length n (k : nat) :
  0 <= n < 10 ^ Z.of_nat k -> (1 <= k)%nat -> (length (digits n) <= k)%nat.
Proof. apply digits_fuel_length. Qed.

Lemma digits_digits n : 0 <= n -> Forall is_digit_unit (digits n).
Proof. apply digits_fuel_digits. Qed.

Lemma BigInt_toString_nonneg n : 0 <= n -> BigInt_toString n = digits n.
Proof.
  intros Hn. unfold BigInt_toString.
  destruct (n <? 0) eqn:E; [apply Z.ltb_lt in E; lia|reflexivity].
Qed.

Lemma drop_leading_spec c s :
  exists m, s = repeat_unit c m ++ drop_leading c s.
Proof.
  induction s as [|d r [m IH]]; simpl.
  - now exists 0%nat.
  - destruct (d =? c) eqn:E.
    + apply Z.eqb_eq in E. subst d. exists (S m). simpl. now rewrite <- IH.
    + now exists 0%nat.
Qed.

Lemma drop_leading_head c s :
  match drop_leading c s with [] => True | d :: _ => d <> c end.
Proof.
  induction s as [|d r IH]; simpl; [exact I|].
  destruct (d =? c) eqn:E; [exact IH|now apply Z.eqb_neq].
Qed.

Lemma rev_repeat_unit c m : rev (repeat_unit c m) = repeat_unit c m.
Proof.
  unfold repeat_unit. induction m as [|m IH]; [reflexivity|].
  simpl. rewrite IH. clear IH.
  induction m as [|m IH]; [reflexivity|]. simpl. now rewrite IH.
Qed.

Lemma strip_trailing_zeros_spec s :
  exists m, s = strip_trailing_zeros s ++ repeat_unit 48 m.
Proof.
  unfold strip_trailing_zeros.
  destruct (drop_leading_spec 48 (rev s)) as [m Hm].
  exists m. rewrite <- (rev_involutive s) at 1.
  rewrite Hm at 1. now rewrite rev_app_distr, rev_repeat_unit.
Qed.

Lemma strip_trailing_zeros_last s :
  last (strip_trailing_zeros s) <> Some 48.
Proof.
  unfold strip_trailing_zeros.
  pose proof (drop_leading_head 48 (rev s)) as H.
  destruct (drop_leading 48 (rev s)) as [|d r]; [discriminate|].
  simpl. rewrite last_snoc. congruence.
Qed.

Lemma split_at_dot_digits w :
  Forall is_digit_unit w -> Currency.split_at_dot w = (w, []).
Proof.
  induction 1 as [|c r Hc _ IH]; [reflexivity|].
  simpl. rewrite IH.
  destruct (c =? 46) eqn:E; [|reflexivity].
  apply Z.eqb_eq in E. unfold is_digit_unit in Hc. lia.
Qed.

Lemma split_at_dot_app w f :
  Forall is_digit_unit w -> Currency.split_at_dot (w ++ 46 :: f) = (w, f).
Proof.
  induction 1 as [|c r Hc _ IH]; [reflexivity|].
  simpl. rewrite IH.
  destruct (c =? 46) eqn:E; [|reflexivity].
  apply Z.eqb_eq in E. unfold is_digit_unit in Hc. lia.
Qed.

(** The fractional string of [formatCurrency] for the default decimals. *)
Lemma fractional_string r :
  0 <= r < 10 ^ 18 ->
  let fs := padStart 18 48 (digits r) in
  length fs = 18%nat /\ Currency.parse_digits fs = r /\
  padEnd 18 48 (strip_trailing_zeros fs) = fs /\
  (r <> 0 -> strip_trailing_zeros fs <> []).
Proof.
  intros Hr fs.
  assert (Hlen : length fs = 18%nat).
  { unfold fs, padStart, repeat_unit.
    rewrite length_app, repeat_length.
    pose proof (digits_length r 18 Hr). lia. }
  assert (Hval : Currency.parse_digits fs = r).
  { unfold fs, padStart. rewrite parse_digits_zeros. apply digits_value. lia. }
  destruct (strip_trailing_zeros_spec fs) as [m Hm].
  assert (Hm' : m = (18 - length (strip_trailing_zeros fs))%nat).
  { apply (f_equal length) in Hm.
    rewrite length_app in Hm. unfold repeat_unit in Hm.
    rewrite repeat_length in Hm. lia. }
  repeat split; try assumption.
  - unfold padEnd. rewrite <- Hm'. now rewrite <- Hm.
  - intros Hnz Hnil. rewrite Hnil in Hm. simpl in Hm.
    rewrite Hm in Hval.
    rewrite <- (app_nil_r (repeat_unit 48 m)) in Hval.
    rewrite parse_digits_zeros in Hval.
    change (Currency.parse_digits []) with 0 in Hval. lia.
Qed.

(** C10. [formatCurrency] round-trips for a non-negative amount and the
    default 18 decimals: the whole part times [10^18] plus the fractional
    digits right-padded with zeros to 18 places is the amount again; and
    whatever follows a decimal point in the result is not empty and does not
    end in a zero. *)
Theorem formatCurrency_round_trip :
  forall amount : Z,
    0 <= amount ->
    Currency.parse_amount
      (Currency.formatCurrency amount Currency.default_decimals) = amount /\
    (forall w f,
       Currency.formatCurrency amount Currency.default_decimals
       = w ++ lit "." ++ f ->
       f <> [] /\ last f <> Some 48).
Proof.
  intros amount Ha.
  unfold Currency.formatCurrency, Currency.default_decimals.
  assert (Hpow : 0 < 10 ^ 18) by reflexivity.
  rewrite Z.quot_div_nonneg, Z.rem_mod_nonneg by lia.
  set (q := amount / 10 ^ 18). set (r := amount mod 10 ^ 18).
  assert (Hq : 0 <= q) by (apply Z.div_pos; lia).
  assert (Hr : 0 <= r < 10 ^ 18) by (apply Z.mod_pos_bound; lia).
  assert (Hqr : amount = q * 10 ^ 18 + r).
  { unfold q, r. pose proof (Z.div_mod amount (10 ^ 18)). lia. }
  rewrite !(BigInt_toString_nonneg q Hq).
  rewrite (BigInt_toString_nonneg r) by lia.
  change (Z.to_nat 18) with 18%nat.
  destruct (fractional_string r Hr) as (Hlen & Hval & Hpad & Hne).
  set (fs := padStart 18 48 (digits r)) in *.
  assert (Hwhole : Currency.parse_amount (digits q) = q * 10 ^ 18).
  { unfold Currency.parse_amount.
    rewrite split_at_dot_digits by now apply digits_digits.
    rewrite digits_value by exact Hq.
    unfold padEnd. simpl length. rewrite <- (app_nil_r (repeat_unit 48 _)).
    rewrite app_nil_l, parse_digits_zeros.
    change (Currency.parse_digits []) with 0. lia. }
  assert (Hnodot : forall w f, digits q <> w ++ lit "." ++ f).
  { intros w f Heq. pose proof (digits_digits q Hq) as Hd.
    rewrite Heq in Hd. apply Forall_app in Hd as [_ Hd].
    inversion Hd as [|? ? Hdot _]. unfold is_digit_unit in Hdot.
    change (unit_of_ascii "."%char) with 46 in Hdot. lia. }
  destruct (r =? 0) eqn:E.
  - apply Z.eqb_eq in E. split; [rewrite Hwhole; lia|].
    intros w f Heq. now elim (Hnodot w f).
  - apply Z.eqb_neq in E. specialize (Hne E).
    destruct (strip_trailing_zeros fs) as [|c t] eqn:Et; [now elim Hne|].
    cbn [truthy]. split.
    + unfold Currency.parse_amount.
      change (lit ".") with [46]. cbn [app].
      rewrite split_at_dot_app by now apply digits_digits.
      rewrite Hpad, Hval, digits_value by exact Hq. lia.
    + intros w f Heq.
      pose proof (strip_trailing_zeros_last fs) as Hlast.
      rewrite Et in Hlast.
      assert (Hdig : Forall is_digit_unit (c :: t)).
      { rewrite <- Et.
        destruct (strip_trailing_zeros_spec fs) as [m Hm].
        assert (Hfs : Forall is_digit_unit fs).
        { unfold fs, padStart. apply Forall_app. split.
          - unfold repeat_unit. apply Forall_forall. intros x Hx.
            apply list_elem_of_In, repeat_spec in Hx. subst x.
            unfold is_digit_unit. lia.
          - apply digits_digits. lia. }
        rewrite Hm in Hfs. now apply Forall_app in Hfs as [Hfs _]. }
      apply (f_equal last) in Heq.
      change (lit ".") with [46] in Heq. cbn [app] in Heq.
      rewrite !last_app in Heq. rewrite !last_cons in Heq.
      destruct (last t) as [x|] eqn:Lt; destruct (last f) as [y|] eqn:Lf;
        simpl in Heq.
      * split; [intros ->; discriminate|].
        rewrite last_cons, Lt in Hlast. congruence.
      * exfalso. injection Heq as ->.
        assert (Hx : is_digit_unit 46).
        { eapply Forall_forall; [exact Hdig|].
          right. apply last_Some_elem_of, Lt. }
        unfold is_digit_unit in Hx. lia.
      * split; [intros ->; discriminate|].
        rewrite last_cons, Lt in Hlast. congruence.
      * exfalso. injection Heq as ->.
        inversion Hdig as [|? ? Hc _]. unfold is_digit_unit in Hc. lia.
Qed.

Lemma formatCurrency_round_trip_witness :
  Currency.parse_amount
    (Currency.formatCurrency 1500000000000000000 Currency.default_decimals)
  = 1500000000000000000.
Proof.
  refine (proj1 (formatCurrency_round_trip 1500000000000000000 _)). lia.
Defined.

Example formatCurrency_one_and_a_half :
  Currency.formatCurrency 1500000000000000000 Currency.default_decimals
  = lit "1.5" /\
  Currency.formatCurrency 2000000000000000000 Currency.default_decimals
  = lit "2" /\
  Currency.formatCurrency 1 Currency.default_decimals
  = lit "0.000000000000000001".
Proof. repeat split; vm_compute; reflexivity. Qed.

(** ** The NFT contract *)

Section NFTContractFacts.
Import NFTContract.

Lemma minted_constructor : minted [] constructor.
Proof. split; [reflexivity|intros i ? ? H; inversion H|reflexivity]. Qed.

Lemma mints_app a b s :
  mints (a ++ b) s = match mints a s with
                     | Some s' => mints b s'
                     | None => None
                     end.
Proof.
  revert s. induction a as [|[sender cid] a IH]; intros s; simpl; [reflexivity|].
  destruct (mint sender cid s); [apply IH|reflexivity].
Qed.

Lemma mint_step calls s sender cid :
  minted calls s -> sender <> 0 ->
  Z.of_nat (length calls) < MAX_UINT256 ->
  exists s',
    mint sender cid s = Some s' /\
    minted (calls ++ [(sender, cid)]) s' /\
    (forall k, k <> Z.of_nat (length calls) + 1 ->
               tokenURI s' k = tokenURI s k).
Proof.
  intros [Hc Ht Hf] Hs Hn.
  unfold mint. rewrite Hc.
  destruct (Z.of_nat (length calls) =? MAX_UINT256) eqn:E;
    [apply Z.eqb_eq in E; lia|].
  unfold _mint. cbn [_tokenIdCounter _owners _balances _tokenURIs].
  destruct (sender =? 0) eqn:Es; [apply Z.eqb_eq in Es; contradiction|].
  unfold _ownerOf at 1. cbn [_owners].
  rewrite Hf by lia. cbn [default negb Z.eqb].
  eexists. split; [reflexivity|]. split.
  - split; cbn [_tokenIdCounter _owners _tokenURIs].
    + rewrite length_app. simpl. lia.
    + intros i sd c Hi.
      destruct (decide (i = length calls)) as [->|Hne].
      * rewrite list_lookup_middle in Hi by reflexivity.
        injection Hi as <- <-. now rewrite !lookup_insert_eq.
      * assert (Hlt : (i < length calls)%nat).
        { apply lookup_lt_Some in Hi. rewrite length_app in Hi. simpl in Hi. lia. }
        rewrite lookup_app_l in Hi by exact Hlt.
        rewrite !lookup_insert_ne by lia. now apply Ht.
    + intros k Hk. rewrite length_app in Hk. simpl in Hk.
      rewrite lookup_insert_ne by lia. apply Hf. lia.
  - intros k Hk. unfold tokenURI. cbn [_tokenURIs].
    now rewrite lookup_insert_ne by lia.
Qed.

Lemma mints_minted calls :
  Forall (fun c => fst c <> 0) calls ->
  Z.of_nat (length calls) <= MAX_UINT256 ->
  exists s, mints calls constructor = Some s /\ minted calls s.
Proof.
  induction calls as [|[sender cid] calls IH] using rev_ind; intros Hs Hn.
  - exists constructor. split; [reflexivity|apply minted_constructor].
  - apply Forall_app in Hs as [Hs Hlast].
    rewrite length_app in Hn. simpl in Hn.
    destruct IH as (s & Hrun & Hinv); [exact Hs|lia|].
    inversion Hlast as [|? ? Hsender _]. simpl in Hsender.
    destruct (mint_step calls s sender cid Hinv Hsender) as (s' & Hm & Hinv' & _);
      [lia|].
    exists s'. split; [|exact Hinv'].
    rewrite mints_app, Hrun. simpl. now rewrite Hm.
Qed.

Lemma fill_tokenURIs_spec s total fuel : forall (i : nat) tokenURIs,
  length tokenURIs = Z.to_nat total ->
  Z.of_nat i + Z.of_nat fuel = total ->
  fill_tokenURIs fuel (Z.of_nat i) total s tokenURIs
  = take i tokenURIs
    ++ map (fun j : nat => tokenURI s (Z.of_nat j + 1)) (seq i fuel).
Proof.
  induction fuel as [|f IH]; intros i arr Hlen Hi.
  - simpl. rewrite app_nil_r, take_ge; [reflexivity|lia].
  - simpl.
    destruct (Z.of_nat i <? total) eqn:E; [|apply Z.ltb_ge in E; lia].
    rewrite Nat2Z.id.
    replace (Z.of_nat i + 1) with (Z.of_nat (S i)) at 1 by lia.
    rewrite IH; [|now rewrite length_insert|lia].
    assert (Hlt : (i < length arr)%nat) by lia.
    rewrite (take_S_r _ _ (tokenURI s (Z.of_nat i + 1)))
      by (now apply list_lookup_insert_eq).
    rewrite take_insert_ge by lia.
    now rewrite <- app_assoc.
Qed.

Lemma getAllTokensDetails_spec s :
  0 <= getTotalSupply s ->
  getAllTokensDetails s
  = map (fun j : nat => tokenURI s (Z.of_nat j + 1))
        (seq 0 (Z.to_nat (getTotalSupply s))).
Proof.
  intros H. unfold getAllTokensDetails.
  rewrite (fill_tokenURIs_spec s (getTotalSupply s) _ 0%nat).
  - reflexivity.
  - apply length_replicate.
  - simpl. lia.
Qed.

Lemma getAllTokensDetails_minted calls s :
  minted calls s -> getAllTokensDetails s = map snd calls.
Proof.
  intros [Hc Ht _].
  rewrite getAllTokensDetails_spec by (unfold getTotalSupply; lia).
  unfold getTotalSupply. rewrite Hc, Nat2Z.id.
  apply list_eq. intros i.
  rewrite !list_lookup_fmap.
  destruct (calls !! i) as [[sender cid]|] eqn:Hi.
  - rewrite lookup_seq_lt by (now apply lookup_lt_Some in Hi).
    simpl. unfold tokenURI.
    destruct (Ht i sender cid Hi) as [_ ->]. reflexivity.
  - rewrite lookup_seq_ge by (now apply lookup_ge_None in Hi). reflexivity.
Qed.

End NFTContractFacts.

(** C3. Token records map the token id to the CID: after any [n - 1]
    [mint] transactions the [n]-th call [mint(cid)] succeeds (senders are not
    the zero address), makes [getTotalSupply()] return [n],
    gives token [n] to its sender, makes [tokenURI(n)] return [cid], leaves
    every other [tokenURI(k)] as it was, and [getAllTokensDetails()] returns
    the URIs stored for tokens [1..n] in order, which are the CIDs of the
    calls in order.  The counter is a [uint256], so [n] is at most its
    maximum. *)
Theorem mint_nth_call :
  forall (calls : list (Z * string)) (sender : Z) (cid : string),
    Forall (fun c => fst c <> 0) calls ->
    sender <> 0 ->
    Z.of_nat (length calls) < NFTContract.MAX_UINT256 ->
    let n := Z.of_nat (length calls) + 1 in
    exists s s',
      NFTContract.mints calls NFTContract.constructor = Some s /\
      NFTContract.mint sender cid s = Some s' /\
      NFTContract.getTotalSupply s' = n /\
      NFTContract.ownerOf s' n = Some sender /\
      NFTContract.tokenURI s' n = cid /\
      (forall k, k <> n -> NFTContract.tokenURI s' k = NFTContract.tokenURI s k) /\
      NFTContract.getAllTokensDetails s'
      = map (fun k : nat => NFTContract.tokenURI s' (Z.of_nat k))
            (seq 1 (S (length calls))) /\
      NFTContract.getAllTokensDetails s' = map snd (calls ++ [(sender, cid)]).
Proof.
  intros calls sender cid Hs Hsender Hn n.
  destruct (mints_minted calls Hs) as (s & Hrun & Hinv); [lia|].
  destruct (mint_step calls s sender cid Hinv Hsender Hn) as (s' & Hm & Hinv' & Hk).
  exists s, s'. split; [exact Hrun|]. split; [exact Hm|].
  pose proof (NFTContract.minted_counter _ _ Hinv') as Hc.
  rewrite length_app in Hc. simpl in Hc.
  destruct (NFTContract.minted_token _ _ Hinv' (length calls) sender cid)
    as [Ho Hu]; [now apply list_lookup_middle|].
  repeat split.
  - unfold NFTContract.getTotalSupply. lia.
  - unfold NFTContract.ownerOf, NFTContract._ownerOf. unfold n. rewrite Ho. simpl.
    destruct (sender =? 0) eqn:E; [apply Z.eqb_eq in E; contradiction|reflexivity].
  - unfold NFTContract.tokenURI, n. now rewrite Hu.
  - exact Hk.
  - rewrite getAllTokensDetails_spec
      by (unfold NFTContract.getTotalSupply; lia).
    unfold NFTContract.getTotalSupply. rewrite Hc.
    replace (Z.to_nat (Z.of_nat (length calls + 1))) with (S (length calls)) by lia.
    rewrite <- (fmap_S_seq 0), <- list_fmap_compose.
    apply map_ext. intros j. simpl. f_equal. lia.
  - now apply getAllTokensDetails_minted.
Qed.

Lemma mint_nth_call_witness :
  exists s s',
    NFTContract.mints [(5, "bafk-one"%string)] NFTContract.constructor = Some s /\
    NFTContract.mint 7 "bafk-two"%string s = Some s' /\
    NFTContract.getTotalSupply s' = 2 /\
    NFTContract.ownerOf s' 2 = Some 7 /\
    NFTContract.tokenURI s' 2 = "bafk-two"%string /\
    (forall k, k <> 2 -> NFTContract.tokenURI s' k = NFTContract.tokenURI s k) /\
    NFTContract.getAllTokensDetails s'
    = map (fun k : nat => NFTContract.tokenURI s' (Z.of_nat k)) (seq 1 2) /\
    NFTContract.getAllTokensDetails s'
    = ["bafk-one"%string; "bafk-two"%string].
Proof.
  apply (mint_nth_call [(5, "bafk-one"%string)] 7 "bafk-two"%string).
  - repeat constructor. simpl. lia.
  - lia.
  - unfold NFTContract.MAX_UINT256. simpl. lia.
Defined.

(** ** Dataset enrichment *)

Lemma Array_find_Some {A} (p : A -> bool) l x :
  Array_find p l = Some x -> x ∈ l /\ p x = true.
Proof.
  induction l as [|a l IH]; simpl; [discriminate|].
  destruct (p a) eqn:E.
  - intros [= <-]. split; [left|exact E].
  - intros H. destruct (IH H) as [Hin Hp]. split; [now right|exact Hp].
Qed.

Lemma Array_find_is_Some {A} (p : A -> bool) l x :
  x ∈ l -> p x = true -> is_Some (Array_find p l).
Proof.
  induction l as [|a l IH]; intros Hin Hp; [inversion Hin|].
  simpl. destruct (p a) eqn:E; [eauto|].
  apply elem_of_cons in Hin as [->|Hin]; [congruence|now apply IH].
Qed.

(** Looking a record up by a key that is unique in the list finds the image
    of the record itself. *)
Lemma Array_find_unique_key {A B} (f : A -> B) (key : A -> Z) (key' : B -> Z) l :
  (forall a, key' (f a) = key a) ->
  NoDup (map key l) ->
  forall a, a ∈ l ->
    Array_find (fun r => key' r =? key a) (map f l) = Some (f a).
Proof.
  intros Hkey. induction l as [|x l IH]; intros Hnd a Hin; [inversion Hin|].
  simpl in *. apply NoDup_cons in Hnd as [Hx Hnd].
  rewrite Hkey.
  apply elem_of_cons in Hin as [->|Hin].
  - now rewrite Z.eqb_refl.
  - destruct (key x =? key a) eqn:E; [|now apply IH].
    apply Z.eqb_eq in E. exfalso. apply Hx. rewrite E.
    apply list_elem_of_fmap. now exists a.
Qed.

Section DatasetFacts.
Import Datasets.
Context {DataSetRest ProviderRest PDPData : Type}.
Implicit Types sdk : SDK DataSetRest ProviderRest PDPData.

Lemma base_datasetDetails sdk providers urls d :
  base (datasetDetails sdk providers urls d) = d.
Proof.
  unfold datasetDetails. now destruct (getDataSet sdk _ _).
Qed.

Lemma data_datasetDetails sdk providers urls d :
  let ds := datasetDetails sdk providers urls d in
  data ds = None <->
  exists e, getDataSet sdk (or_empty (serviceURL ds)) (pdpVerifierDataSetId d)
            = Err e.
Proof.
  unfold datasetDetails.
  destruct (getDataSet sdk (or_empty (urls !! providerId d))
                       (pdpVerifierDataSetId d)) as [x|e] eqn:E; simpl;
    rewrite E.
  - split; [discriminate|intros [e He]; discriminate].
  - split; [intros _; now exists e|reflexivity].
Qed.

Lemma provider_datasetDetails sdk addresses providerIds urls d p :
  provider (datasetDetails sdk (filteredProviders sdk addresses providerIds)
                           urls d) = Some p ->
  exists pid, pid ∈ providerIds /\ getProviderInfo sdk pid = Ok p.
Proof.
  unfold datasetDetails.
  destruct (getDataSet sdk _ _); simpl; intros H;
    apply Array_find_Some in H as [Hin _];
    apply list_elem_of_omap in Hin as (pid & Hpid & Hf);
    exists pid; (split; [exact Hpid|]);
    unfold fetchProvider in Hf;
    destruct (addresses !! pid) as [[|? ?]|]; try discriminate;
    destruct (getProviderInfo sdk pid); congruence.
Qed.

(** The query function once its first four calls have answered. *)
Lemma queryFn_after_prelude sdk providerIds datasets :
  signer sdk = true ->
  truthy (or_empty (address sdk)) = true ->
  is_ok (Synapse_create sdk) = true ->
  is_ok (WarmStorageService_create sdk) = true ->
  getApprovedProviderIds sdk = Ok providerIds ->
  getClientDataSetsWithDetails sdk = Ok datasets ->
  let providers :=
    filteredProviders sdk (providerIdToAddressMap datasets) providerIds in
  queryFn sdk
  = Ok (datasetsWithDetails datasets
          (map (datasetDetails sdk providers
                               (providerIdToServiceUrlMap providers))
               datasets)).
Proof.
  intros Hs Ha Hc Hw Hp Hd. unfold queryFn.
  rewrite Hs, Ha. cbn [negb].
  destruct (Synapse_create sdk); [|discriminate].
  destruct (WarmStorageService_create sdk); [|discriminate].
  unfold Promise_all2. rewrite Hp, Hd. reflexivity.
Qed.

Lemma queryFn_Ok_inv sdk results :
  queryFn sdk = Ok results ->
  signer sdk = true /\
  truthy (or_empty (address sdk)) = true /\
  is_ok (Synapse_create sdk) = true /\
  is_ok (WarmStorageService_create sdk) = true /\
  exists providerIds datasets,
    getApprovedProviderIds sdk = Ok providerIds /\
    getClientDataSetsWithDetails sdk = Ok datasets.
Proof.
  unfold queryFn.
  destruct (signer sdk); [|discriminate].
  destruct (truthy (or_empty (address sdk))); [|discriminate].
  cbn [negb].
  destruct (Synapse_create sdk); [|discriminate].
  destruct (WarmStorageService_create sdk); [|discriminate].
  unfold Promise_all2.
  destruct (getApprovedProviderIds sdk) as [pids|];
    destruct (getClientDataSetsWithDetails sdk) as [ds|]; try discriminate.
  intros _. repeat split. now exists pids, ds.
Qed.

End DatasetFacts.

(** C2, refuted as stated: with a provider fetch and a dataset-detail fetch
    that fail, the query function still succeeds, so it does not fail as a
    whole. *)
Lemma queryFn_continues_with_partial_results :
  Datasets.getProviderInfo flaky_sdk 1 = Err (lit "provider down") /\
  Datasets.getDataSet flaky_sdk [] 10 = Err (lit "pdp down") /\
  Datasets.queryFn flaky_sdk = Ok flaky_results /\
  ~ Datasets.fails_as_a_whole flaky_sdk.
Proof.
  assert (Hq : Datasets.queryFn flaky_sdk = Ok flaky_results)
    by (vm_compute; reflexivity).
  repeat split; try exact Hq.
  intros H.
  specialize (H [1; 2] [dataset_a; dataset_b] eq_refl eq_refl
                (lit "provider down")).
  rewrite Hq in H.
  assert (Hf : (exists pid, pid ∈ [1; 2] /\
                  Datasets.getProviderInfo flaky_sdk pid
                  = Err (lit "provider down")) \/
               (exists d url, d ∈ [dataset_a; dataset_b] /\
                  Datasets.getDataSet flaky_sdk url
                    (Datasets.pdpVerifierDataSetId d)
                  = Err (lit "provider down"))).
  { left. exists 1. split; [left|reflexivity]. }
  specialize (H Hf). discriminate H.
Qed.

(** C2, amended. Once the signer and the address are present and
    [Synapse.create], [WarmStorageService.create], [getApprovedProviderIds]
    and [getClientDataSetsWithDetails] have answered, the query function
    succeeds whatever the provider and dataset-detail fetches do: it returns
    one entry per dataset, each the enrichment of a fetched dataset; an entry
    is without [data] exactly when its detail fetch failed, and a provider
    it carries is one whose fetch succeeded. *)
Theorem queryFn_catches_fetch_failures :
  forall {DataSetRest ProviderRest PDPData : Type}
         (sdk : Datasets.SDK DataSetRest ProviderRest PDPData)
         providerIds datasets,
    Datasets.signer sdk = true ->
    truthy (Datasets.or_empty (Datasets.address sdk)) = true ->
    is_ok (Datasets.Synapse_create sdk) = true ->
    is_ok (Datasets.WarmStorageService_create sdk) = true ->
    Datasets.getApprovedProviderIds sdk = Ok providerIds ->
    Datasets.getClientDataSetsWithDetails sdk = Ok datasets ->
    exists results,
      Datasets.queryFn sdk = Ok results /\
      length results = length datasets /\
      forall entry, entry ∈ results ->
        exists d ds,
          entry = Some ds /\ d ∈ datasets /\ Datasets.base ds = d /\
          (Datasets.data ds = None <->
           exists e, Datasets.getDataSet sdk
                       (Datasets.or_empty (Datasets.serviceURL ds))
                       (Datasets.pdpVerifierDataSetId d) = Err e) /\
          (forall p, Datasets.provider ds = Some p ->
                     exists pid, pid ∈ providerIds /\
                                 Datasets.getProviderInfo sdk pid = Ok p).
Proof.
  intros R1 R2 R3 sdk providerIds datasets Hs Ha Hc Hw Hp Hd.
  pose proof (queryFn_after_prelude sdk providerIds datasets Hs Ha Hc Hw Hp Hd)
    as Hq.
  cbv zeta in Hq.
  eexists. split; [exact Hq|].
  split; [unfold Datasets.datasetsWithDetails; now rewrite !length_map|].
  intros entry Hin.
  unfold Datasets.datasetsWithDetails in Hin.
  apply list_elem_of_fmap in Hin as (d0 & -> & Hd0).
  match goal with
  | |- context [Array_find ?p ?l] =>
      destruct (Array_find_is_Some p l
                  (Datasets.datasetDetails sdk
                     (Datasets.filteredProviders sdk
                        (Datasets.providerIdToAddressMap datasets) providerIds)
                     (Datasets.providerIdToServiceUrlMap
                        (Datasets.filteredProviders sdk
                           (Datasets.providerIdToAddressMap datasets) providerIds))
                     d0)) as [ds Hds]
  end.
  { apply list_elem_of_fmap. now exists d0. }
  { rewrite base_datasetDetails. apply Z.eqb_refl. }
  apply Array_find_Some in Hds as Hds'. destruct Hds' as [Hmem _].
  apply list_elem_of_fmap in Hmem as (d & -> & Hdin).
  exists d. eexists. split; [exact Hds|]. split; [exact Hdin|].
  split; [apply base_datasetDetails|]. split.
  - apply data_datasetDetails.
  - intros p. apply provider_datasetDetails.
Qed.

Lemma queryFn_catches_fetch_failures_witness :
  exists results,
    Datasets.queryFn flaky_sdk = Ok results /\
    length results = 2%nat /\
    forall entry, entry ∈ results ->
      exists d ds,
        entry = Some ds /\ d ∈ [dataset_a; dataset_b] /\ Datasets.base ds = d /\
        (Datasets.data ds = None <->
         exists e, Datasets.getDataSet flaky_sdk
                     (Datasets.or_empty (Datasets.serviceURL ds))
                     (Datasets.pdpVerifierDataSetId d) = Err e) /\
        (forall p, Datasets.provider ds = Some p ->
                   exists pid, pid ∈ [1; 2] /\
                               Datasets.getProviderInfo flaky_sdk pid = Ok p).
Proof.
  apply (queryFn_catches_fetch_failures flaky_sdk [1; 2] [dataset_a; dataset_b]);
    reflexivity.
Defined.

(** C6. The enrichment preserves the base records: for fetched datasets with
    pairwise-distinct [pdpVerifierDataSetId], a successful query returns one
    entry per dataset, in the order of the datasets, and the entry at a
    position carries the dataset at that position unchanged; an entry has
    nothing besides the dataset but [provider], [serviceURL] and [data]. *)
Theorem queryFn_preserves_datasets :
  forall {DataSetRest ProviderRest PDPData : Type}
         (sdk : Datasets.SDK DataSetRest ProviderRest PDPData)
         datasets results,
    Datasets.getClientDataSetsWithDetails sdk = Ok datasets ->
    NoDup (map Datasets.pdpVerifierDataSetId datasets) ->
    Datasets.queryFn sdk = Ok results ->
    length results = length datasets /\
    forall (i : nat) d,
      datasets !! i = Some d ->
      exists ds,
        results !! i = Some (Some ds) /\ Datasets.base ds = d /\
        ds = {| Datasets.base := d; Datasets.provider := Datasets.provider ds;
                Datasets.serviceURL := Datasets.serviceURL ds;
                Datasets.data := Datasets.data ds |}.
Proof.
  intros R1 R2 R3 sdk datasets results Hd Hnd Hq.
  destruct (queryFn_Ok_inv sdk results Hq)
    as (Hs & Ha & Hc & Hw & pids & ds' & Hp & Hd').
  rewrite Hd in Hd'. injection Hd' as <-.
  pose proof (queryFn_after_prelude sdk pids datasets Hs Ha Hc Hw Hp Hd) as Hq'.
  cbv zeta in Hq'. rewrite Hq' in Hq. clear Hq'.
  injection Hq as <-.
  unfold Datasets.datasetsWithDetails.
  split; [now rewrite !length_map|].
  intros i d Hi.
  eexists. rewrite list_lookup_fmap, Hi. simpl.
  rewrite (Array_find_unique_key _ Datasets.pdpVerifierDataSetId
             (fun r => Datasets.pdpVerifierDataSetId (Datasets.base r)));
    [ |intros a; now rewrite base_datasetDetails|exact Hnd
      |now apply list_elem_of_lookup_2 in Hi].
  split; [reflexivity|]. split; [apply base_datasetDetails|].
  match goal with
  | |- ?x = _ =>
      assert (Hb : Datasets.base x = d) by apply base_datasetDetails;
      destruct x; simpl in *; now subst
  end.
Qed.

Lemma queryFn_preserves_datasets_witness :
  length flaky_results = 2%nat /\
  exists ds,
    flaky_results !! 1%nat = Some (Some ds) /\ Datasets.base ds = dataset_b.
Proof.
  destruct (queryFn_preserves_datasets flaky_sdk [dataset_a; dataset_b]
              flaky_results eq_refl) as [Hlen Hat].
  - simpl. apply NoDup_cons. split; [|apply NoDup_singleton].
    intros H. apply elem_of_cons in H as [H|H]; [discriminate|inversion H].
  - vm_compute. reflexivity.
  - split; [exact Hlen|].
    destruct (Hat 1%nat dataset_b eq_refl) as (ds & H1 & H2 & _).
    now exists ds.
Defined.

(** ** Challenge progress *)

Section ProgressFacts.
Import Progress.

Lemma transactionKey_not_progress_key c :
  transactionKey c <> WORKSHOP_CONFIG.PROGRESS_STORAGE_KEY.
Proof. destruct c; discriminate. Qed.

Lemma progress_dispatch_START_SAVE sys :
  progress (hook (dispatch START_SAVE sys)) = progress (hook sys).
Proof. reflexivity. Qed.

Lemma updated_distinct (l : list ChallengeType) c :
  NoDup l ->
  NoDup (if Array_includes l c then l else l ++ [c]).
Proof.
  intros H. unfold Array_includes.
  destruct (bool_decide (c ∈ l)) eqn:E; [exact H|].
  apply bool_decide_eq_false in E.
  apply NoDup_app. split; [exact H|]. split.
  - intros x Hx Hc. apply list_elem_of_singleton in Hc. now subst.
  - apply NoDup_singleton.
Qed.

Lemma updated_contains (l : list ChallengeType) c :
  c ∈ (if Array_includes l c then l else l ++ [c]).
Proof.
  unfold Array_includes.
  destruct (bool_decide (c ∈ l)) eqn:E.
  - now apply bool_decide_eq_true in E.
  - apply elem_of_app. right. now left.
Qed.

Lemma stored_distinct_insert_progress ls p :
  NoDup (completedChallenges p) ->
  stored_distinct (<[WORKSHOP_CONFIG.PROGRESS_STORAGE_KEY := SProgress p]> ls).
Proof.
  intros Hp q Hq. rewrite lookup_insert_eq in Hq. now injection Hq as <-.
Qed.

Lemma stored_distinct_insert_string ls k h :
  stored_distinct ls -> stored_distinct (<[k := SString h]> ls).
Proof.
  intros H q Hq. rewrite lookup_insert in Hq.
  destruct (decide (k = WORKSHOP_CONFIG.PROGRESS_STORAGE_KEY));
    [discriminate|now apply H].
Qed.

Lemma stored_distinct_delete ls k :
  stored_distinct ls -> stored_distinct (delete k ls).
Proof.
  intros H q Hq. apply lookup_delete_Some in Hq as [_ Hq]. now apply H.
Qed.

Lemma stored_distinct_remove {T} (codec : Codec T) env k d ls :
  stored_distinct ls ->
  stored_distinct (remove (createStorageUtil codec env k d) ls).
Proof.
  intros H. simpl. destruct (hasWindow env); simpl;
    [now apply stored_distinct_delete|exact H].
Qed.

Lemma get_progress_distinct env loaded ls :
  stored_distinct ls ->
  NoDup (completedChallenges (get (progressStorage env loaded) ls)).
Proof.
  intros H. simpl. destruct (hasWindow env); simpl; [|apply NoDup_nil_2].
  destruct (ls !! WORKSHOP_CONFIG.PROGRESS_STORAGE_KEY) as [[p| | |]|] eqn:E;
    simpl; try apply NoDup_nil_2.
  now apply H.
Qed.

Lemma completeChallenge_distinct env loaded captured c tx now1 now2 sys :
  NoDup (completedChallenges captured) ->
  distinct sys ->
  distinct (fst (completeChallenge env loaded captured c tx now1 now2 sys)).
Proof.
  intros Hcap [Hmem Hst].
  pose proof (updated_distinct _ c Hcap) as Hup.
  unfold completeChallenge.
  cbn [set progressStorage createStorageUtil stringify progressCodec
       getTransactionStorage transactionCodec].
  destruct (hasWindow env); cbn [negb].
  - destruct (setItem_error env _ _ _) as [msg|]; [split; assumption|].
    destruct tx as [[|u h]|].
    + split; [exact Hup|now apply stored_distinct_insert_progress].
    + cbn [localStorage dispatch with_storage hook].
      destruct (setItem_error env _ _ _) as [msg|].
      * split; [exact Hmem|now apply stored_distinct_insert_progress].
      * split; [exact Hup|].
        now apply stored_distinct_insert_string,
          stored_distinct_insert_progress.
    + split; [exact Hup|now apply stored_distinct_insert_progress].
  - destruct tx as [[|u h]|]; (split; [exact Hup|exact Hst]).
Qed.

Lemma resetProgress_distinct env loaded now1 now2 sys :
  distinct sys -> distinct (resetProgress env loaded now1 now2 sys).
Proof.
  intros [_ Hst]. split; [apply NoDup_nil_2|].
  unfold resetProgress.
  cbn [localStorage dispatch with_storage fold_left ChallengeType_values].
  repeat apply stored_distinct_remove. exact Hst.
Qed.

Lemma ChallengeType_values_distinct : NoDup ChallengeType_values.
Proof.
  unfold ChallengeType_values.
  repeat (apply NoDup_cons_2;
          [rewrite ?not_elem_of_cons; repeat split;
           first [discriminate|apply not_elem_of_nil]|]).
  apply NoDup_nil_2.
Qed.

Lemma distinct_challenges_length (l : list ChallengeType) :
  NoDup l -> (length l <= 5)%nat.
Proof.
  intros H.
  change 5%nat with (length ChallengeType_values).
  apply submseteq_length, NoDup_submseteq; [exact H|].
  intros c _. destruct c; unfold ChallengeType_values;
    repeat (first [left|right]; try done).
Qed.

End ProgressFacts.

(** C5. The progress record is persisted to local storage: when
    [completeChallenge(id, tx)] resolves in the browser, the item
    "fil-workshop-progress" holds a progress object that contains [id], has
    the completion time as [lastUpdated] and is the progress then in memory,
    and a supplied (non-empty) transaction hash is the item
    "challenge-<id>-tx"; when it rejects, the progress in memory is the one
    from before and the error is recorded. *)
Theorem completeChallenge_persists :
  forall env loaded captured (c : ChallengeType) tx now1 now2 sys,
    let out := Progress.completeChallenge env loaded captured c tx now1 now2 sys in
    (Progress.hasWindow env = true -> is_ok (snd out) = true ->
     exists p,
       Progress.localStorage (fst out) !! lit "fil-workshop-progress"
       = Some (Progress.SProgress p) /\
       c ∈ completedChallenges p /\
       lastUpdated p = now1 /\
       Progress.progress (Progress.hook (fst out)) = p /\
       forall h, tx = Some h -> h <> [] ->
         Progress.localStorage (fst out)
           !! (lit "challenge-" ++ ChallengeType_value c ++ lit "-tx")
         = Some (Progress.SString h)) /\
    (is_ok (snd out) = false ->
     Progress.progress (Progress.hook (fst out))
     = Progress.progress (Progress.hook sys) /\
     is_Some (Progress.error (Progress.hook (fst out)))).
Proof.
  intros env loaded captured c tx now1 now2 sys.
  unfold Progress.completeChallenge.
  cbn [Progress.set Progress.progressStorage Progress.createStorageUtil
       Progress.stringify Progress.progressCodec
       Progress.getTransactionStorage Progress.transactionCodec].
  cbv zeta.
  destruct (Progress.hasWindow env); cbn [negb].
  - destruct (Progress.setItem_error env _ _ _) as [msg|].
    { split; [discriminate|]. intros _. split; [reflexivity|]. simpl. eauto. }
    destruct tx as [[|u h]|].
    + split; [|discriminate]. intros _ _. eexists.
      split; [apply lookup_insert_eq|]. split; [apply updated_contains|].
      repeat split. intros h [= <-] Hne. now elim Hne.
    + cbn [Progress.localStorage Progress.dispatch Progress.with_storage
           Progress.hook].
      destruct (Progress.setItem_error env _ _ _) as [msg|].
      { split; [discriminate|]. intros _. split; [reflexivity|]. simpl. eauto. }
      split; [|discriminate]. intros _ _. eexists. split.
      { cbn [Progress.localStorage Progress.dispatch Progress.with_storage fst].
        rewrite lookup_insert_ne by apply transactionKey_not_progress_key.
        apply lookup_insert_eq. }
      split; [apply updated_contains|]. repeat split.
      intros h' [= <-] _. apply lookup_insert_eq.
    + split; [|discriminate]. intros _ _. eexists.
      split; [apply lookup_insert_eq|]. split; [apply updated_contains|].
      repeat split. intros h [=].
  - split; [discriminate|].
    destruct tx as [[|u h]|]; discriminate.
Qed.

Lemma completeChallenge_persists_witness :
  exists p,
    Progress.localStorage after_first_challenge !! lit "fil-workshop-progress"
    = Some (Progress.SProgress p) /\
    TREASURY_MASTER ∈ completedChallenges p /\
    lastUpdated p = 2000 /\
    Progress.progress (Progress.hook after_first_challenge) = p /\
    forall h, Some (lit "0xabc") = Some h -> h <> [] ->
      Progress.localStorage after_first_challenge
        !! (lit "challenge-" ++ ChallengeType_value TREASURY_MASTER ++ lit "-tx")
      = Some (Progress.SString h).
Proof.
  apply (proj1 (completeChallenge_persists browser 1000
                  (Progress.progress (Progress.hook fresh_system))
                  TREASURY_MASTER (Some (lit "0xabc")) 2000 2001 fresh_system));
    reflexivity.
Defined.

(** C8. Completing a challenge that is already in the list does not always
    leave the list as it is.  The callback closes over the progress of the
    render that created it, and the success page calls it from its mount
    effect, in the same turn as the load effect: over a store that lists
    TREASURY_MASTER and STORAGE_SENTINEL the page for TREASURY_MASTER loads
    both, and its [completeChallenge], still holding the empty list of the
    first render, stores and shows TREASURY_MASTER alone.  STORAGE_SENTINEL
    is gone and DATA_GUARDIAN is locked again. *)
Theorem stale_completeChallenge_drops_challenges :
  let mounted := Progress.mount 6000 after_two_challenges in
  let loaded := Progress.loadEffect browser 1000 mounted in
  let out := Progress.completeChallenge browser 1000
               (Progress.progress (Progress.hook mounted))
               TREASURY_MASTER None 7000 7001 loaded in
  completedChallenges (Progress.progress (Progress.hook loaded))
  = [TREASURY_MASTER; STORAGE_SENTINEL] /\
  snd out = Ok tt /\
  completedChallenges (Progress.progress (Progress.hook (fst out)))
  = [TREASURY_MASTER] /\
  (exists p,
     Progress.localStorage (fst out) !! lit "fil-workshop-progress"
     = Some (Progress.SProgress p) /\
     completedChallenges p = [TREASURY_MASTER]) /\
  Progress.isChallengeUnlocked browser loaded DATA_GUARDIAN = true /\
  Progress.isChallengeUnlocked browser (fst out) DATA_GUARDIAN = false.
Proof.
  cbv zeta. repeat split; try (vm_compute; reflexivity).
  eexists. split; vm_compute; reflexivity.
Qed.

(* ===================================================================== *)
(** * Further properties of the modelled code                             *)
(* ===================================================================== *)

(** ** Challenge progress: persistence, status and attempts *)

Section ProgressMore.
Import Progress.

(** What a resolved [completeChallenge] leaves behind. *)
Lemma completeChallenge_resolved env loaded captured c tx now1 now2 sys :
  is_ok (snd (completeChallenge env loaded captured c tx now1 now2 sys)) = true ->
  let sys' := fst (completeChallenge env loaded captured c tx now1 now2 sys) in
  let p := updatedProgress captured c now1 now2 in
  progress (hook sys') = p /\
  attempts (hook sys') = attempts (hook sys) /\
  (hasWindow env = true ->
   localStorage sys' !! WORKSHOP_CONFIG.PROGRESS_STORAGE_KEY = Some (SProgress p) /\
   (forall h, tx = Some h -> h <> [] ->
      localStorage sys' !! transactionKey c = Some (SString h)) /\
   (forall k, k <> WORKSHOP_CONFIG.PROGRESS_STORAGE_KEY ->
              k <> transactionKey c ->
              localStorage sys' !! k = localStorage sys !! k)).
Proof.
  unfold completeChallenge.
  cbn [set progressStorage createStorageUtil stringify progressCodec
       getTransactionStorage transactionCodec].
  fold (updatedProgress captured c now1 now2).
  destruct (hasWindow env); cbn [negb].
  - destruct (setItem_error env _ _ _) as [msg|]; [discriminate|].
    destruct tx as [[|u h]|].
    + intros _. repeat split; try reflexivity.
      * apply lookup_insert_eq.
      * intros h [= <-] Hne. now elim Hne.
      * intros k Hk _. cbn. now rewrite lookup_insert_ne.
    + cbn [localStorage dispatch with_storage hook].
      destruct (setItem_error env _ _ _) as [msg|]; [discriminate|].
      intros _. repeat split; try reflexivity.
      * cbn. rewrite lookup_insert_ne by apply transactionKey_not_progress_key.
        apply lookup_insert_eq.
      * intros h' [= <-] _. cbn. apply lookup_insert_eq.
      * intros k Hk Hk'. cbn. now rewrite !lookup_insert_ne.
    + intros _. repeat split; try reflexivity.
      * apply lookup_insert_eq.
      * intros h [=].
      * intros k Hk _. cbn. now rewrite lookup_insert_ne.
  - destruct tx as [[|u h]|]; intros _; (split; [reflexivity|]);
      (split; [reflexivity|discriminate]).
Qed.


Lemma delete_lookup_None (k k' : jsstring) (m : gmap jsstring Stored) :
  k = k' \/ m !! k' = None -> delete k m !! k' = None.
Proof.
  intros [->|H]; [apply lookup_delete_eq|].
  rewrite lookup_delete. now case_decide.
Qed.

Lemma status_of_challenge env sys c :
  getChallengeStatus env sys c
  = let done := completedChallenges (progress (hook sys)) in
    if Array_includes done c then
      Completed (lastUpdated (progress (hook sys)))
                (match get (getTransactionStorage env c) (localStorage sys) with
                 | Some (u :: r) => u :: r
                 | _ => []
                 end)
    else match predecessor c with
         | Some p => if Array_includes done p then NotStarted else Locked (Some p)
         | None => NotStarted
         end.
Proof.
  unfold getChallengeStatus. cbv zeta.
  destruct (Array_includes _ c); [reflexivity|].
  destruct c;
    match goal with
    | |- context [Array_find ?f WORKSHOP_CHALLENGES] =>
        let v := eval vm_compute in (Array_find f WORKSHOP_CHALLENGES) in
        change (Array_find f WORKSHOP_CHALLENGES) with v
    end;
    cbn [prerequisites length existsb Array_find predecessor];
    try reflexivity;
    match goal with
    | |- context [Array_includes ?l ?x] => now destruct (Array_includes l x)
    end.
Qed.

(** The boolean [isChallengeUnlocked] read as a proposition on the list of
    completed challenges. *)
Lemma isChallengeUnlocked_iff :
  forall env sys (c : ChallengeType),
    isChallengeUnlocked env sys c = true <->
    c ∈ completedChallenges (progress (hook sys)) \/
    (match predecessor c with
     | Some p => p ∈ completedChallenges (progress (hook sys))
     | None => True
     end).
Proof.
  intros env sys c. unfold isChallengeUnlocked.
  rewrite status_of_challenge. cbv zeta. unfold Array_includes.
  destruct (bool_decide (c ∈ completedChallenges (progress (hook sys)))) eqn:Ec.
  - apply bool_decide_eq_true in Ec. split; [now left|reflexivity].
  - apply bool_decide_eq_false in Ec.
    destruct (predecessor c) as [p|].
    + destruct (bool_decide (p ∈ completedChallenges (progress (hook sys))))
        eqn:Ep.
      * apply bool_decide_eq_true in Ep. split; [now right|reflexivity].
      * apply bool_decide_eq_false in Ep.
        split; [discriminate|intros [H|H]; contradiction].
    + split; [now right|reflexivity].
Qed.

(** Unlocking follows the chain of the challenge table: a challenge is
    unlocked exactly when it is completed, or has no predecessor, or its
    predecessor is completed; a locked status names the predecessor, which is
    then not completed. *)
Theorem isChallengeUnlocked_spec :
  forall env sys (c : ChallengeType),
    let done := completedChallenges (progress (hook sys)) in
    (isChallengeUnlocked env sys c = true <->
     c ∈ done \/ (match predecessor c with
                  | Some p => p ∈ done
                  | None => True
                  end)) /\
    (forall m, getChallengeStatus env sys c = Locked m ->
               m = predecessor c /\
               exists p, m = Some p /\ (p ∉ done) /\ (c ∉ done)).
Proof.
  intros env sys c done. unfold isChallengeUnlocked.
  rewrite status_of_challenge. cbv zeta. fold done.
  unfold Array_includes.
  destruct (bool_decide (c ∈ done)) eqn:Ec.
  - apply bool_decide_eq_true in Ec.
    split; [split; [now left|reflexivity]|discriminate].
  - apply bool_decide_eq_false in Ec.
    destruct (predecessor c) as [p|].
    + destruct (bool_decide (p ∈ done)) eqn:Ep.
      * apply bool_decide_eq_true in Ep.
        split; [split; [now right|reflexivity]|discriminate].
      * apply bool_decide_eq_false in Ep. split.
        -- split; [discriminate|intros [H|H]; contradiction].
        -- intros m [= <-]. split; [reflexivity|]. now exists p.
    + split; [split; [now right|reflexivity]|discriminate].
Qed.

(** After a resolved [completeChallenge(c, tx)] in the browser the status of
    [c] is "completed" with the stored hash, and every challenge completed
    before reports the new completion time as its [completedAt]: the time is
    the progress's single [lastUpdated]. *)
Theorem status_after_completeChallenge :
  forall env loaded captured (c : ChallengeType) h now1 now2 sys,
    hasWindow env = true ->
    h <> [] ->
    is_ok (snd (completeChallenge env loaded captured c (Some h) now1 now2 sys))
    = true ->
    let sys' := fst (completeChallenge env loaded captured c (Some h) now1 now2 sys) in
    getChallengeStatus env sys' c = Completed now1 h /\
    forall c', c' ∈ completedChallenges captured ->
      exists h', getChallengeStatus env sys' c' = Completed now1 h'.
Proof.
  intros env loaded captured c h now1 now2 sys Hw Hh Hok sys'.
  destruct (completeChallenge_resolved env loaded captured c (Some h)
              now1 now2 sys Hok) as (Hp & _ & Hst).
  destruct (Hst Hw) as (_ & Htx & _).
  fold sys' in Hp, Htx.
  assert (Hin : forall x, x = c \/ x ∈ completedChallenges captured ->
                          x ∈ completedChallenges (progress (hook sys'))).
  { intros x Hx. rewrite Hp. unfold updatedProgress; cbn [completedChallenges].
    unfold Array_includes.
    destruct (bool_decide (c ∈ completedChallenges captured)) eqn:E.
    - apply bool_decide_eq_true in E. destruct Hx as [->|Hx]; assumption.
    - apply elem_of_app. destruct Hx as [->|Hx]; [right; now left|now left]. }
  split.
  - rewrite status_of_challenge. cbv zeta. unfold Array_includes.
    rewrite bool_decide_eq_true_2 by (apply Hin; now left).
    rewrite Hp. cbn [lastUpdated updatedProgress]. f_equal.
    cbn [get getTransactionStorage createStorageUtil]. rewrite Hw. cbn [negb].
    rewrite (Htx h eq_refl Hh). cbn. destruct h; [now elim Hh|reflexivity].
  - intros c' Hc'. rewrite status_of_challenge. cbv zeta. unfold Array_includes.
    rewrite bool_decide_eq_true_2 by (apply Hin; now right).
    rewrite Hp. cbn [lastUpdated updatedProgress]. eauto.
Qed.

(** Completing a challenge with an up-to-date callback never takes a
    challenge out of the list, so it never locks a challenge that was
    unlocked, whether the save succeeds or fails. *)
Theorem completeChallenge_keeps_unlocked :
  forall env env' loaded (c : ChallengeType) tx now1 now2 sys,
    let sys' := fst (completeChallenge env loaded (progress (hook sys))
                                       c tx now1 now2 sys) in
    (forall x, x ∈ completedChallenges (progress (hook sys)) ->
               x ∈ completedChallenges (progress (hook sys'))) /\
    (forall c', isChallengeUnlocked env' sys c' = true ->
                isChallengeUnlocked env' sys' c' = true).
Proof.
  intros env env' loaded c tx now1 now2 sys sys'.
  assert (Hsub : forall x, x ∈ completedChallenges (progress (hook sys)) ->
                           x ∈ completedChallenges (progress (hook sys'))).
  { intros x Hx.
    destruct (snd (completeChallenge env loaded (progress (hook sys))
                                     c tx now1 now2 sys)) as [[]|msg] eqn:E.
    - destruct (completeChallenge_resolved env loaded (progress (hook sys))
                  c tx now1 now2 sys) as (Hp & _); [now rewrite E|].
      fold sys' in Hp. rewrite Hp. unfold updatedProgress.
      cbn [completedChallenges].
      destruct (Array_includes _ c); [exact Hx|apply elem_of_app; now left].
    - replace (progress (hook sys')) with (progress (hook sys)); [exact Hx|].
      unfold sys'. revert E. unfold completeChallenge.
      cbn [set progressStorage createStorageUtil stringify progressCodec
           getTransactionStorage transactionCodec].
      destruct (hasWindow env); cbn [negb].
      + destruct (setItem_error env _ _ _); [reflexivity|].
        destruct tx as [[|u h]|]; try discriminate.
        cbn [localStorage dispatch with_storage hook].
        destruct (setItem_error env _ _ _); [reflexivity|discriminate].
      + destruct tx as [[|u h]|]; discriminate. }
  split; [exact Hsub|].
  intros c' Hun.
  apply (isChallengeUnlocked_iff env' sys c') in Hun.
  apply (isChallengeUnlocked_iff env' sys' c').
  destruct Hun as [H|H]; [left; now apply Hsub|].
  right. destruct (predecessor c'); [now apply Hsub|exact I].
Qed.

(** [resetProgress] in the browser removes the progress item, the attempts
    item and the five transaction items, empties the lists in memory, leaves
    only the first challenge unlocked, and a hook mounted afterwards loads
    the default progress. *)
Theorem resetProgress_clears :
  forall env loaded loaded' now1 now2 now sys,
    hasWindow env = true ->
    let sys' := resetProgress env loaded now1 now2 sys in
    localStorage sys' !! lit "fil-workshop-progress" = None /\
    localStorage sys' !! lit "fil-workshop-progress-attempts" = None /\
    (forall c, localStorage sys' !! transactionKey c = None) /\
    completedChallenges (progress (hook sys')) = [] /\
    attempts (hook sys') = [] /\
    (forall c, isChallengeUnlocked env sys' c = true <-> c = TREASURY_MASTER) /\
    progress (hook (loadEffect env loaded' (mount now sys')))
    = defaultProgress loaded'.
Proof.
  intros env loaded loaded' now1 now2 now sys Hw sys'.
  assert (Hls : localStorage sys'
    = delete (transactionKey DECRYPTION_EXPERT)
        (delete (transactionKey NFT_ARCHITECT)
          (delete (transactionKey DATA_GUARDIAN)
            (delete (transactionKey STORAGE_SENTINEL)
              (delete (transactionKey TREASURY_MASTER)
                (delete (WORKSHOP_CONFIG.PROGRESS_STORAGE_KEY ++ lit "-attempts")
                  (delete WORKSHOP_CONFIG.PROGRESS_STORAGE_KEY
                          (localStorage sys)))))))).
  { unfold sys', resetProgress.
    cbn [localStorage dispatch with_storage fold_left ChallengeType_values
         remove progressStorage attemptsStorage getTransactionStorage
         createStorageUtil].
    rewrite Hw. reflexivity. }
  assert (Hkey : localStorage sys' !! WORKSHOP_CONFIG.PROGRESS_STORAGE_KEY = None).
  { rewrite Hls. do 6 (apply delete_lookup_None; right).
    apply lookup_delete_eq. }
  split; [exact Hkey|]. split.
  { rewrite Hls. do 5 (apply delete_lookup_None; right).
    apply delete_lookup_None. now left. }
  split.
  { intros c. rewrite Hls.
    destruct c;
      repeat (apply delete_lookup_None; first [left; reflexivity|right]). }
  split; [reflexivity|]. split; [reflexivity|]. split.
  - intros c.
    rewrite (isChallengeUnlocked_iff env sys' c). change (completedChallenges (progress (hook sys'))) with
      (@nil ChallengeType).
    destruct c; cbn [predecessor]; split;
      try (intros _; reflexivity); try discriminate;
      try (intros _; now right);
      intros [H|H]; inversion H.
  - unfold loadEffect, mount.
    cbn [dispatch hook localStorage challengeVerificationReducer progress
         get progressStorage createStorageUtil].
    rewrite Hw. cbn [negb]. now rewrite Hkey.
Qed.

(** [validateFlag] with a store that takes every write: it returns the
    verdict of the validator, appends one attempt whose [success] is that
    verdict, persists the attempts it closed over followed by that attempt,
    and does not touch the progress. *)
Theorem validateFlag_records_attempt :
  forall env captured (c : ChallengeType) flag startTime now1 now2 sys,
    hasWindow env = true ->
    (forall ls k v, setItem_error env ls k v = None) ->
    let out := validateFlag env captured c flag startTime now1 now2 sys in
    snd out = Flags.validateChallengeFlag c flag /\
    attempts (hook (fst out))
    = attempts (hook sys) ++ [firstAttempt c flag startTime now1] /\
    localStorage (fst out) !! lit "fil-workshop-progress-attempts"
    = Some (SAttempts (captured ++ [firstAttempt c flag startTime now1])) /\
    progress (hook (fst out)) = progress (hook sys) /\
    error (hook (fst out)) = None.
Proof.
  intros env captured c flag startTime now1 now2 sys Hw Hfree.
  unfold validateFlag.
  cbn [set attemptsStorage createStorageUtil stringify attemptsCodec].
  rewrite Hw. cbn [negb]. rewrite Hfree.
  fold (firstAttempt c flag startTime now1).
  repeat split; try reflexivity.
  cbn. apply lookup_insert_eq.
Qed.

(** [validateFlag] with a store that refuses the write: whatever the flag,
    also a valid one, the result is invalid with the storage error as its
    message; two attempts are appended, the verdict's and a failed one; the
    store and the progress stay as they were. *)
Theorem validateFlag_storage_failure :
  forall env captured (c : ChallengeType) flag startTime now1 now2 sys message,
    hasWindow env = true ->
    (forall ls k v, setItem_error env ls k v = Some message) ->
    let out := validateFlag env captured c flag startTime now1 now2 sys in
    snd out
    = Invalid (lit "Failed to save progress: " ++ message)
              (Some (lit "Please try again or check the challenge instructions")) /\
    (exists failedAttempt,
       attempts (hook (fst out))
       = attempts (hook sys) ++ [firstAttempt c flag startTime now1; failedAttempt] /\
       attempt_success failedAttempt = false) /\
    localStorage (fst out) = localStorage sys /\
    progress (hook (fst out)) = progress (hook sys).
Proof.
  intros env captured c flag startTime now1 now2 sys message Hw Hfull.
  unfold validateFlag.
  cbn [set attemptsStorage createStorageUtil stringify attemptsCodec].
  rewrite Hw. cbn [negb]. rewrite Hfull.
  fold (firstAttempt c flag startTime now1).
  repeat split; try reflexivity.
  eexists. split; [cbn; rewrite <- app_assoc; reflexivity|reflexivity].
Qed.

(** The samples keep the invariant. *)
Lemma after_two_challenges_distinct : distinct after_two_challenges.
Proof.
  unfold after_two_challenges, after_first_challenge.
  assert (Hfresh : distinct fresh_system).
  { split; [apply NoDup_nil_2|].
    intros p Hp. cbn [localStorage fresh_system] in Hp.
    now rewrite lookup_empty in Hp. }
  apply completeChallenge_distinct;
    [|apply completeChallenge_distinct; [apply NoDup_nil_2|exact Hfresh]].
  apply completeChallenge_distinct; [apply NoDup_nil_2|exact Hfresh].
Qed.


End ProgressMore.



Lemma isChallengeUnlocked_spec_witness :
  Progress.isChallengeUnlocked browser after_first_challenge STORAGE_SENTINEL
  = true.
Proof.
  apply (proj1 (isChallengeUnlocked_spec browser after_first_challenge
                  STORAGE_SENTINEL)).
  right. left.
Defined.

Lemma status_after_completeChallenge_witness :
  Progress.getChallengeStatus browser after_two_challenges STORAGE_SENTINEL
  = Completed 5000 (lit "Qmdef") /\
  exists h', Progress.getChallengeStatus browser after_two_challenges
               TREASURY_MASTER = Completed 5000 h'.
Proof.
  destruct (status_after_completeChallenge browser 1000
              (Progress.progress (Progress.hook after_first_challenge))
              STORAGE_SENTINEL (lit "Qmdef") 5000 5001 after_first_challenge)
    as [H1 H2]; [reflexivity|discriminate|reflexivity|].
  split; [exact H1|]. apply H2. left.
Defined.

Lemma completeChallenge_keeps_unlocked_witness :
  Progress.isChallengeUnlocked browser after_two_challenges STORAGE_SENTINEL
  = true.
Proof.
  apply (proj2 (completeChallenge_keeps_unlocked browser browser 1000
                  STORAGE_SENTINEL (Some (lit "Qmdef")) 5000 5001
                  after_first_challenge)).
  reflexivity.
Defined.

Lemma resetProgress_clears_witness :
  Progress.localStorage
    (Progress.resetProgress browser 1000 8000 8001 after_two_challenges)
    !! lit "fil-workshop-progress" = None.
Proof.
  refine (proj1 (resetProgress_clears browser 1000 1000 8000 8001 9000
                   after_two_challenges _)).
  reflexivity.
Defined.

Lemma validateFlag_records_attempt_witness :
  snd (Progress.validateFlag browser [] NFT_ARCHITECT (lit "42") 10 11 12
         fresh_system)
  = Flags.validateChallengeFlag NFT_ARCHITECT (lit "42").
Proof.
  refine (proj1 (validateFlag_records_attempt browser [] NFT_ARCHITECT
                   (lit "42") 10 11 12 fresh_system _ _)); reflexivity.
Defined.

Lemma validateFlag_storage_failure_witness :
  valid (Flags.validateChallengeFlag NFT_ARCHITECT (lit "42")) = true /\
  snd (Progress.validateFlag full_browser [] NFT_ARCHITECT (lit "42") 10 11 12
         fresh_system)
  = Invalid (lit "Failed to save progress: " ++ lit "QuotaExceededError")
            (Some (lit "Please try again or check the challenge instructions")).
Proof.
  split; [reflexivity|].
  refine (proj1 (validateFlag_storage_failure full_browser [] NFT_ARCHITECT
                   (lit "42") 10 11 12 fresh_system
                   (lit "QuotaExceededError") _ _)); reflexivity.
Defined.

(** ** The workshop context *)

(** Navigation is gated by the verification hook: a challenge that is
    unlocked becomes the current one and the error is cleared; a locked one
    leaves the current challenge as it was and puts the "is locked" message
    into the UI state.  Nothing else of the state changes either way. *)
Theorem navigateToChallenge_gated :
  forall env sys loaded (c : ChallengeType) (state : WorkshopContext.WorkshopState),
    let state' :=
      WorkshopContext.navigateToChallenge loaded
        (Progress.isChallengeUnlocked env sys) c state in
    (Progress.isChallengeUnlocked env sys c = true ->
     WorkshopContext.currentChallenge state' = Some c /\
     WorkshopContext.error (WorkshopContext.ui state') = None) /\
    (Progress.isChallengeUnlocked env sys c = false ->
     WorkshopContext.currentChallenge state'
     = WorkshopContext.currentChallenge state /\
     WorkshopContext.error (WorkshopContext.ui state')
     = Some (lit "Challenge " ++ ChallengeType_value c
             ++ lit " is locked. Complete prerequisites first.")) /\
    WorkshopContext.progress state' = WorkshopContext.progress state /\
    WorkshopContext.challenges state' = WorkshopContext.challenges state /\
    WorkshopContext.attempts state' = WorkshopContext.attempts state.
Proof.
  intros env sys loaded c state. cbv zeta.
  unfold WorkshopContext.navigateToChallenge.
  assert (Hfind : is_Some (Array_find (fun x => bool_decide (id x = c))
                                      WORKSHOP_CHALLENGES))
    by (destruct c; vm_compute; eauto).
  destruct Hfind as [ch ->].
  destruct (Progress.isChallengeUnlocked env sys c); cbn [negb];
    repeat split; try discriminate; reflexivity.
Qed.

Lemma navigateToChallenge_gated_witness :
  WorkshopContext.currentChallenge
    (WorkshopContext.navigateToChallenge 0
       (Progress.isChallengeUnlocked browser fresh_system) STORAGE_SENTINEL
       (WorkshopContext.initialWorkshopState 0))
  = None /\
  WorkshopContext.currentChallenge
    (WorkshopContext.navigateToChallenge 0
       (Progress.isChallengeUnlocked browser after_first_challenge)
       STORAGE_SENTINEL (WorkshopContext.initialWorkshopState 0))
  = Some STORAGE_SENTINEL.
Proof.
  split.
  - refine (proj1 (proj1 (proj2 (navigateToChallenge_gated browser fresh_system 0
                                   STORAGE_SENTINEL
                                   (WorkshopContext.initialWorkshopState 0))) _)).
    reflexivity.
  - refine (proj1 (proj1 (navigateToChallenge_gated browser after_first_challenge
                            0 STORAGE_SENTINEL
                            (WorkshopContext.initialWorkshopState 0)) _)).
    reflexivity.
Defined.



(** ** The upload hook without interference *)



(** An upload of a readable, valid file that nobody interferes with
    resolves after eight turns: the progress state is 'completed' with the
    file's size in its result, one successful attempt is recorded, the one
    controller that was created is not aborted and the reference to it is
    cleared. *)
Theorem upload_completes :
  forall type_matches defaultConfig file config rendered fileData,
    Upload.convertFileInput file = Ok fileData ->
    Upload.validateFileInternal type_matches fileData
      (Upload.mergeConfig defaultConfig config) = [] ->
    let r := uploadResult (Upload.size fileData) in
    Upload.run type_matches defaultConfig file config rendered eight_resumes
               (Upload.Called, Upload.initial)
    = (Upload.Resolved r,
       {| Upload.progressState := Upload.completed r;
          Upload.cancelTokenRef := None;
          Upload.controllers := [false];
          Upload.recorded := [true] |}).
Proof.
  intros tm dc file config rendered fileData Hread Hvalid r.
  unfold eight_resumes, Upload.run.
  cbn [fold_left Upload.step Upload.resume fst snd].
  rewrite Hread, Hvalid. reflexivity.
Qed.

Lemma upload_completes_witness :
  fst (Upload.run (fun a b => str_eqb a b) ten_byte_limit eleven_bytes
         limit_undefined Upload.idle eight_resumes
         (Upload.Called, Upload.initial))
  = Upload.Resolved (uploadResult 11).
Proof.
  rewrite (upload_completes (fun a b => str_eqb a b) ten_byte_limit
             eleven_bytes limit_undefined Upload.idle
             {| Upload.fileName := lit "b.txt"; Upload.size := 11;
                Upload.type := lit "text/plain" |});
    reflexivity.
Defined.

(** An upload of a readable file that fails validation rejects at its
    second turn with the validation errors: no controller is ever created,
    one failed attempt is recorded, and the 'failed' state shows the progress
    of the render the mutation closed over, not the 10 of the converting
    step. *)
Theorem upload_rejects_invalid_file :
  forall type_matches defaultConfig file config rendered fileData e es,
    Upload.convertFileInput file = Ok fileData ->
    Upload.validateFileInternal type_matches fileData
      (Upload.mergeConfig defaultConfig config) = e :: es ->
    let out := Upload.run type_matches defaultConfig file config rendered
                 [Upload.Resume; Upload.Resume] (Upload.Called, Upload.initial) in
    fst out = Upload.Rejected (Upload.FileValidationFailed (e :: es)) /\
    Upload.controllers (snd out) = [] /\
    Upload.cancelTokenRef (snd out) = None /\
    Upload.recorded (snd out) = [false] /\
    Upload.progress_of (Upload.progressState (snd out))
    = Upload.progress_of rendered /\
    Upload.canCancel (snd out) = false.
Proof.
  intros tm dc file config rendered fileData e es Hread Hinvalid. cbv zeta.
  unfold Upload.run.
  cbn [fold_left Upload.step Upload.resume fst snd].
  rewrite Hread, Hinvalid. repeat split; reflexivity.
Qed.

Lemma upload_rejects_invalid_file_witness :
  fst (Upload.run (fun a b => str_eqb a b) large_limit video_file
         limit_undefined Upload.idle [Upload.Resume; Upload.Resume]
         (Upload.Called, Upload.initial))
  = Upload.Rejected (Upload.FileValidationFailed [Upload.TooLarge]).
Proof.
  refine (proj1 (upload_rejects_invalid_file (fun a b => str_eqb a b)
                   large_limit video_file limit_undefined Upload.idle
                   {| Upload.fileName := lit "c.mp4";
                      Upload.size := 150 * 1024 * 1024;
                      Upload.type := lit "video/mp4" |}
                   Upload.TooLarge [] _ _));
    reflexivity.
Defined.

(** A [File] whose bytes cannot be read is rejected before validation: the
    upload rejects at its second turn with the error of the read, whatever
    the configuration allows, without creating a controller, and one failed
    attempt is recorded; only a [File] input can fail this way. *)
Theorem upload_rejects_unreadable_file :
  forall type_matches defaultConfig file config rendered message,
    Upload.convertFileInput file = Err message ->
    let out := Upload.run type_matches defaultConfig file config rendered
                 [Upload.Resume; Upload.Resume] (Upload.Called, Upload.initial) in
    (exists f, file = Upload.InFile f (Err message)) /\
    fst out = Upload.Rejected (Upload.ReadFailed message) /\
    Upload.controllers (snd out) = [] /\
    Upload.cancelTokenRef (snd out) = None /\
    Upload.recorded (snd out) = [false] /\
    Upload.canCancel (snd out) = false.
Proof.
  intros tm dc file config rendered message Hread. cbv zeta.
  unfold Upload.run.
  cbn [fold_left Upload.step Upload.resume fst snd].
  rewrite Hread. split; [|repeat split; reflexivity].
  destruct file as [f [[]|m]| |]; try discriminate.
  injection Hread as <-. now exists f.
Qed.

Lemma upload_rejects_unreadable_file_witness :
  fst (Upload.run (fun a b => str_eqb a b) Upload.noConfig unreadable_file
         Upload.noConfig Upload.idle [Upload.Resume; Upload.Resume]
         (Upload.Called, Upload.initial))
  = Upload.Rejected (Upload.ReadFailed (lit "The file could not be read")).
Proof.
  refine (proj1 (proj2 (upload_rejects_unreadable_file
                          (fun a b => str_eqb a b) Upload.noConfig
                          unreadable_file Upload.noConfig Upload.idle
                          (lit "The file could not be read") _))).
  reflexivity.
Defined.

Lemma cancelTokenRef_catch_finally file rendered e h :
  Upload.cancelTokenRef (snd (Upload.catch_finally file rendered e h)) = None /\
  finished (fst (Upload.catch_finally file rendered e h)) = true.
Proof. split; reflexivity. Qed.

Lemma finished_loop_head file rendered p fd h :
  finished (fst (Upload.loop_head file rendered p fd h)) = true ->
  Upload.cancelTokenRef (snd (Upload.loop_head file rendered p fd h)) = None.
Proof.
  unfold Upload.loop_head.
  destruct (p <? 80); [|discriminate].
  destruct (Upload.signal_aborted h); [reflexivity|discriminate].
Qed.

(** The [finally] block holds in every interleaving: whatever resumes and
    cancels happen, a mutation that has resolved or rejected has cleared the
    controller reference, and at most one controller was created. *)
Theorem finished_upload_clears_reference :
  forall type_matches defaultConfig file config rendered events,
    let out := Upload.run type_matches defaultConfig file config rendered events
                 (Upload.Called, Upload.initial) in
    (finished (fst out) = true -> Upload.cancelTokenRef (snd out) = None) /\
    (length (Upload.controllers (snd out)) <= 1)%nat.
Proof.
  intros tm dc file config rendered events. cbv zeta.
  set (inv := fun st : Upload.Task * Upload.Hook =>
    (finished (fst st) = true -> Upload.cancelTokenRef (snd st) = None) /\
    (length (Upload.controllers (snd st)) <= 1)%nat /\
    (match fst st with
     | Upload.Called | Upload.AwaitConvert => Upload.controllers (snd st) = []
     | _ => True
     end)).
  assert (Hinv : forall evs st, inv st ->
            inv (Upload.run tm dc file config rendered evs st)).
  { induction evs as [|e evs IH]; intros st Hst; [exact Hst|].
    simpl. apply IH. clear IH. destruct st as [t h].
    destruct Hst as (Hfin & Hlen & Hnew). cbn [fst snd] in *.
    destruct e; cbn [Upload.step fst snd].
    - destruct t; cbn [Upload.resume];
        try destruct (Upload.convertFileInput file);
        try destruct (Upload.validateFileInternal _ _ _);
        cbn [Upload.newAbortController]; unfold Upload.loop_head;
        repeat match goal with
               | |- context [if ?b then _ else _] => destruct b
               end;
        cbn; rewrite ?Hnew; repeat split;
        try discriminate; try assumption; simpl; lia.
    - unfold Upload.cancelUpload.
      destruct (Upload.cancelTokenRef h) as [a|] eqn:Eref; cbn;
        rewrite ?length_insert, ?Eref; repeat split;
        cbn; rewrite ?length_insert, ?Eref; try assumption;
        destruct t; try exact I; try assumption;
        rewrite Hnew; reflexivity. }
  destruct (Hinv events (Upload.Called, Upload.initial)) as (H1 & H2 & _).
  { repeat split; try discriminate; simpl; lia. }
  split; assumption.
Qed.

Lemma finished_upload_clears_reference_witness :
  Upload.cancelTokenRef (snd (run_upload eight_resumes)) = None.
Proof.
  refine (proj1 (finished_upload_clears_reference (fun a b => str_eqb a b)
                   Upload.noConfig text_file Upload.noConfig Upload.idle
                   eight_resumes) _).
  reflexivity.
Defined.

(** ** The NFT contract: balances, reverts and permanence *)

Section NFTContractMore.
Import NFTContract.

Lemma mint_Some_inv sender cid s s' :
  mint sender cid s = Some s' ->
  sender <> 0 /\ _tokenIdCounter s <> MAX_UINT256 /\
  s' = {| _tokenIdCounter := _tokenIdCounter s + 1;
          _tokenURIs := <[_tokenIdCounter s + 1 := cid]> (_tokenURIs s);
          _owners := <[_tokenIdCounter s + 1 := sender]> (_owners s);
          _balances := <[sender := _balance s sender + 1]> (_balances s) |}.
Proof.
  unfold mint, _mint. cbn [_tokenIdCounter _owners _balances _tokenURIs].
  destruct (_tokenIdCounter s =? MAX_UINT256) eqn:Ec; [discriminate|].
  destruct (sender =? 0) eqn:Es; [discriminate|].
  destruct (negb _); [discriminate|].
  intros [= <-]. apply Z.eqb_neq in Ec, Es. repeat split; assumption.
Qed.

Lemma mints_snoc_inv calls sender cid s0 s :
  mints (calls ++ [(sender, cid)]) s0 = Some s ->
  exists s1, mints calls s0 = Some s1 /\ mint sender cid s1 = Some s.
Proof.
  rewrite mints_app. destruct (mints calls s0) as [s1|]; [|discriminate].
  simpl. destruct (mint sender cid s1) as [s2|] eqn:E; [|discriminate].
  intros [= <-]. now exists s1.
Qed.

(** A successful sequence of mints starts from the constructor's storage and
    keeps the invariant; its senders are not the zero address. *)
Lemma mints_Some_minted calls s :
  mints calls constructor = Some s ->
  minted calls s /\ Forall (fun call => fst call <> 0) calls /\
  Z.of_nat (length calls) <= MAX_UINT256.
Proof.
  revert s. induction calls as [|[sender cid] calls IH] using rev_ind; intros s H.
  - injection H as <-. split; [apply minted_constructor|].
    split; [constructor|]. unfold MAX_UINT256. simpl. lia.
  - apply mints_snoc_inv in H as (s1 & Hrun & Hm).
    destruct (IH s1 Hrun) as (Hinv & Hnz & Hlen).
    destruct (mint_Some_inv _ _ _ _ Hm) as (Hs & Hc & _).
    rewrite (minted_counter _ _ Hinv) in Hc.
    destruct (mint_step calls s1 sender cid Hinv Hs) as (s' & Hm' & Hinv' & _);
      [lia|].
    rewrite Hm in Hm'. injection Hm' as <-.
    split; [exact Hinv'|]. split.
    + apply Forall_app. split; [exact Hnz|]. now repeat constructor.
    + rewrite length_app. simpl. lia.
Qed.

Lemma mintsBy_snoc a calls sender cid :
  mintsBy a (calls ++ [(sender, cid)])
  = mintsBy a calls + (if sender =? a then 1 else 0).
Proof.
  unfold mintsBy. rewrite List.filter_app, length_app. simpl.
  destruct (sender =? a); simpl; lia.
Qed.

(** The balance mapping counts mints. *)
Lemma _balance_counts_mints (calls : list (Z * string)) :
  forall s, mints calls constructor = Some s ->
            forall a, _balance s a = mintsBy a calls.
Proof.
  induction calls as [|[sender cid] calls IH] using rev_ind; intros s H a.
  - injection H as <-. reflexivity.
  - apply mints_snoc_inv in H as (s1 & Hrun & Hm).
    destruct (mint_Some_inv _ _ _ _ Hm) as (_ & _ & ->).
    rewrite mintsBy_snoc. unfold _balance at 1. cbn [_balances].
    destruct (Z.eqb_spec sender a) as [->|Hne].
    + rewrite lookup_insert_eq. cbn. now rewrite (IH s1 Hrun).
    + rewrite lookup_insert_ne by exact Hne.
      fold (_balance s1 a). rewrite (IH s1 Hrun). lia.
Qed.

(** Balances count mints: after a successful sequence of mint transactions
    [balanceOf] of every address but the zero address is the number of
    transactions it sent, for the zero address it reverts, and the total
    supply is the number of transactions. *)
Theorem balanceOf_counts_mints :
  forall (calls : list (Z * string)) s,
    mints calls constructor = Some s ->
    (forall a, a <> 0 -> balanceOf s a = Some (mintsBy a calls)) /\
    balanceOf s 0 = None /\
    mintsBy 0 calls = 0 /\
    getTotalSupply s = Z.of_nat (length calls).
Proof.
  intros calls s H.
  destruct (mints_Some_minted calls s H) as (Hinv & Hnz & _).
  repeat split.
  - intros a Ha. unfold balanceOf.
    destruct (Z.eqb_spec a 0) as [E|_]; [contradiction|].
    now rewrite (_balance_counts_mints calls s H).
  - unfold mintsBy. apply Nat2Z.inj_iff with (m := 0%nat), length_zero_iff_nil.
    clear H Hinv. induction Hnz as [|[sender cid] rest Hs _ IH]; [reflexivity|].
    cbn [List.filter fst]. simpl in Hs.
    destruct (Z.eqb_spec sender 0) as [E|_]; [contradiction|exact IH].
  - unfold getTotalSupply. exact (minted_counter _ _ Hinv).
Qed.

(** When [mint] reverts: in a storage reached by successful mints, a further
    [mint] reverts exactly when its sender is the zero address or the counter
    has reached the largest [uint256]. *)
Theorem mint_reverts_iff :
  forall (calls : list (Z * string)) s sender cid,
    mints calls constructor = Some s ->
    (mint sender cid s = None <->
     sender = 0 \/ Z.of_nat (length calls) = MAX_UINT256).
Proof.
  intros calls s sender cid H.
  destruct (mints_Some_minted calls s H) as (Hinv & _ & Hlen).
  split.
  - intros Hrev.
    destruct (Z.eq_dec sender 0) as [Hz|Hnz]; [now left|right].
    destruct (Z.eq_dec (Z.of_nat (length calls)) MAX_UINT256) as [He|Hne];
      [exact He|].
    destruct (mint_step calls s sender cid Hinv Hnz) as (s' & Hm & _); [lia|].
    congruence.
  - intros Hcase. destruct (mint sender cid s) as [s'|] eqn:Hm; [|reflexivity].
    destruct (mint_Some_inv _ _ _ _ Hm) as (Hs & Hc & _).
    rewrite (minted_counter _ _ Hinv) in Hc. destruct Hcase; contradiction.
Qed.

(** The frame of a sequence of mints: it raises the counter by its length
    and writes only the token ids above the old counter. *)
Lemma mints_frame calls : forall s0 s,
  mints calls s0 = Some s ->
  _tokenIdCounter s = _tokenIdCounter s0 + Z.of_nat (length calls) /\
  forall k, k <= _tokenIdCounter s0 \/ _tokenIdCounter s < k ->
    _tokenURIs s !! k = _tokenURIs s0 !! k /\ _owners s !! k = _owners s0 !! k.
Proof.
  induction calls as [|[sender cid] calls IH]; intros s0 s H.
  - injection H as <-. simpl. split; [lia|auto].
  - simpl in H. destruct (mint sender cid s0) as [s1|] eqn:Hm; [|discriminate].
    destruct (IH s1 s H) as [Hc Hk].
    destruct (mint_Some_inv _ _ _ _ Hm) as (_ & _ & Hs1).
    assert (Hc1 : _tokenIdCounter s1 = _tokenIdCounter s0 + 1)
      by (now rewrite Hs1).
    split; [simpl length; lia|].
    intros k Hrange.
    destruct (Hk k) as [Hu Ho]; [lia|].
    rewrite Hu, Ho, Hs1. cbn [_tokenURIs _owners].
    rewrite !lookup_insert_ne by lia. auto.
Qed.

(** Token records are permanent: no later sequence of mints changes the
    owner or the URI of a token that exists. *)
Theorem minted_tokens_permanent :
  forall (calls more : list (Z * string)) s s',
    mints calls constructor = Some s ->
    mints more s = Some s' ->
    forall k, k <= Z.of_nat (length calls) ->
      ownerOf s' k = ownerOf s k /\ tokenURI s' k = tokenURI s k.
Proof.
  intros calls more s s' H Hmore k Hk.
  destruct (mints_frame calls _ _ H) as [Hc _]. cbn in Hc.
  destruct (mints_frame more _ _ Hmore) as [_ Hf].
  destruct (Hf k) as [Hu Ho]; [lia|].
  unfold ownerOf, _ownerOf, tokenURI. now rewrite Hu, Ho.
Qed.

(** Which tokens exist: after a successful sequence of [n] mints, [ownerOf]
    answers exactly for the ids [1..n]; for every other id it reverts and
    [tokenURI] returns the empty string. *)
Theorem tokens_exist_iff :
  forall (calls : list (Z * string)) s,
    mints calls constructor = Some s ->
    forall k,
      (is_Some (ownerOf s k) <-> 1 <= k <= Z.of_nat (length calls)) /\
      (~ 1 <= k <= Z.of_nat (length calls) -> tokenURI s k = EmptyString).
Proof.
  intros calls s H k.
  destruct (mints_Some_minted calls s H) as (Hinv & Hnz & _).
  destruct (mints_frame calls _ _ H) as [Hc Hf]. cbn in Hc.
  assert (Hout : ~ 1 <= k <= Z.of_nat (length calls) ->
                 _tokenURIs s !! k = None /\ _owners s !! k = None).
  { intros Hk. destruct (Hf k) as [Hu Ho]; [cbn; lia|].
    rewrite Hu, Ho. cbn. now rewrite !lookup_empty. }
  split.
  - split.
    + intros [o Ho].
      destruct (Z_le_dec 1 k) as [H1|H1];
        [destruct (Z_le_dec k (Z.of_nat (length calls))) as [H2|H2]|];
        [lia| |].
      * destruct Hout as [_ Hn]; [lia|].
        unfold ownerOf, _ownerOf in Ho. rewrite Hn in Ho. discriminate.
      * destruct Hout as [_ Hn]; [lia|].
        unfold ownerOf, _ownerOf in Ho. rewrite Hn in Ho. discriminate.
    + intros Hk.
      destruct (calls !! Z.to_nat (k - 1)) as [[sender cid]|] eqn:Hi.
      * destruct (minted_token _ _ Hinv _ _ _ Hi) as [Ho _].
        replace (Z.of_nat (Z.to_nat (k - 1)) + 1) with k in Ho by lia.
        assert (Hs : sender <> 0).
        { rewrite Forall_forall in Hnz.
          apply (Hnz (sender, cid)). now apply list_elem_of_lookup_2 in Hi. }
        unfold ownerOf, _ownerOf. rewrite Ho. cbn.
        destruct (sender =? 0) eqn:E; [apply Z.eqb_eq in E; contradiction|eauto].
      * apply lookup_ge_None in Hi. lia.
  - intros Hk. destruct (Hout Hk) as [Hu _]. unfold tokenURI. now rewrite Hu.
Qed.

End NFTContractMore.

Lemma balanceOf_counts_mints_witness :
  NFTContract.balanceOf three_mints 5 = Some 2.
Proof.
  refine (proj1 (balanceOf_counts_mints
                   [(5, "a"%string); (7, "b"%string); (5, "c"%string)]
                   three_mints _) 5 _).
  - vm_compute. reflexivity.
  - lia.
Defined.

Lemma mint_reverts_iff_witness :
  NFTContract.mint 0 "a"%string NFTContract.constructor = None.
Proof.
  apply (proj2 (mint_reverts_iff [] NFTContract.constructor 0 "a"%string
                  eq_refl)).
  now left.
Defined.

Lemma minted_tokens_permanent_witness :
  NFTContract.ownerOf three_mints 1 = NFTContract.ownerOf one_mint 1 /\
  NFTContract.tokenURI three_mints 1 = NFTContract.tokenURI one_mint 1.
Proof.
  refine (minted_tokens_permanent [(5, "a"%string)]
            [(7, "b"%string); (5, "c"%string)] one_mint three_mints _ _ 1 _).
  - vm_compute. reflexivity.
  - vm_compute. reflexivity.
  - simpl. lia.
Defined.

Lemma tokens_exist_iff_witness :
  is_Some (NFTContract.ownerOf three_mints 3) /\
  NFTContract.tokenURI three_mints 4 = EmptyString.
Proof.
  split.
  - refine (proj2 (proj1 (tokens_exist_iff
                            [(5, "a"%string); (7, "b"%string); (5, "c"%string)]
                            three_mints _ 3)) _).
    + vm_compute. reflexivity.
    + simpl. lia.
  - refine (proj2 (tokens_exist_iff
                     [(5, "a"%string); (7, "b"%string); (5, "c"%string)]
                     three_mints _ 4) _).
    + vm_compute. reflexivity.
    + simpl. lia.
Defined.

(** ** The encrypted minter: address list and handler *)

Lemma filter_by_index_all {A} (keep : nat -> bool) (i : nat) (xs : list A) :
  (forall j, (i <= j)%nat -> keep j = true) ->
  EncryptedNFTMinter.filter_by_index keep i xs = xs.
Proof.
  revert i. induction xs as [|x r IH]; intros i H; simpl; [reflexivity|].
  rewrite H by lia. f_equal. apply IH. intros j Hj. apply H. lia.
Qed.

Lemma filter_by_index_delete {A} (xs : list A) : forall (i j : nat),
  EncryptedNFTMinter.filter_by_index (fun x => negb (Nat.eqb x (j + i))) j xs
  = delete i xs.
Proof.
  induction xs as [|x r IH]; intros i j; simpl; [now destruct i|].
  destruct i as [|i].
  - rewrite Nat.add_0_r, Nat.eqb_refl. simpl.
    apply filter_by_index_all. intros k Hk.
    destruct (Nat.eqb_spec k j); [lia|reflexivity].
  - destruct (Nat.eqb_spec j (j + S i)); [lia|]. simpl. f_equal.
    replace (j + S i)%nat with (S j + i)%nat by lia. apply IH.
Qed.

(** The address list of the encrypted minter: removing at an index deletes
    exactly that entry (and nothing when the index is out of range), adding
    appends an empty entry, and removing the entry just added gives the list
    back; the other fields of the component are not touched. *)
Theorem removeAccessAddress_deletes :
  forall (index : nat) (s : EncryptedNFTMinter.State),
    EncryptedNFTMinter.accessAddresses
      (EncryptedNFTMinter.removeAccessAddress index s)
    = delete index (EncryptedNFTMinter.accessAddresses s) /\
    ((length (EncryptedNFTMinter.accessAddresses s) <= index)%nat ->
     EncryptedNFTMinter.removeAccessAddress index s = s) /\
    EncryptedNFTMinter.removeAccessAddress
      (length (EncryptedNFTMinter.accessAddresses s))
      (EncryptedNFTMinter.addAccessAddress s) = s /\
    EncryptedNFTMinter.selectedFile
      (EncryptedNFTMinter.removeAccessAddress index s)
    = EncryptedNFTMinter.selectedFile s /\
    EncryptedNFTMinter.mintType (EncryptedNFTMinter.removeAccessAddress index s)
    = EncryptedNFTMinter.mintType s.
Proof.
  intros index s.
  assert (Hdel : forall (idx : nat) (l : list jsstring),
            EncryptedNFTMinter.filter_by_index
              (fun i => negb (Nat.eqb i idx)) 0 l = delete idx l)
    by (intros idx l; apply (filter_by_index_delete l idx 0%nat)).
  split; [apply Hdel|]. split; [|split; [|split; reflexivity]].
  - intros Hge. unfold EncryptedNFTMinter.removeAccessAddress,
      EncryptedNFTMinter.setAccessAddresses.
    rewrite Hdel. destruct s as [f d l m t c]. cbn in *. f_equal.
    clear -Hge. revert index Hge.
    induction l as [|x l IH]; intros [|i] H; simpl in *;
      try reflexivity; try lia.
    f_equal. apply IH. lia.
  - unfold EncryptedNFTMinter.removeAccessAddress,
      EncryptedNFTMinter.addAccessAddress,
      EncryptedNFTMinter.setAccessAddresses.
    cbn [EncryptedNFTMinter.accessAddresses]. rewrite Hdel.
    destruct s as [f d l m t c]. cbn. f_equal.
    clear. induction l as [|x l IH]; simpl; [reflexivity|now rewrite IH].
Qed.

Lemma removeAccessAddress_deletes_witness :
  EncryptedNFTMinter.removeAccessAddress 5 ready_to_mint = ready_to_mint.
Proof.
  refine (proj1 (proj2 (removeAccessAddress_deletes 5 ready_to_mint)) _).
  simpl. lia.
Defined.

(** The handler of the encrypted minter mints exactly after an upload: with
    a file selected and a wallet connected, a CID returned by
    [encryptAndUploadFile] is followed by one [mintPrivate] write carrying
    this CID and the address list as entered (blank entries included), and
    [onSuccess] is called exactly when the write succeeded; a failed upload
    sends no write; every write the handler sends comes from such an upload;
    without a file or a wallet nothing happens, not even the reset. *)
Theorem handleEncryptUploadAndMint_writes :
  forall address encrypt mintNFT (s : EncryptedNFTMinter.State),
    let out := EncryptedNFTMinter.handleEncryptUploadAndMint
                 address encrypt mintNFT s in
    let mintPrivate cid :=
      {| functionName := lit "mintPrivate";
         args := [AString cid;
                  AAddressArray (EncryptedNFTMinter.accessAddresses s)] |} in
    (forall file cid,
       EncryptedNFTMinter.selectedFile s = Some file ->
       truthy (default [] address) = true ->
       encrypt file 1 = Ok cid ->
       EncryptedNFTMinter.writes out = [mintPrivate cid] /\
       EncryptedNFTMinter.pieceCid (EncryptedNFTMinter.final out) = Some cid /\
       EncryptedNFTMinter.successes out
       = (if is_ok (mintNFT (mintPrivate cid)) then [(lit "1", cid)] else []) /\
       EncryptedNFTMinter.resets out = 1%nat) /\
    (forall file e,
       EncryptedNFTMinter.selectedFile s = Some file ->
       truthy (default [] address) = true ->
       encrypt file 1 = Err e ->
       out = {| EncryptedNFTMinter.final := s;
                EncryptedNFTMinter.writes := [];
                EncryptedNFTMinter.successes := [];
                EncryptedNFTMinter.resets := 1 |}) /\
    (forall call, call ∈ EncryptedNFTMinter.writes out ->
       exists file cid,
         EncryptedNFTMinter.selectedFile s = Some file /\
         encrypt file 1 = Ok cid /\
         EncryptedNFTMinter.writes out = [call] /\
         call = mintPrivate cid) /\
    (EncryptedNFTMinter.selectedFile s = None \/
     truthy (default [] address) = false ->
     out = {| EncryptedNFTMinter.final := s;
              EncryptedNFTMinter.writes := [];
              EncryptedNFTMinter.successes := [];
              EncryptedNFTMinter.resets := 0 |}).
Proof.
  intros address encrypt mintNFT s. cbv zeta.
  unfold EncryptedNFTMinter.handleEncryptUploadAndMint.
  destruct (EncryptedNFTMinter.selectedFile s) as [file|] eqn:Ef.
  2:{ split; [discriminate|]. split; [discriminate|]. split.
      - intros call Hc. inversion Hc.
      - reflexivity. }
  destruct address as [[|u a]|].
  1,3: (split; [discriminate|]; split; [discriminate|]; split;
        [intros call Hc; inversion Hc|reflexivity]).
  destruct (encrypt file 1) as [cid|e] eqn:Ee.
  2:{ split; [intros ? ? [= <-] _ H; congruence|].
      split; [reflexivity|]. split.
      - intros call Hc; inversion Hc.
      - intros [H|H]; discriminate. }
  set (c := {| functionName := lit "mintPrivate"; args := _ |}).
  split; [|split; [intros ? ? [= <-] _ H; congruence|split]].
  - intros file' cid' [= <-] _ H.
    assert (cid' = cid) as -> by congruence. fold c.
    destruct (mintNFT c); cbn; repeat split; reflexivity.
  - intros call Hc.
    assert (call = c).
    { destruct (mintNFT c); cbn in Hc;
        apply list_elem_of_singleton in Hc; exact Hc. }
    subst call. exists file, cid.
    destruct (mintNFT c); cbn; repeat split; try reflexivity; exact Ee.
  - intros [H|H]; discriminate.
Qed.

Lemma handleEncryptUploadAndMint_writes_witness :
  let out := EncryptedNFTMinter.handleEncryptUploadAndMint wallet
               (fun _ _ => Ok (lit "bafkpiece")) (fun _ => Ok tt)
               ready_to_mint in
  EncryptedNFTMinter.writes out
  = [{| functionName := lit "mintPrivate";
        args := [AString (lit "bafkpiece");
                 AAddressArray [lit "0xfriend"; []]] |}] /\
  EncryptedNFTMinter.pieceCid (EncryptedNFTMinter.final out)
  = Some (lit "bafkpiece") /\
  EncryptedNFTMinter.successes out = [(lit "1", lit "bafkpiece")] /\
  EncryptedNFTMinter.resets out = 1%nat.
Proof.
  refine (proj1 (handleEncryptUploadAndMint_writes wallet
                   (fun _ _ => Ok (lit "bafkpiece")) (fun _ => Ok tt)
                   ready_to_mint) small_file (lit "bafkpiece") _ _ _);
    reflexivity.
Defined.

(** ** Listing the NFTs *)

Section AllNFTsFacts.
Import AllNFTs.

Lemma collect_spec {Detail}
  (make : Z -> Detail -> option jsstring -> NFTTokenDetails) ownerOf total :
  forall details (i : nat),
    0 <= total ->
    length (collect make ownerOf (Z.of_nat i) details total)
    = Nat.min (length details) (Z.to_nat total - i) /\
    (forall nft, nft ∈ collect make ownerOf (Z.of_nat i) details total ->
       exists k d o, nft = make k d o).
Proof.
  induction details as [|d rest IH]; intros i Ht; cbn [collect].
  - split; [reflexivity|intros nft H; inversion H].
  - destruct (Z.of_nat i <? total) eqn:E.
    + apply Z.ltb_lt in E.
      replace (Z.of_nat i + 1) with (Z.of_nat (S i)) by lia.
      destruct (IH (S i) Ht) as [Hl Hm]. split.
      * cbn [length]. rewrite Hl. lia.
      * intros nft Hin. apply elem_of_cons in Hin as [->|Hin]; eauto.
    + apply Z.ltb_ge in E. split; [cbn [length]; lia|intros nft H; inversion H].
Qed.

Lemma collect_tokenIds ownerOf address total : forall details (i : nat),
  map tokenId (collect (regularNFT address) ownerOf (Z.of_nat i) details total)
  = map (fun j : nat => Z.of_nat j + 1)
        (seq i (length (collect (regularNFT address) ownerOf (Z.of_nat i)
                                details total))).
Proof.
  induction details as [|d rest IH]; intros i; simpl; [reflexivity|].
  destruct (Z.of_nat i <? total); [|reflexivity].
  simpl. f_equal.
  replace (Z.of_nat i + 1) with (Z.of_nat (S i)) by lia. apply IH.
Qed.

Lemma fetchContract_isEncrypted {Detail} make (reads : ContractReads Detail) b :
  (forall a k d o, isEncrypted (make a k d o) = b) ->
  Forall (fun nft => isEncrypted nft = b) (fetchContract make reads).
Proof.
  intros Hmake. unfold fetchContract.
  destruct (deployed reads) as [[|c r]|]; try constructor.
  destruct (getAllTokensDetails reads) as [details|]; [|constructor].
  destruct (getTotalSupply reads) as [total|]; [|constructor].
  generalize 0. induction details as [|d rest IH]; intros i; simpl;
    [constructor|].
  destruct (i <? total); [|constructor].
  constructor; [apply Hmake|apply IH].
Qed.

Lemma filter_all {A} (p : A -> bool) l :
  Forall (fun x => p x = true) l -> List.filter p l = l.
Proof.
  induction 1 as [|x l Hx _ IH]; simpl; [reflexivity|]. now rewrite Hx, IH.
Qed.

Lemma filter_none {A} (p : A -> bool) l :
  Forall (fun x => p x = false) l -> List.filter p l = [].
Proof.
  induction 1 as [|x l Hx _ IH]; simpl; [reflexivity|]. now rewrite Hx, IH.
Qed.

(** The two filtered views split the listing: the regular NFTs followed by
    the encrypted ones are the whole result, the regular view is what was
    read from [NFTContract] and the encrypted view what was read from
    [LitEncryptedNFT], and every regular NFT is marked accessible. *)
Theorem regular_and_encrypted_partition :
  forall publicClient address nftContract litEncryptedNFT,
    let nfts := queryFn publicClient address nftContract litEncryptedNFT in
    useAllRegularNFTs nfts ++ useAllEncryptedNFTs nfts = nfts /\
    (publicClient = true -> truthy (default [] address) = true ->
     useAllRegularNFTs nfts = fetchContract regularNFT nftContract /\
     useAllEncryptedNFTs nfts = fetchContract encryptedNFT litEncryptedNFT) /\
    Forall (fun nft => hasAccess nft = true) (useAllRegularNFTs nfts).
Proof.
  intros pc address nft lit. cbv zeta.
  pose proof (fetchContract_isEncrypted regularNFT nft false
                (fun _ _ _ _ => eq_refl)) as Hr.
  pose proof (fetchContract_isEncrypted encryptedNFT lit true
                (fun _ _ _ _ => eq_refl)) as He.
  assert (Hreg : useAllRegularNFTs
                   (fetchContract regularNFT nft ++ fetchContract encryptedNFT lit)
                 = fetchContract regularNFT nft).
  { unfold useAllRegularNFTs. rewrite List.filter_app.
    rewrite filter_all, filter_none, app_nil_r; [reflexivity| |].
    - eapply Forall_impl; [exact He|]. intros x ->. reflexivity.
    - eapply Forall_impl; [exact Hr|]. intros x ->. reflexivity. }
  assert (Henc : useAllEncryptedNFTs
                   (fetchContract regularNFT nft ++ fetchContract encryptedNFT lit)
                 = fetchContract encryptedNFT lit).
  { unfold useAllEncryptedNFTs. rewrite List.filter_app.
    rewrite filter_none, filter_all; [reflexivity|exact He|exact Hr]. }
  assert (Hacc : Forall (fun x => hasAccess x = true)
                        (fetchContract regularNFT nft)).
  { unfold fetchContract.
    destruct (deployed nft) as [[|c r]|]; try constructor.
    destruct (getAllTokensDetails nft) as [details|]; [|constructor].
    destruct (getTotalSupply nft) as [total|]; [|constructor].
    generalize 0. induction details as [|d rest IH]; intros i; simpl;
      [constructor|].
    destruct (i <? total); [|constructor].
    constructor; [reflexivity|apply IH]. }
  unfold queryFn. destruct pc; cbn [negb].
  - destruct address as [[|u a]|].
    + split; [reflexivity|split; [intros H1 H2; cbn in *; congruence|constructor]].
    + rewrite Hreg, Henc. repeat split. exact Hacc.
    + split; [reflexivity|split; [intros H1 H2; cbn in *; congruence|constructor]].
  - split; [reflexivity|split; [intros H1 H2; cbn in *; congruence|constructor]].
Qed.

(** Failures stay local: when the first reads of one contract fail, the
    tokens of the other contract are still listed; when only [ownerOf]
    fails, the token is listed without owner.  The regular tokens listed are
    numbered [1, 2, ...] and there are as many as the shorter of the URI
    list and the total supply. *)
Theorem failures_stay_local :
  forall address (nftContract : ContractReads jsstring) litEncryptedNFT
         contract details totalSupply,
    truthy (default [] address) = true ->
    deployed nftContract = Some contract -> contract <> [] ->
    (is_ok (getAllTokensDetails nftContract) = false \/
     is_ok (getTotalSupply nftContract) = false ->
     queryFn true address nftContract litEncryptedNFT
     = fetchContract encryptedNFT litEncryptedNFT) /\
    (getAllTokensDetails nftContract = Ok details ->
     getTotalSupply nftContract = Ok totalSupply -> 0 <= totalSupply ->
     let regular := fetchContract regularNFT nftContract in
     length regular = Nat.min (length details) (Z.to_nat totalSupply) /\
     map tokenId regular
     = map (fun j : nat => Z.of_nat j + 1) (seq 0 (length regular)) /\
     ((forall k, is_ok (ownerOf nftContract k) = false) ->
      Forall (fun nft => owner nft = None) regular)).
Proof.
  intros address nft lit contract details total Ha Hd Hne.
  destruct contract as [|c r]; [now elim Hne|].
  destruct address as [[|u a]|]; try discriminate.
  split.
  - intros Hfail. unfold queryFn. cbn [negb].
    replace (fetchContract regularNFT nft) with (@nil NFTTokenDetails);
      [reflexivity|].
    unfold fetchContract. rewrite Hd.
    destruct (getAllTokensDetails nft); [|reflexivity].
    destruct (getTotalSupply nft); [|reflexivity].
    destruct Hfail; discriminate.
  - intros Hdet Htot Hpos. cbv zeta.
    unfold fetchContract. rewrite Hd, Hdet, Htot.
    destruct (collect_spec (regularNFT (c :: r)) (ownerOf nft) total details
                0%nat Hpos) as [Hlen _].
    change (Z.of_nat 0) with 0 in Hlen.
    split; [rewrite Hlen; lia|]. split.
    + apply (collect_tokenIds (ownerOf nft) (c :: r) total details 0%nat).
    + intros Hown. clear Hdet Hlen. generalize 0.
      induction details as [|d rest IH]; intros i; simpl; [constructor|].
      destruct (i <? total); [|constructor].
      constructor; [|apply IH].
      cbn. specialize (Hown (i + 1)).
      now destruct (ownerOf nft (i + 1)).
Qed.

Lemma collect_listed decode format address s total :
  forall (later : list (Z * string)) (i : nat),
    (forall (j : nat) sender cid,
       later !! j = Some (sender, cid) ->
       NFTContract.ownerOf s (Z.of_nat (i + j) + 1) = Some sender) ->
    Z.of_nat (i + length later) <= total ->
    collect (regularNFT address)
            (ownerOf (readsOf decode format address s)) (Z.of_nat i)
            (map decode (map snd later)) total
    = listed decode format address (Z.of_nat i) later.
Proof.
  induction later as [|[sender cid] rest IH]; intros i Hown Hlen;
    [reflexivity|].
  simpl in *.
  destruct (Z.of_nat i <? total) eqn:E; [|apply Z.ltb_ge in E; lia].
  cbn [ownerOf readsOf].
  pose proof (Hown 0%nat sender cid eq_refl) as H0.
  rewrite Nat.add_0_r in H0. rewrite H0.
  replace (Z.of_nat i + 1) with (Z.of_nat (S i)) by lia.
  f_equal. apply IH.
  - intros j sd c Hj. specialize (Hown (S j) sd c Hj).
    now replace (S i + j)%nat with (i + S j)%nat by lia.
  - lia.
Qed.

(** The listing shows what was minted: read from an [NFTContract] that has
    processed the mint transactions [calls], the hook lists one regular NFT
    per transaction, in order, numbered from 1, with the transaction's CID
    and its sender as owner, followed by the encrypted NFTs. *)
Theorem listing_shows_minted_tokens :
  forall decode format contract address (calls : list (Z * string)) s
         litEncryptedNFT,
    NFTContract.mints calls NFTContract.constructor = Some s ->
    contract <> [] ->
    truthy (default [] address) = true ->
    queryFn true address (readsOf decode format contract s) litEncryptedNFT
    = listed decode format contract 0 calls
      ++ fetchContract encryptedNFT litEncryptedNFT.
Proof.
  intros decode format contract address calls s lit Hrun Hc Ha.
  destruct (mints_Some_minted calls s Hrun) as (Hinv & Hnz & _).
  destruct contract as [|c r]; [now elim Hc|].
  destruct address as [[|u a]|]; try discriminate.
  unfold queryFn. cbn [negb]. f_equal.
  unfold fetchContract. cbn [deployed readsOf getAllTokensDetails getTotalSupply].
  rewrite (getAllTokensDetails_minted calls s Hinv).
  unfold NFTContract.getTotalSupply.
  rewrite (NFTContract.minted_counter _ _ Hinv).
  apply (collect_listed decode format (c :: r) s _ calls 0%nat); [|simpl; lia].
  intros j sender cid Hj. simpl.
  destruct (NFTContract.minted_token _ _ Hinv j sender cid Hj) as [Ho _].
  unfold NFTContract.ownerOf, NFTContract._ownerOf. rewrite Ho. cbn.
  assert (Hs : sender <> 0).
  { rewrite Forall_forall in Hnz. apply (Hnz (sender, cid)).
    now apply list_elem_of_lookup_2 in Hj. }
  destruct (sender =? 0) eqn:E; [apply Z.eqb_eq in E; contradiction|reflexivity].
Qed.

End AllNFTsFacts.

Lemma regular_and_encrypted_partition_witness :
  AllNFTs.useAllEncryptedNFTs
    (AllNFTs.queryFn true wallet ownerlessReads encryptedReads)
  = AllNFTs.fetchContract AllNFTs.encryptedNFT encryptedReads.
Proof.
  refine (proj2 (proj1 (proj2 (regular_and_encrypted_partition true wallet
                                 ownerlessReads encryptedReads)) _ _));
    reflexivity.
Defined.

Lemma failures_stay_local_witness :
  AllNFTs.queryFn true wallet failingReads encryptedReads
  = AllNFTs.fetchContract AllNFTs.encryptedNFT encryptedReads /\
  length (AllNFTs.fetchContract AllNFTs.regularNFT ownerlessReads) = 2%nat.
Proof.
  split.
  - apply (proj1 (failures_stay_local wallet failingReads encryptedReads
                    (lit "0xnft") [] 2 eq_refl eq_refl
                    ltac:(discriminate))).
    left. reflexivity.
  - apply (proj1 (proj2 (failures_stay_local wallet ownerlessReads
                           encryptedReads (lit "0xnft")
                           [lit "bafk1"; lit "bafk2"; lit "bafk3"] 2
                           eq_refl eq_refl ltac:(discriminate))
                    eq_refl eq_refl ltac:(lia))).
Defined.

Lemma listing_shows_minted_tokens_witness :
  AllNFTs.queryFn true wallet
    (AllNFTs.readsOf decodeAscii formatAddress (lit "0xnft") one_mint)
    notDeployed
  = [AllNFTs.regularNFT (lit "0xnft") 1 (lit "a") (Some (formatAddress 5))].
Proof.
  rewrite (listing_shows_minted_tokens decodeAscii formatAddress (lit "0xnft")
             wallet [(5, "a"%string)] one_mint notDeployed).
  - reflexivity.
  - vm_compute. reflexivity.
  - discriminate.
  - reflexivity.
Defined.

(** ** Enhanced datasets *)

Section EnhancedFacts.
Import DatasetsEnhanced.
Context {DataSetRest ProviderRest PDPData Piece : Type}.
Variable pieces : PDPData -> option (list Piece).
Variable isLive : DataSetRest -> bool.

Lemma enhanceDataset_well_formed
  (d : Datasets.DataSet DataSetRest ProviderRest PDPData) :
  well_formed (enhanceDataset pieces isLive d).
Proof.
  cbv beta delta [well_formed enhanceDataset]. cbn.
  set (n := match Datasets.data d with
            | Some x => match pieces x with
                        | Some l => Z.of_nat (length l)
                        | None => 0
                        end
            | None => 0
            end).
  assert (Hn : 0 <= n).
  { unfold n. destruct (Datasets.data d) as [x|]; [|lia].
    destruct (pieces x); lia. }
  assert (Hrel : (if 0 <? n then Some STORAGE_SENTINEL else None)
                 = Some STORAGE_SENTINEL <-> 0 < n).
  { destruct (Z.ltb_spec 0 n); split; try reflexivity; try discriminate; lia. }
  destruct (Datasets.provider d) as [p|]; cbn.
  - split; [lia|]. split; [lia|]. split; [now left|].
    split; [split; eauto|]. split; [exact Hrel|]. lia.
  - split; [lia|]. split; [lia|]. split; [now right|].
    split; [split; [discriminate|intros [x Hx]; discriminate]|].
    split; [exact Hrel|]. intros H. split; [lia|reflexivity].
Qed.

Lemma enhancedData_Some results
  (l : list (EnhancedDataSet DataSetRest ProviderRest PDPData)) :
  enhancedData pieces isLive results = Some l ->
  length l = length results /\ Forall well_formed l /\
  Forall (fun e => is_Some e) results.
Proof.
  revert l. induction results as [|[d|] rest IH]; intros l H; simpl in H.
  - injection H as <-. repeat split; constructor.
  - destruct (enhancedData pieces isLive rest) as [l'|]; [|discriminate].
    injection H as <-. destruct (IH l' eq_refl) as (Hl & Hw & Hs).
    repeat split; simpl; [now rewrite Hl| |].
    + constructor; [apply enhanceDataset_well_formed|exact Hw].
    + constructor; [eauto|exact Hs].
  - discriminate.
Qed.

Lemma enhancedData_defined
  (results : list (option (Datasets.DataSet DataSetRest ProviderRest PDPData))) :
  Forall (fun e => is_Some e) results ->
  is_Some (enhancedData pieces isLive results).
Proof.
  induction 1 as [|e rest [d ->] _ [l IH]]; simpl; [eauto|].
  rewrite IH. eauto.
Qed.

Lemma byComplexity_partition (l : list (EnhancedDataSet DataSetRest ProviderRest PDPData)) :
  Forall well_formed l ->
  (length (byComplexity 1 l) + length (byComplexity 2 l)
   + length (byComplexity 3 l) + length (byComplexity 4 l)
   + length (byComplexity 5 l) = length l)%nat.
Proof.
  unfold byComplexity.
  induction 1 as [|d l (Hc & _) _ IH]; [reflexivity|].
  simpl.
  destruct (Z.eqb_spec (complexityLevel d) 1);
    destruct (Z.eqb_spec (complexityLevel d) 2);
    destruct (Z.eqb_spec (complexityLevel d) 3);
    destruct (Z.eqb_spec (complexityLevel d) 4);
    destruct (Z.eqb_spec (complexityLevel d) 5);
    simpl; lia.
Qed.

Lemma byHealth_partition (l : list (EnhancedDataSet DataSetRest ProviderRest PDPData)) :
  Forall well_formed l ->
  (length (byHealth HEALTHY l) + length (byHealth UNKNOWN l) = length l)%nat.
Proof.
  unfold byHealth.
  induction 1 as [|d l (_ & _ & Hh & _) _ IH]; [reflexivity|].
  simpl. destruct Hh as [-> | ->]; simpl; lia.
Qed.

Lemma statistics_totalPieces_nonneg (l : list (EnhancedDataSet DataSetRest ProviderRest PDPData)) :
  Forall well_formed l -> 0 <= statistics_totalPieces l.
Proof.
  unfold statistics_totalPieces. intros H.
  assert (Hacc : forall acc, 0 <= acc ->
            0 <= fold_left (fun sum d => sum + totalPieces d) l acc).
  { induction H as [|d l (_ & Hp & _) _ IH]; intros acc Hacc; simpl;
      [exact Hacc|]. apply IH. lia. }
  apply Hacc. lia.
Qed.


End EnhancedFacts.

Section EnhancedQuery.
Context {DataSetRest ProviderRest PDPData Piece : Type}.

Lemma queryFn_entries_defined
  (sdk : Datasets.SDK DataSetRest ProviderRest PDPData) results :
  Datasets.queryFn sdk = Ok results -> Forall (fun e => is_Some e) results.
Proof.
  intros Hq.
  destruct (queryFn_Ok_inv sdk results Hq)
    as (Hs & Ha & Hc & Hw & pids & datasets & Hp & Hd).
  pose proof (queryFn_after_prelude sdk pids datasets Hs Ha Hc Hw Hp Hd) as Hq'.
  cbv zeta in Hq'. rewrite Hq' in Hq. injection Hq as <-.
  unfold Datasets.datasetsWithDetails.
  apply Forall_forall. intros e He.
  apply list_elem_of_fmap in He as (d & -> & Hd0).
  eapply Array_find_is_Some.
  - apply list_elem_of_fmap. exists d. split; [reflexivity|exact Hd0].
  - cbn. rewrite base_datasetDetails. apply Z.eqb_refl.
Qed.

(** The enhancement is defined on everything the dataset query returns: a
    successful query has no undefined entry, so mapping [enhanceDataset] over
    it does not throw and yields one enhanced dataset per entry; an undefined
    entry, on the other hand, would make it throw. *)
Theorem enhancement_defined_on_query_results :
  forall (pieces : PDPData -> option (list Piece)) (isLive : DataSetRest -> bool)
         (sdk : Datasets.SDK DataSetRest ProviderRest PDPData) results,
    Datasets.queryFn sdk = Ok results ->
    (exists l, DatasetsEnhanced.enhancedData pieces isLive results = Some l /\
               length l = length results) /\
    (forall before after : list (option (Datasets.DataSet DataSetRest
                                            ProviderRest PDPData)),
       DatasetsEnhanced.enhancedData pieces isLive (before ++ None :: after)
       = None).
Proof.
  intros pieces isLive sdk results Hq. split.
  - destruct (enhancedData_defined pieces isLive results
                (queryFn_entries_defined sdk results Hq)) as [l Hl].
    exists l. split; [exact Hl|].
    now destruct (enhancedData_Some pieces isLive results l Hl).
  - intros before after.
    induction before as [|[d|] before IH]; simpl; try reflexivity.
    now rewrite IH.
Qed.

End EnhancedQuery.


Lemma enhancement_defined_on_query_results_witness :
  exists l,
    DatasetsEnhanced.enhancedData (fun x : list jsstring => Some x)
      (fun _ : unit => true) flaky_results = Some l /\
    length l = 2%nat.
Proof.
  refine (proj1 (enhancement_defined_on_query_results
                   (fun x : list jsstring => Some x) (fun _ : unit => true)
                   flaky_sdk flaky_results _)).
  vm_compute. reflexivity.
Defined.
